(** * aprimc/hashmap: open-addressing hash map and hash set

    A shallow embedding of [map.go] (type [Map]), [set.go] (type [Set], here
    [HashSet] because [Set] is a sort of Rocq) and of the [Comparable]
    interface of [comparable.go], followed by the properties of the
    specification that were settled against it.

    Conventions of the embedding.
    - A Go slice is a [list]; the nil slice is the empty list (the program
      never builds a non-nil slice of length zero).  Reading [entries[index]]
      outside the slice panics.
    - [uint64] values are integers of [Z] in [0, 2^64); the conversions and
      additions on [uint64] have their wrap-around written out ([uint64]).
    - [int] values (lengths and sizes) are integers of [Z].  [make] refuses
      any length above [maxAlloc] (as the Go runtime does), and [maxAlloc] is
      below [2^61], so that no [int] expression of the program ([size+1],
      [3*len/4], [len*2]) can leave the 64-bit range.
    - A call either returns ([Ok]), panics ([Panic]), or has not returned
      within the number of loop iterations and nested calls it was given
      ([Timeout]). *)

From Stdlib Require Import ZArith Lia Bool.
From stdpp Require Import base list.

Local Open Scope Z_scope.

(** ** Outcomes of a call *)

Inductive result (A : Type) : Type :=
| Ok (a : A)
| Panic
| Timeout.

Arguments Ok {A} a.
Arguments Panic {A}.
Arguments Timeout {A}.

Definition bind {A B : Type} (r : result A) (k : A -> result B) : result B :=
  match r with
  | Ok a => k a
  | Panic => Panic
  | Timeout => Timeout
  end.

Definition rmap {A B : Type} (f : A -> B) (r : result A) : result B :=
  bind r (fun a => Ok (f a)).

Notation "x <- e ;; k" := (bind e (fun x => k))
  (at level 100, e at next level, right associativity, only parsing).

(** ** The Go runtime and the [Comparable] interface *)

(** The zero value of a Go type. *)
Class Zero (A : Type) := zero : A.

(** [Comparable[T]]: the two methods every key type implements. *)
Class Comparable (K : Type) := {
  Hash : K -> Z;
  Equals : K -> K -> bool
}.

(** Keys are modelled by their logical value: [Equals] decides equality of
    those values, so equal keys have equal hashes, and [Hash] returns a
    [uint64]. *)
Class ComparableLaws (K : Type) `{Comparable K} := {
  Hash_range : forall k : K, 0 <= Hash k < 2 ^ 64;
  Equals_eq : forall a b : K, Equals a b = true <-> a = b
}.

(** What the program takes from its environment: the largest length [make]
    accepts, and [emptySetHash], the value of [Int(0).Hash()] under the seed
    drawn at start-up. *)
Class Runtime := {
  maxAlloc : Z;
  emptySetHash : Z
}.

Class RuntimeLaws `{Runtime} := {
  maxAlloc_range : 16 <= maxAlloc < 2 ^ 61;
  emptySetHash_range : 0 <= emptySetHash < 2 ^ 64
}.

Definition fullBit : Z := Z.shiftl 1 63.
Definition initialCapacity : Z := 16.

(** Conversion to [uint64], and arithmetic on it. *)
Definition uint64 (x : Z) : Z := x mod 2 ^ 64.

(** ** Slices *)

Section Slices.
Context `{Runtime} {E : Type} `{Zero E}.

(** [make([]E, cap)] *)
Definition make (cap : Z) : result (list E) :=
  if (0 <=? cap) && (cap <=? maxAlloc)
  then Ok (replicate (Z.to_nat cap) zero)
  else Panic.

(** [len(entries)] *)
Definition len (entries : list E) : Z := Z.of_nat (length entries).

(** [entries[index]], read. *)
Definition at_index (entries : list E) (index : Z) : result E :=
  match entries !! Z.to_nat index with
  | Some entry => Ok entry
  | None => Panic
  end.

(** [entries[index] = entry]; every write of the program follows a read of
    the same index of the same slice, so it is in range. *)
Definition store (entries : list E) (index : Z) (entry : E) : list E :=
  <[Z.to_nat index := entry]> entries.

(** [copy(dst, src)] *)
Definition copy (dst src : list E) : list E :=
  take (length dst) src ++ drop (length src) dst.

(** [uint64(len(entries)-1)] *)
Definition mask (entries : list E) : Z := uint64 (len entries - 1).

(** [(index + 1) & uint64(len(entries)-1)] *)
Definition next (entries : list E) (index : Z) : Z :=
  Z.land (uint64 (index + 1)) (mask entries).
End Slices.

(** ** The probing loop

  [Get], [putHash1], [Remove], [containsHash1Key], [addHash1Key] and
  [removeHash1Key] all start with the same loop:
<<
  entry := entries[index]
  for entry.hash1 != 0 {
      if entry.hash1 == hash1 && entry.key.Equals(key) { ...return... }
      index = (index + 1) & uint64(len(entries)-1)
      entry = entries[index]
  }
>>
  [probe] is that loop; it reports where it stopped: on a matching entry
  ([Hit]) or on an empty one ([Free]).  [fuel] bounds the number of slots
  read. *)

Inductive slot (E : Type) : Type :=
| Hit (index : Z) (entry : E)
| Free (index : Z).

Arguments Hit {E} index entry.
Arguments Free {E} index.

Section Probe.
Context {K : Type} `{Comparable K} {E : Type}.
Variable eh : E -> Z.
Variable ek : E -> K.

Fixpoint probe (fuel : nat) (entries : list E) (hash1 : Z) (key : K)
    (index : Z) : result (slot E) :=
  match fuel with
  | O => Timeout
  | S fuel' =>
      entry <- at_index entries index ;;
      if eh entry =? 0 then Ok (Free index)
      else if (eh entry =? hash1) && Equals (ek entry) key
           then Ok (Hit index entry)
           else probe fuel' entries hash1 key (next entries index)
  end.
End Probe.

(** ** [map.go]: type [Map] *)

Record mapEntry (K V : Type) : Type := {
  hash1 : Z;
  key : K;
  value : V
}.

Arguments hash1 {K V} _.
Arguments key {K V} _.
Arguments value {K V} _.

Record Map (K V : Type) : Type := {
  entries : list (mapEntry K V);
  size : Z
}.

Arguments entries {K V} _.
Arguments size {K V} _.

(** What a removal did, next to the state it leaves: [shrunk] tells whether
    the table was rebuilt at half capacity, and [repaired] counts the
    executions of the body of the repair loop that follows the deleted slot.
    Both are ghost values, the program does not compute them. *)
Record removal (T : Type) : Type := {
  after : T;
  shrunk : bool;
  repaired : nat
}.

Arguments after {T} _.
Arguments shrunk {T} _.
Arguments repaired {T} _.

Section MapCode.
Context `{Runtime} {K : Type} `{Comparable K} `{Zero K} {V : Type} `{Zero V}.

#[export] Instance mapEntry_zero : Zero (mapEntry K V) :=
  {| hash1 := 0; key := zero; value := zero |}.

#[export] Instance Map_zero : Zero (Map K V) :=
  {| entries := []; size := 0 |}.

Definition Map_init (m : Map K V) : result (Map K V) :=
  entries' <- make initialCapacity ;;
  Ok {| entries := entries'; size := size m |}.

Definition Map_Size (m : Map K V) : Z := size m.

Definition Map_Get (fuel : nat) (m : Map K V) (key0 : K) : result (V * bool) :=
  if size m =? 0 then Ok (zero, false)
  else
    let hash1' := Z.lor (Hash key0) fullBit in
    let index := Z.land hash1' (mask (entries m)) in
    found <- probe hash1 key fuel (entries m) hash1' key0 index ;;
    match found with
    | Hit _ entry => Ok (value entry, true)
    | Free _ => Ok (zero, false)
    end.

(** The [for _, entry := range entries] loop of [resize], over the old
    slice, with the insertion it calls as a parameter. *)
Fixpoint Map_reinsert (put : Map K V -> Z -> K -> V -> result (Map K V))
    (old : list (mapEntry K V)) (m : Map K V) : result (Map K V) :=
  match old with
  | [] => Ok m
  | entry :: old' =>
      if hash1 entry =? 0 then Map_reinsert put old' m
      else
        m' <- put m (hash1 entry) (key entry) (value entry) ;;
        Map_reinsert put old' m'
  end.

Definition Map_resize_with (put : Map K V -> Z -> K -> V -> result (Map K V))
    (m : Map K V) (cap : Z) : result (Map K V) :=
  entries' <- make cap ;;
  Map_reinsert put (entries m) {| entries := entries'; size := 0 |}.

(** [putHash1] and [resize] call each other; [fuel] also bounds the depth of
    that recursion.  On a matching entry the program assigns [value] to the
    local copy [entry] of the slot, and returns: the slice is not written. *)
Fixpoint Map_putHash1 (fuel : nat) (m : Map K V) (hash1' : Z) (key0 : K)
    (value0 : V) : result (Map K V) :=
  match fuel with
  | O => Timeout
  | S fuel' =>
      let index := Z.land hash1' (mask (entries m)) in
      found <- probe hash1 key fuel (entries m) hash1' key0 index ;;
      match found with
      | Hit _ _ => Ok m
      | Free index =>
          let m1 :=
            {| entries := store (entries m) index
                 {| hash1 := hash1'; key := key0; value := value0 |};
               size := size m + 1 |} in
          if size m1 >? 3 * len (entries m1) / 4
          then Map_resize_with (Map_putHash1 fuel') m1 (len (entries m1) * 2)
          else Ok m1
      end
  end.

Definition Map_resize (fuel : nat) (m : Map K V) (cap : Z) : result (Map K V) :=
  Map_resize_with (Map_putHash1 fuel) m cap.

Definition Map_Put (fuel : nat) (m : Map K V) (key0 : K) (value0 : V)
    : result (Map K V) :=
  m <- (match entries m with [] => Map_init m | _ => Ok m end) ;;
  let hash1' := Z.lor (Hash key0) fullBit in
  Map_putHash1 fuel m hash1' key0 value0.

(** The inner loop of [Remove] (lines 105-112 of [map.go]): from [index]
    on, every entry up to the next empty slot is taken out and put back.
    [n] counts the entries so treated. *)
Fixpoint Map_repair (fuel : nat) (m : Map K V) (index : Z) (n : nat)
    : result (Map K V * nat) :=
  match fuel with
  | O => Timeout
  | S fuel' =>
      entry <- at_index (entries m) index ;;
      if hash1 entry =? 0 then Ok (m, n)
      else
        let m1 := {| entries := store (entries m) index zero;
                     size := size m - 1 |} in
        m2 <- Map_putHash1 fuel m1 (hash1 entry) (key entry) (value entry) ;;
        Map_repair fuel' m2 (next (entries m2) index) (S n)
  end.

Definition Map_Remove_run (fuel : nat) (m : Map K V) (key0 : K)
    : result (removal (Map K V)) :=
  if size m =? 0 then Ok {| after := m; shrunk := false; repaired := O |}
  else
    let hash1' := Z.lor (Hash key0) fullBit in
    let index := Z.land hash1' (mask (entries m)) in
    found <- probe hash1 key fuel (entries m) hash1' key0 index ;;
    match found with
    | Free _ => Ok {| after := m; shrunk := false; repaired := O |}
    | Hit index _ =>
        let m1 := {| entries := store (entries m) index zero;
                     size := size m - 1 |} in
        if (len (entries m1) >? initialCapacity)
           && (size m1 <? len (entries m1) / 4)
        then
          m2 <- Map_resize fuel m1 (len (entries m1) / 2) ;;
          Ok {| after := m2; shrunk := true; repaired := O |}
        else
          r <- Map_repair fuel m1 (next (entries m1) index) O ;;
          Ok {| after := fst r; shrunk := false; repaired := snd r |}
    end.

Definition Map_Remove (fuel : nat) (m : Map K V) (key0 : K)
    : result (Map K V) :=
  rmap after (Map_Remove_run fuel m key0).

(** [ForEach]: the visitor may have effects of its own, so it is a function
    on a state [S] of the caller; it does not touch the map it is run on. *)
Fixpoint Map_ForEach_range {S Err : Type}
    (f : K -> V -> S -> S * option Err) (es : list (mapEntry K V)) (st : S)
    : S * option Err :=
  match es with
  | [] => (st, None)
  | entry :: es' =>
      if hash1 entry =? 0 then Map_ForEach_range f es' st
      else
        match f (key entry) (value entry) st with
        | (st', Some err) => (st', Some err)
        | (st', None) => Map_ForEach_range f es' st'
        end
  end.

Definition Map_ForEach {S Err : Type} (f : K -> V -> S -> S * option Err)
    (m : Map K V) (st : S) : S * option Err :=
  Map_ForEach_range f (entries m) st.

Definition Map_Copy (m : Map K V) : result (Map K V) :=
  if size m =? 0 then Ok zero
  else
    entries' <- make (len (entries m)) ;;
    Ok {| entries := copy entries' (entries m); size := size m |}.

End MapCode.

(** ** [set.go]: type [Set] *)

Record setEntry (K : Type) : Type := {
  shash1 : Z;
  skey : K
}.

Arguments shash1 {K} _.
Arguments skey {K} _.

Record HashSet (K : Type) : Type := {
  sentries : list (setEntry K);
  ssize : Z;
  shash : Z
}.

Arguments sentries {K} _.
Arguments ssize {K} _.
Arguments shash {K} _.

Section SetCode.
Context `{Runtime} {K : Type} `{Comparable K} `{Zero K}.

#[export] Instance setEntry_zero : Zero (setEntry K) :=
  {| shash1 := 0; skey := zero |}.

#[export] Instance HashSet_zero : Zero (HashSet K) :=
  {| sentries := []; ssize := 0; shash := 0 |}.

Definition Set_init (s : HashSet K) : result (HashSet K) :=
  entries' <- make initialCapacity ;;
  Ok {| sentries := entries'; ssize := ssize s; shash := emptySetHash |}.

Definition Set_Size (s : HashSet K) : Z := ssize s.

Definition Set_containsHash1Key (fuel : nat) (s : HashSet K) (hash1' : Z)
    (key0 : K) : result bool :=
  let index := Z.land hash1' (mask (sentries s)) in
  found <- probe shash1 skey fuel (sentries s) hash1' key0 index ;;
  match found with
  | Hit _ _ => Ok true
  | Free _ => Ok false
  end.

Definition Set_Contains (fuel : nat) (s : HashSet K) (key0 : K) : result bool :=
  if ssize s =? 0 then Ok false
  else
    let hash1' := Z.lor (Hash key0) fullBit in
    Set_containsHash1Key fuel s hash1' key0.

(** The [for _, entry := range entries] loop of [resize]. *)
Fixpoint Set_reinsert (add : HashSet K -> Z -> K -> result (HashSet K))
    (old : list (setEntry K)) (s : HashSet K) : result (HashSet K) :=
  match old with
  | [] => Ok s
  | entry :: old' =>
      if shash1 entry =? 0 then Set_reinsert add old' s
      else
        s' <- add s (shash1 entry) (skey entry) ;;
        Set_reinsert add old' s'
  end.

Definition Set_resize_with (add : HashSet K -> Z -> K -> result (HashSet K))
    (s : HashSet K) (cap : Z) : result (HashSet K) :=
  entries' <- make cap ;;
  Set_reinsert add (sentries s)
    {| sentries := entries'; ssize := 0; shash := emptySetHash |}.

Fixpoint Set_addHash1Key (fuel : nat) (s : HashSet K) (hash1' : Z) (key0 : K)
    : result (HashSet K) :=
  match fuel with
  | O => Timeout
  | S fuel' =>
      s <- (match sentries s with [] => Set_init s | _ => Ok s end) ;;
      let index := Z.land hash1' (mask (sentries s)) in
      found <- probe shash1 skey fuel (sentries s) hash1' key0 index ;;
      match found with
      | Hit _ _ => Ok s
      | Free index =>
          let s1 :=
            {| sentries := store (sentries s) index
                 {| shash1 := hash1'; skey := key0 |};
               ssize := ssize s + 1;
               shash := Z.lxor (shash s) hash1' |} in
          if ssize s1 >? 3 * len (sentries s1) / 4
          then Set_resize_with (Set_addHash1Key fuel') s1
                 (len (sentries s1) * 2)
          else Ok s1
      end
  end.

Definition Set_resize (fuel : nat) (s : HashSet K) (cap : Z)
    : result (HashSet K) :=
  Set_resize_with (Set_addHash1Key fuel) s cap.

Definition Set_Add (fuel : nat) (s : HashSet K) (key0 : K)
    : result (HashSet K) :=
  let hash1' := Z.lor (Hash key0) fullBit in
  Set_addHash1Key fuel s hash1' key0.

(** The inner loop of [removeHash1Key] (lines 128-136 of [src/README.md],
    where the text of [set.go] is); [n] counts the executions of its body. *)
Fixpoint Set_repair (fuel : nat) (s : HashSet K) (index : Z) (n : nat)
    : result (HashSet K * nat) :=
  match fuel with
  | O => Timeout
  | S fuel' =>
      entry <- at_index (sentries s) index ;;
      if shash1 entry =? 0 then Ok (s, n)
      else
        let s1 := {| sentries := store (sentries s) index zero;
                     ssize := ssize s - 1;
                     shash := Z.lxor (shash s) (shash1 entry) |} in
        s2 <- Set_addHash1Key fuel s1 (shash1 entry) (skey entry) ;;
        Set_repair fuel' s2 (next (sentries s2) index) (S n)
  end.

(** In [removeHash1Key] the call of [resize] is not followed by a [return]:
    the repair loop runs on the rebuilt table, from the successor (in the new
    table) of the index found in the old one. *)
Definition Set_removeHash1Key_run (fuel : nat) (s : HashSet K) (hash1' : Z)
    (key0 : K) : result (removal (HashSet K)) :=
  let index := Z.land hash1' (mask (sentries s)) in
  found <- probe shash1 skey fuel (sentries s) hash1' key0 index ;;
  match found with
  | Free _ => Ok {| after := s; shrunk := false; repaired := O |}
  | Hit index _ =>
      let s1 := {| sentries := store (sentries s) index zero;
                   ssize := ssize s - 1;
                   shash := Z.lxor (shash s) hash1' |} in
      let shrink := (len (sentries s1) >? initialCapacity)
                    && (ssize s1 <? len (sentries s1) / 4) in
      s2 <- (if shrink then Set_resize fuel s1 (len (sentries s1) / 2)
             else Ok s1) ;;
      r <- Set_repair fuel s2 (next (sentries s2) index) O ;;
      Ok {| after := fst r; shrunk := shrink; repaired := snd r |}
  end.

Definition Set_removeHash1Key (fuel : nat) (s : HashSet K) (hash1' : Z)
    (key0 : K) : result (HashSet K) :=
  rmap after (Set_removeHash1Key_run fuel s hash1' key0).

Definition Set_Remove_run (fuel : nat) (s : HashSet K) (key0 : K)
    : result (removal (HashSet K)) :=
  if ssize s =? 0 then Ok {| after := s; shrunk := false; repaired := O |}
  else
    let hash1' := Z.lor (Hash key0) fullBit in
    Set_removeHash1Key_run fuel s hash1' key0.

Definition Set_Remove (fuel : nat) (s : HashSet K) (key0 : K)
    : result (HashSet K) :=
  rmap after (Set_Remove_run fuel s key0).

Fixpoint Set_ForEach_range {S Err : Type} (f : K -> S -> S * option Err)
    (es : list (setEntry K)) (st : S) : S * option Err :=
  match es with
  | [] => (st, None)
  | entry :: es' =>
      if shash1 entry =? 0 then Set_ForEach_range f es' st
      else
        match f (skey entry) st with
        | (st', Some err) => (st', Some err)
        | (st', None) => Set_ForEach_range f es' st'
        end
  end.

Definition Set_ForEach {S Err : Type} (f : K -> S -> S * option Err)
    (s : HashSet K) (st : S) : S * option Err :=
  Set_ForEach_range f (sentries s) st.

Definition Set_Copy (s : HashSet K) : result (HashSet K) :=
  if ssize s =? 0 then Ok zero
  else
    entries' <- make (len (sentries s)) ;;
    Ok {| sentries := copy entries' (sentries s);
          ssize := ssize s;
          shash := shash s |}.

Definition Set_Hash (s : HashSet K) : Z :=
  if ssize s =? 0 then emptySetHash else shash s.

(** [if len(s.entries) > len(t.entries) { s, t = t, s }]: the pair is
    (the operand whose entries are ranged over, the operand queried). *)
Definition swap_if_longer (s t : HashSet K) : HashSet K * HashSet K :=
  if len (sentries s) >? len (sentries t) then (t, s) else (s, t).

(** The loop of [Equals] and [IsSubset]: is every live entry of [es] in
    [t]?  It returns at the first that is not. *)
Fixpoint Set_all_in (fuel : nat) (es : list (setEntry K)) (t : HashSet K)
    : result bool :=
  match es with
  | [] => Ok true
  | entry :: es' =>
      if shash1 entry =? 0 then Set_all_in fuel es' t
      else
        c <- Set_containsHash1Key fuel t (shash1 entry) (skey entry) ;;
        if c then Set_all_in fuel es' t else Ok false
  end.

(** The loop of [IsDisjoint]: is no live entry of [es] in [t]? *)
Fixpoint Set_none_in (fuel : nat) (es : list (setEntry K)) (t : HashSet K)
    : result bool :=
  match es with
  | [] => Ok true
  | entry :: es' =>
      if shash1 entry =? 0 then Set_none_in fuel es' t
      else
        c <- Set_containsHash1Key fuel t (shash1 entry) (skey entry) ;;
        if c then Ok false else Set_none_in fuel es' t
  end.

Definition Set_Equals (fuel : nat) (s t : HashSet K) : result bool :=
  if negb (ssize s =? ssize t) then Ok false
  else if ssize s =? 0 then Ok true
  else if negb (Set_Hash s =? Set_Hash t) then Ok false
  else
    let '(s, t) := swap_if_longer s t in
    Set_all_in fuel (sentries s) t.

Definition Set_IsSubset (fuel : nat) (s t : HashSet K) : result bool :=
  if ssize s >? ssize t then Ok false
  else if ssize s =? 0 then Ok true
  else Set_all_in fuel (sentries s) t.

Definition Set_IsDisjoint (fuel : nat) (s t : HashSet K) : result bool :=
  if (ssize s =? 0) || (ssize t =? 0) then Ok true
  else
    let '(s, t) := swap_if_longer s t in
    Set_none_in fuel (sentries s) t.

(** The loop of [Union]: every live entry of [es] is added to [r]. *)
Fixpoint Set_add_all (fuel : nat) (es : list (setEntry K)) (r : HashSet K)
    : result (HashSet K) :=
  match es with
  | [] => Ok r
  | entry :: es' =>
      if shash1 entry =? 0 then Set_add_all fuel es' r
      else
        r' <- Set_addHash1Key fuel r (shash1 entry) (skey entry) ;;
        Set_add_all fuel es' r'
  end.

Definition Set_Union (fuel : nat) (s t : HashSet K) : result (HashSet K) :=
  if ssize s =? 0 then Set_Copy t
  else if ssize t =? 0 then Set_Copy s
  else
    let '(s, t) := swap_if_longer s t in
    r <- Set_Copy t ;;
    Set_add_all fuel (sentries s) r.

(** The loop of [Intersection]: the live entries of [es] found in [t] are
    added to [r]. *)
Fixpoint Set_add_common (fuel : nat) (es : list (setEntry K)) (t : HashSet K)
    (r : HashSet K) : result (HashSet K) :=
  match es with
  | [] => Ok r
  | entry :: es' =>
      if shash1 entry =? 0 then Set_add_common fuel es' t r
      else
        c <- Set_containsHash1Key fuel t (shash1 entry) (skey entry) ;;
        if c
        then r' <- Set_addHash1Key fuel r (shash1 entry) (skey entry) ;;
             Set_add_common fuel es' t r'
        else Set_add_common fuel es' t r
  end.

Definition Set_Intersection (fuel : nat) (s t : HashSet K)
    : result (HashSet K) :=
  let r : HashSet K := zero in
  if (ssize s =? 0) || (ssize t =? 0) then Ok r
  else
    let '(s, t) := swap_if_longer s t in
    Set_add_common fuel (sentries s) t r.

(** The loop of [Difference]: every live entry of [es] is removed from
    [r]. *)
Fixpoint Set_remove_all (fuel : nat) (es : list (setEntry K)) (r : HashSet K)
    : result (HashSet K) :=
  match es with
  | [] => Ok r
  | entry :: es' =>
      if shash1 entry =? 0 then Set_remove_all fuel es' r
      else
        r' <- Set_removeHash1Key fuel r (shash1 entry) (skey entry) ;;
        Set_remove_all fuel es' r'
  end.

Definition Set_Difference (fuel : nat) (s t : HashSet K)
    : result (HashSet K) :=
  r <- Set_Copy s ;;
  if (ssize s =? 0) || (ssize t =? 0) then Ok r
  else Set_remove_all fuel (sentries t) r.

End SetCode.

(** ** A key type for the examples

    [IdKey] is a caller's key type whose [Hash] returns the key itself:
<<
    type IdKey uint64
    func (k IdKey) Hash() uint64          { return uint64(k) }
    func (k IdKey) Equals(o IdKey) bool   { return k == o }
>>  *)

Definition IdKey : Type := Z.

#[export] Instance IdKey_Comparable : Comparable IdKey :=
  {| Hash := fun k => uint64 k; Equals := Z.eqb |}.

#[export] Instance IdKey_zero : Zero IdKey := 0.

(** A run of the program: the allocation limit of 64-bit Go for 8-byte
    elements, and some value of [Int(0).Hash()]. *)
Definition example_runtime : Runtime :=
  {| maxAlloc := 2 ^ 45; emptySetHash := 12345 |}.

(** * Properties *)

(** ** Arithmetic of the probe sequence *)

Lemma mod_add_inj (c a j j' : Z) :
  0 < c -> 0 <= j < c -> 0 <= j' < c ->
  (a + j) mod c = (a + j') mod c -> j = j'.
Proof.
  intros Hc Hj Hj' Heq.
  assert (Hd : (j - j') mod c = 0).
  { replace (j - j') with ((a + j) - (a + j')) by lia.
    rewrite Zminus_mod, Heq, Z.sub_diag. apply Z.mod_0_l. lia. }
  apply Z.mod_divide in Hd; [|lia].
  destruct Hd as [q Hq].
  assert (q = 0) by nia. lia.
Qed.

Lemma mod_succ (c a j : Z) :
  0 < c -> ((a + 1) mod c + j) mod c = (a + (j + 1)) mod c.
Proof.
  intros Hc. rewrite Zplus_mod_idemp_l. f_equal. lia.
Qed.

Lemma mod_reach (c a z : Z) :
  0 < c -> 0 <= z < c -> (a + (z - a) mod c) mod c = z.
Proof.
  intros Hc Hz. rewrite Zplus_mod_idemp_r.
  replace (a + (z - a)) with z by lia. apply Z.mod_small. lia.
Qed.

(** The least index at which a decidable property holds. *)
Lemma first_stop (P : Z -> Prop) (m : Z) :
  (forall j, P j \/ ~ P j) -> 0 <= m -> P m ->
  exists n, 0 <= n <= m /\ P n /\ forall j, 0 <= j < n -> ~ P j.
Proof.
  intros Hdec Hm HP.
  assert (HQ : forall b, 0 <= b ->
    (exists n, 0 <= n < b /\ P n /\ forall j, 0 <= j < n -> ~ P j)
    \/ (forall j, 0 <= j < b -> ~ P j)).
  { apply natlike_ind.
    - right. intros j Hj. lia.
    - intros b Hb [(n & Hn & HPn & Hlt) | Hnone].
      + left. exists n. split; [lia | auto].
      + destruct (Hdec b) as [Hb' | Hb'].
        * left. exists b. split; [lia | auto].
        * right. intros j Hj. destruct (Z.eq_dec j b) as [-> | Hne]; [done |].
          apply Hnone. lia. }
  destruct (HQ (m + 1)) as [(n & Hn & HPn & Hlt) | Hnone]; [lia | |].
  - exists n. split; [lia | auto].
  - exfalso. apply (Hnone m); [lia | done].
Qed.

(** ** Slices *)

Section SliceFacts.
Context {E : Type}.
Implicit Types (t : list E) (e : E).

(** The slot at a non-negative index. *)
Definition get t (p : Z) : option E := t !! Z.to_nat p.

Lemma at_index_get t p : at_index t p = match get t p with Some e => Ok e | None => Panic end.
Proof. reflexivity. Qed.

Lemma get_Some_lt t p e : 0 <= p -> get t p = Some e -> p < len t.
Proof.
  unfold get, len. intros Hp Hg. apply lookup_lt_Some in Hg. lia.
Qed.

Lemma get_lt_Some t p : 0 <= p < len t -> exists e, get t p = Some e.
Proof.
  unfold get, len. intros Hp.
  destruct (lookup_lt_is_Some_2 t (Z.to_nat p)) as [e He]; [lia | eauto].
Qed.

Lemma len_store t p e : len (store t p e) = len t.
Proof. unfold len, store. by rewrite length_insert. Qed.

Lemma get_store_eq t p e : 0 <= p < len t -> get (store t p e) p = Some e.
Proof.
  unfold get, store, len. intros Hp. apply list_lookup_insert_eq. lia.
Qed.

Lemma get_store_ne t p q e :
  0 <= p -> 0 <= q -> p <> q -> get (store t p e) q = get t q.
Proof.
  unfold get, store. intros Hp Hq Hne. apply list_lookup_insert_ne. lia.
Qed.

Lemma get_store t p q e :
  0 <= p < len t -> 0 <= q ->
  get (store t p e) q = if decide (q = p) then Some e else get t q.
Proof.
  intros Hp Hq. case_decide as Hd.
  - subst. by apply get_store_eq.
  - apply get_store_ne; lia.
Qed.

(** Capacities are powers of two that [make] can deliver. *)
Definition cap_ok t : Prop := exists k, 0 <= k <= 61 /\ len t = 2 ^ k.

Lemma cap_ok_pos t : cap_ok t -> 0 < len t <= 2 ^ 61.
Proof.
  intros (k & Hk & ->). split.
  - apply Z.pow_pos_nonneg; lia.
  - apply Z.pow_le_mono_r; lia.
Qed.

Lemma cap_ok_store t p e : cap_ok t -> cap_ok (store t p e).
Proof. unfold cap_ok. by rewrite len_store. Qed.

Lemma mask_eq t : cap_ok t -> mask t = len t - 1.
Proof.
  intros Hc. pose proof (cap_ok_pos t Hc). unfold mask, uint64.
  apply Z.mod_small. lia.
Qed.

Lemma home_eq t h : cap_ok t -> Z.land h (mask t) = h mod len t.
Proof.
  intros Hc. rewrite (mask_eq t Hc). destruct Hc as (k & Hk & ->).
  rewrite <- Z.land_ones by lia. f_equal. rewrite Z.ones_equiv. lia.
Qed.

Lemma next_eq t i : cap_ok t -> 0 <= i < len t -> next t i = (i + 1) mod len t.
Proof.
  intros Hc Hi. pose proof (cap_ok_pos t Hc). unfold next.
  rewrite home_eq by done. unfold uint64.
  by rewrite (Z.mod_small (i + 1)) by lia.
Qed.

Lemma mask_store t p e : mask (store t p e) = mask t.
Proof. unfold mask. by rewrite len_store. Qed.

Lemma next_store t p e i : next (store t p e) i = next t i.
Proof. unfold next. by rewrite mask_store. Qed.

(** The slot at an index of the probe sequence, which wraps around. *)
Definition look t (x : Z) : option E := get t (x mod len t).

Lemma look_Some t x : 0 < len t -> exists e, look t x = Some e.
Proof.
  intros Hc. apply get_lt_Some. apply Z.mod_pos_bound. lia.
Qed.

Lemma look_small t x : 0 <= x < len t -> look t x = get t x.
Proof. intros Hx. unfold look. by rewrite Z.mod_small. Qed.

Lemma look_succ t a j : 0 < len t -> look t ((a + 1) mod len t + j) = look t (a + (j + 1)).
Proof. intros Hc. unfold look. by rewrite mod_succ. Qed.

Lemma look_store t p e x :
  0 <= p < len t ->
  look (store t p e) x = if decide (x mod len t = p) then Some e else look t x.
Proof.
  intros Hp. unfold look. rewrite len_store. apply get_store; [done |].
  apply Z.mod_pos_bound. lia.
Qed.

End SliceFacts.

(** ** The probing loop on a well-formed table *)

Section Engine.
Context {K : Type} {cmp : Comparable K} {laws : ComparableLaws K} {E : Type}.
Variable eh : E -> Z.
Variable ek : E -> K.
Implicit Types (t : list E) (e : E) (h : Z) (k : K).

(** [entry.hash1 == hash1 && entry.key.Equals(key)] *)
Definition matches e h k : bool := (eh e =? h) && Equals (ek e) k.

Lemma matches_true e h k : matches e h k = true <-> eh e = h /\ ek e = k.
Proof.
  unfold matches. rewrite andb_true_iff, Z.eqb_eq, Equals_eq. done.
Qed.

Lemma matches_false e h k : matches e h k = false <-> ~ (eh e = h /\ ek e = k).
Proof.
  rewrite <- matches_true. destruct (matches e h k); naive_solver.
Qed.

(** What [probe] reports when it stops on entry [e] of index [p]. *)
Definition stop_at (p : Z) e : slot E :=
  if eh e =? 0 then Free p else Hit p e.

Lemma next_nonneg t i : 0 <= next t i.
Proof.
  unfold next, mask, uint64. apply Z.land_nonneg. left.
  apply Z.mod_pos_bound. lia.
Qed.

(** Whatever the table, a reported slot is what the loop read last. *)
Lemma probe_sound fuel t h k i r :
  0 <= i -> probe eh ek fuel t h k i = Ok r ->
  match r with
  | Free q => 0 <= q /\ exists e, get t q = Some e /\ eh e = 0
  | Hit q e => 0 <= q /\ get t q = Some e /\ eh e <> 0 /\ eh e = h /\ ek e = k
  end.
Proof.
  revert i. induction fuel as [| fuel IH]; intros i Hi; simpl; [done |].
  rewrite at_index_get. destruct (get t i) as [e |] eqn:Hg; simpl; [| done].
  destruct (Z.eqb_spec (eh e) 0) as [Hz | Hz].
  - intros [= <-]. eauto.
  - change ((eh e =? h) && Equals (ek e) k) with (matches e h k).
    destruct (matches e h k) eqn:Hm.
    + intros [= <-]. apply matches_true in Hm. destruct Hm. auto.
    + apply IH, next_nonneg.
Qed.

(** The loop started at [a] passes [n] live entries that do not match and
    stops at the next one. *)
Lemma probe_exact fuel t h k a n e :
  cap_ok t -> 0 <= a < len t -> 0 <= n ->
  (forall j, 0 <= j < n ->
     exists e', look t (a + j) = Some e' /\ eh e' <> 0 /\ matches e' h k = false) ->
  look t (a + n) = Some e ->
  eh e = 0 \/ matches e h k = true ->
  probe eh ek fuel t h k a =
    if Z.of_nat fuel <=? n then Timeout else Ok (stop_at ((a + n) mod len t) e).
Proof.
  intros Hc. pose proof (cap_ok_pos t Hc) as Hlen.
  revert a n. induction fuel as [| fuel IH]; intros a n Ha Hn Hwalk He Hstop.
  { cbn [probe]. destruct (Z.leb_spec (Z.of_nat 0) n); [done | lia]. }
  cbn [probe]. rewrite at_index_get.
  destruct (Z.eq_dec n 0) as [-> | Hn0].
  - rewrite Z.add_0_r in He |- *. rewrite look_small in He by done.
    rewrite He. cbn [bind]. rewrite Z.mod_small by done.
    destruct (Z.leb_spec (Z.of_nat (S fuel)) 0); [lia |].
    unfold stop_at. destruct (Z.eqb_spec (eh e) 0) as [Hz | Hz]; [done |].
    destruct Hstop as [? | Hm]; [done |]. unfold matches in Hm. by rewrite Hm.
  - destruct (Hwalk 0) as (e0 & He0 & Hlive & Hm); [lia |].
    rewrite Z.add_0_r, look_small in He0 by done. rewrite He0. cbn [bind].
    destruct (Z.eqb_spec (eh e0) 0) as [? | _]; [done |].
    unfold matches in Hm. rewrite Hm.
    rewrite next_eq by done.
    assert (Ha' : 0 <= (a + 1) mod len t < len t) by (apply Z.mod_pos_bound; lia).
    rewrite (IH ((a + 1) mod len t) (n - 1)); try done; try lia.
    + rewrite mod_succ by lia. replace (n - 1 + 1) with n by lia.
      destruct (Z.leb_spec (Z.of_nat fuel) (n - 1)), (Z.leb_spec (Z.of_nat (S fuel)) n); done || lia.
    + intros j Hj. rewrite look_succ by lia. apply Hwalk. lia.
    + rewrite look_succ by lia. by replace (n - 1 + 1) with n by lia.
Qed.

(** *** Well-formed tables *)

(** The live entries of a table. *)
Definition holds t e : Prop := exists p, 0 <= p /\ get t p = Some e /\ eh e <> 0.

Definition has_key t h k : Prop := exists e, holds t e /\ eh e = h /\ ek e = k.

Definition empty_at t (z : Z) : Prop :=
  0 <= z < len t /\ exists e, get t z = Some e /\ eh e = 0.

(** Entry [e] of index [p] is reached from its home slot [e.hash1 & mask]
    through live slots only, except that the walk may cross the hole [h]
    when it goes on for at least [d] more steps. *)
Definition reaches t (h d p : Z) e : Prop :=
  exists n, 0 <= n < len t /\ (eh e mod len t + n) mod len t = p /\
    forall j, 0 <= j < n ->
      (exists e', look t (eh e mod len t + j) = Some e' /\ eh e' <> 0)
      \/ ((eh e mod len t + j) mod len t = h /\ d <= n - j).

Definition chainx t (h d : Z) : Prop :=
  forall p e, 0 <= p -> get t p = Some e -> eh e <> 0 -> reaches t h d p e.

(** No hole is excused: every live entry is reached through live slots. *)
Definition chain t : Prop := chainx t 0 (len t).

(** No two live slots hold the same hash and key. *)
Definition distinct t : Prop :=
  forall p q e e', 0 <= p -> 0 <= q -> get t p = Some e -> get t q = Some e' ->
    eh e <> 0 -> eh e = eh e' -> ek e = ek e' -> p = q.

Lemma chain_walk t p e :
  chain t -> 0 <= p -> get t p = Some e -> eh e <> 0 ->
  exists n, 0 <= n < len t /\ (eh e mod len t + n) mod len t = p /\
    forall j, 0 <= j < n ->
      exists e', look t (eh e mod len t + j) = Some e' /\ eh e' <> 0.
Proof.
  intros Hch Hp Hg Hl. destruct (Hch p e Hp Hg Hl) as (n & Hn & Hpos & Hw).
  exists n. split; [done |]. split; [done |].
  intros j Hj. destruct (Hw j Hj) as [? | [_ ?]]; [done | lia].
Qed.

Lemma chain_chainx t h d : chain t -> chainx t h d.
Proof.
  intros Hch p e Hp Hg Hl.
  destruct (chain_walk t p e Hch Hp Hg Hl) as (n & Hn & Hpos & Hw).
  exists n. split; [done |]. split; [done |]. intros j Hj. left. auto.
Qed.

(** The loop stops within [len t] reads as soon as one slot is empty, on
    the entry looked for if the table holds it. *)
Lemma probe_any t h k :
  cap_ok t -> chain t -> distinct t -> (exists z, empty_at t z) ->
  exists n r, 0 <= n < len t /\
    (forall fuel, probe eh ek fuel t h k (h mod len t) =
       if Z.of_nat fuel <=? n then Timeout else Ok r) /\
    match r with
    | Hit p e => 0 <= p /\ get t p = Some e /\ eh e <> 0 /\ eh e = h /\ ek e = k
    | Free q => empty_at t q /\ q = (h mod len t + n) mod len t /\
        ~ has_key t h k /\
        forall j, 0 <= j < n ->
          exists e', look t (h mod len t + j) = Some e' /\ eh e' <> 0
    end.
Proof.
  intros Hc Hch Hd (z & Hz & e0 & Hge0 & He0).
  pose proof (cap_ok_pos t Hc) as Hlen.
  set (a := h mod len t).
  assert (Ha : 0 <= a < len t) by (apply Z.mod_pos_bound; lia).
  set (P := fun j => exists e, look t (a + j) = Some e /\
                       (eh e = 0 \/ matches e h k = true)).
  assert (Hdec : forall j, P j \/ ~ P j).
  { intros j. unfold P. destruct (look_Some t (a + j)) as [e He]; [lia |].
    destruct (Z.eq_dec (eh e) 0) as [Hz0 | Hz0]; [left; eauto |].
    destruct (matches e h k) eqn:Hm; [left; eauto |].
    right. intros (e' & He' & Hst). rewrite He in He'. injection He' as <-.
    destruct Hst; congruence. }
  assert (Hm : P ((z - a) mod len t)).
  { exists e0. unfold look. rewrite mod_reach by lia. auto. }
  destruct (first_stop P ((z - a) mod len t) Hdec) as (n & Hn & (e & He & Hst) & Hbefore);
    [apply Z.mod_pos_bound; lia | done |].
  assert (Hnlt : 0 <= n < len t).
  { pose proof (Z.mod_pos_bound (z - a) (len t)). lia. }
  assert (Hwalk : forall j, 0 <= j < n ->
    exists e', look t (a + j) = Some e' /\ eh e' <> 0 /\ matches e' h k = false).
  { intros j Hj. destruct (look_Some t (a + j)) as [e' He']; [lia |].
    exists e'. split; [done |].
    split.
    - intros Hz0. apply (Hbefore j Hj). exists e'. auto.
    - destruct (matches e' h k) eqn:Hm'; [| done].
      exfalso. apply (Hbefore j Hj). exists e'. auto. }
  exists n, (stop_at ((a + n) mod len t) e). split; [done |]. split.
  { intros fuel. apply probe_exact; auto; lia. }
  assert (Hq : 0 <= (a + n) mod len t < len t) by (apply Z.mod_pos_bound; lia).
  unfold stop_at. destruct (Z.eqb_spec (eh e) 0) as [Hz0 | Hz0].
  - split; [split; [done | exists e; auto] |]. split; [done |]. split.
    + intros (e' & (p & Hp & Hgp & Hlp) & Hh & Hk).
      destruct (chain_walk t p e' Hch Hp Hgp Hlp) as (n' & Hn' & Hpos & Hw).
      rewrite Hh in Hpos, Hw. fold a in Hpos, Hw.
      assert (He'look : look t (a + n') = Some e') by (unfold look; by rewrite Hpos).
      destruct (Z.lt_trichotomy n n') as [Hlt | [Heq | Hgt]].
      * destruct (Hw n) as (e'' & He'' & Hl''); [lia |]. congruence.
      * subst n'. congruence.
      * apply (Hbefore n'); [lia |]. exists e'. split; [done |]. right.
        apply matches_true. auto.
    + intros j Hj. destruct (Hwalk j Hj) as (e' & ? & ? & _). eauto.
  - destruct Hst as [? | Hm']; [done |]. apply matches_true in Hm' as [? ?].
    split; [lia |]. auto.
Qed.

(** *** Writing a new entry on the empty slot the loop reported *)

Lemma holds_store t q e' x :
  empty_at t q -> eh e' <> 0 ->
  holds (store t q e') x <-> holds t x \/ x = e'.
Proof.
  intros (Hq & e0 & Hg0 & Hz0) Hl. unfold holds. split.
  - intros (p & Hp & Hg & Hlx). rewrite get_store in Hg by lia.
    case_decide; [right; congruence | left; eauto].
  - intros [(p & Hp & Hg & Hlx) | ->].
    + exists p. split; [done |]. rewrite get_store by lia.
      case_decide; [subst; congruence | done].
    + exists q. rewrite get_store_eq by lia. split; [lia | done].
Qed.

Lemma insert_ok t h k q n e' :
  cap_ok t -> chain t -> distinct t -> empty_at t q ->
  0 <= n < len t -> q = (h mod len t + n) mod len t ->
  ~ has_key t h k ->
  (forall j, 0 <= j < n ->
     exists e, look t (h mod len t + j) = Some e /\ eh e <> 0) ->
  eh e' = h -> ek e' = k -> h <> 0 ->
  chain (store t q e') /\ distinct (store t q e').
Proof.
  intros Hc Hch Hd (Hq & e0 & Hg0 & Hz0) Hn Hqn Habs Hw Hh Hk Hh0.
  assert (Hlive : forall x, (exists e, look t x = Some e /\ eh e <> 0) ->
            exists e, look (store t q e') x = Some e /\ eh e <> 0).
  { intros x (e & He & Hl). rewrite look_store by done.
    case_decide; [exists e'; split; [done | congruence] | eauto]. }
  split.
  - intros p e Hp Hg Hl. unfold reaches. rewrite len_store.
    rewrite get_store in Hg by lia. case_decide as Hpq.
    + injection Hg as <-. exists n. rewrite Hh. split; [done |]. split; [congruence |].
      intros j Hj. left. apply Hlive. auto.
    + destruct (chain_walk t p e Hch Hp Hg Hl) as (n1 & Hn1 & Hpos & Hw1).
      exists n1. split; [done |]. split; [done |].
      intros j Hj. left. apply Hlive. auto.
  - intros p1 p2 e1 e2 Hp1 Hp2 Hg1 Hg2 Hl Heh Hek.
    rewrite get_store in Hg1, Hg2 by lia.
    repeat case_decide; try congruence.
    + exfalso. apply Habs. exists e1. split; [| split; congruence].
      exists p1. eauto.
    + exfalso. apply Habs. exists e2. split; [| split; congruence].
      exists p2. split; [done |]. split; [done |]. congruence.
    + by apply (Hd p1 p2 e1 e2).
Qed.

(** *** The table while [Remove] repairs the cluster of a deleted slot *)

(** [h] is the hole left behind, the loop is about to read the slot [d]
    steps after it, and [z] is an empty slot other than [h]. *)
Definition holey t (h d z : Z) : Prop :=
  cap_ok t /\ chainx t h d /\ distinct t /\ 1 <= d <= len t /\
  empty_at t h /\ empty_at t z /\ z <> h.

Lemma holey_exit t h d z e0 :
  holey t h d z -> get t ((h + d) mod len t) = Some e0 -> eh e0 = 0 ->
  chain t.
Proof.
  intros (Hc & Hch & _ & Hd & (Hh & _) & _) Hg Hz0.
  pose proof (cap_ok_pos t Hc) as Hlen.
  intros p e Hp Hgp Hl.
  destruct (Hch p e Hp Hgp Hl) as (n & Hn & Hpos & Hw).
  exists n. split; [done |]. split; [done |].
  intros j Hj. destruct (Hw j Hj) as [Hlive | [Hjh Hdn]]; [by left |].
  exfalso. set (a := eh e mod len t) in *.
  assert (Hi : (a + (j + d)) mod len t = (h + d) mod len t).
  { rewrite <- Hjh. rewrite Zplus_mod_idemp_l. f_equal. lia. }
  destruct (Z.eq_dec (j + d) n) as [Hjd | Hjd].
  - rewrite Hjd, Hpos in Hi. subst p. congruence.
  - destruct (Hw (j + d)) as [(e' & He' & Hl') | [Hjh' Hdn']]; [lia | |].
    + unfold look in He'. rewrite Hi in He'. congruence.
    + rewrite <- Hjh in Hjh'. apply mod_add_inj in Hjh'; lia.
Qed.

Lemma chain_holey t h d z :
  cap_ok t -> chain t -> distinct t -> 1 <= d <= len t ->
  empty_at t h -> empty_at t z -> z <> h -> holey t h d z.
Proof.
  intros Hc Hch Hd Hdr Hh Hz Hzh.
  split; [done |]. split; [by apply chain_chainx |]. done.
Qed.

(** Emptying a live slot of a well-formed table leaves one hole. *)
Lemma clear_holey t p e ez z :
  cap_ok t -> chain t -> distinct t -> 0 <= p -> get t p = Some e ->
  eh e <> 0 -> eh ez = 0 -> empty_at t z ->
  holey (store t p ez) p 1 z.
Proof.
  intros Hc Hch Hd Hp Hg Hl Hez (Hz & e0 & Hgz & Hz0).
  pose proof (cap_ok_pos t Hc) as Hlen.
  pose proof (get_Some_lt t p e Hp Hg) as Hplt.
  assert (Hzp : z <> p) by (intros ->; congruence).
  unfold holey, empty_at. rewrite len_store.
  split; [by apply cap_ok_store |]. split; [| split; [| split; [lia |]]].
  - intros p1 e1 Hp1 Hg1 Hl1. unfold reaches. rewrite len_store.
    rewrite get_store in Hg1 by lia. case_decide as Hpp; [congruence |].
    destruct (chain_walk t p1 e1 Hch Hp1 Hg1 Hl1) as (n & Hn & Hpos & Hw).
    exists n. split; [done |]. split; [done |]. intros j Hj.
    destruct (Z.eq_dec ((eh e1 mod len t + j) mod len t) p) as [Heq | Hne].
    + right. split; [done | lia].
    + left. rewrite look_store by lia. case_decide; [done |]. auto.
  - intros p1 p2 e1 e2 Hp1 Hp2 Hg1 Hg2 Hl1 Heh Hek.
    rewrite get_store in Hg1, Hg2 by lia.
    repeat case_decide; try congruence. by apply (Hd p1 p2 e1 e2).
  - split; [split; [lia |] | split; [split; [lia |] | done]].
    + exists ez. by rewrite get_store_eq by lia.
    + exists e0. rewrite get_store_ne by lia. done.
Qed.

Lemma get_store2 t i q ez e' p :
  0 <= i < len t -> 0 <= q < len t -> 0 <= p ->
  get (store (store t i ez) q e') p =
    if decide (p = q) then Some e'
    else if decide (p = i) then Some ez else get t p.
Proof.
  intros Hi Hq Hp. rewrite get_store by (rewrite ?len_store; lia).
  case_decide; [done |]. by rewrite get_store by lia.
Qed.

Lemma look_store2 t i q ez e' x :
  0 <= i < len t -> 0 <= q < len t ->
  look (store (store t i ez) q e') x =
    if decide (x mod len t = q) then Some e'
    else if decide (x mod len t = i) then Some ez else look t x.
Proof.
  intros Hi Hq. unfold look. rewrite !len_store. apply get_store2; try done.
  apply Z.mod_pos_bound. lia.
Qed.

(** One round of the repair loop: the live entry [e] of the slot it reads
    is taken out and inserted again.  It lands on the hole or back on its
    slot, and the table is again one with a single hole. *)
Lemma repair_step t h d z i e ez :
  holey t h d z -> i = (h + d) mod len t -> get t i = Some e ->
  eh e <> 0 -> eh ez = 0 ->
  exists n q, 0 <= n < len t /\ empty_at (store t i ez) q /\
    (forall fuel, probe eh ek fuel (store t i ez) (eh e) (ek e) (eh e mod len t) =
       if Z.of_nat fuel <=? n then Timeout else Ok (Free q)) /\
    (exists h' d', holey (store (store t i ez) q e) h' d' z /\
       (i + 1) mod len t = (h' + d') mod len t) /\
    (forall x, holds (store (store t i ez) q e) x <-> holds t x).
Proof.
  intros (Hc & Hch & Hd & Hdr & (Hh & eh0 & Hgh & Hzh) & (Hz & ez0 & Hgz & Hzz) & Hzh')
    Hi Hg Hl Hez.
  assert (Hgen : exists e', e' = e /\
    exists n q, 0 <= n < len t /\ empty_at (store t i ez) q /\
    (forall fuel, probe eh ek fuel (store t i ez) (eh e) (ek e) (eh e mod len t) =
       if Z.of_nat fuel <=? n then Timeout else Ok (Free q)) /\
    (exists h' d', holey (store (store t i ez) q e') h' d' z /\
       (i + 1) mod len t = (h' + d') mod len t) /\
    (forall x, holds (store (store t i ez) q e') x <-> holds t x));
    [| by destruct Hgen as (? & -> & ?)].
  exists e. split; [done |]. generalize (eq_refl e). generalize e at 1 6 7 as e'.
  intros e' Hee'. assert (Heh' : eh e' = eh e) by congruence.
  assert (Hek' : ek e' = ek e) by congruence.
  pose proof (cap_ok_pos t Hc) as Hlen.
  assert (Hir : 0 <= i < len t) by (subst i; apply Z.mod_pos_bound; lia).
  assert (Hih : i <> h) by (intros ->; congruence).
  assert (Hiz : i <> z) by (intros ->; congruence).
  destruct (Hch i e ltac:(lia) Hg Hl) as (n & Hn & Hpos & Hw).
  set (a := eh e mod len t) in *.
  set (j0 := (h - a) mod len t).
  assert (Hj0 : 0 <= j0 < len t) by (apply Z.mod_pos_bound; lia).
  assert (Hj0h : (a + j0) mod len t = h) by (apply mod_reach; lia).
  assert (Hnoi : forall j, 0 <= j < n -> (a + j) mod len t <> i).
  { intros j Hj Heq. rewrite <- Hpos in Heq. apply mod_add_inj in Heq; lia. }
  assert (Hnm : forall j e'', 0 <= j < n -> look t (a + j) = Some e'' ->
            eh e'' <> 0 -> matches e'' (eh e) (ek e) = false).
  { intros j e'' Hj He'' Hl''. apply matches_false. intros [Hh1 Hk1].
    apply (Hnoi j Hj). apply (Hd _ _ e'' e); try done; try lia.
    apply Z.mod_pos_bound. lia. }
  assert (Hholds : forall q, q = h \/ q = i ->
    forall x, holds (store (store t i ez) q e') x <-> holds t x).
  { intros q Hq x. unfold holds. split.
    - intros (p & Hp & Hgp & Hlp). rewrite get_store2 in Hgp by lia.
      repeat case_decide; [| congruence | eauto].
      exists i. split; [lia |]. split; congruence.
    - intros (p & Hp & Hgp & Hlp).
      destruct (Z.eq_dec p i) as [-> | Hpi].
      + exists q. split; [lia |]. rewrite get_store2 by lia.
        case_decide; [| done]. split; congruence.
      + exists p. split; [done |]. rewrite get_store2 by lia.
        repeat case_decide; try done.
        exfalso. destruct Hq; [| lia]. assert (x = eh0) by congruence. congruence. }
  destruct (Z.lt_ge_cases j0 n) as [HA | HB].
  - (* the walk of [e] crosses the hole: [e] moves to [h] *)
    assert (Hbefore : forall j, 0 <= j < j0 ->
              exists e'', look t (a + j) = Some e'' /\ eh e'' <> 0).
    { intros j Hj. destruct (Hw j) as [? | [Heq _]]; [lia | done |].
      rewrite <- Hj0h in Heq. apply mod_add_inj in Heq; lia. }
    exists j0, h. split; [lia |]. split.
    { split; [by rewrite len_store |]. exists eh0. by rewrite get_store_ne by lia. }
    split.
    { intros fuel.
      rewrite (probe_exact fuel (store t i ez) (eh e) (ek e) a j0 eh0);
        rewrite ?len_store; try done; try lia.
      - unfold stop_at. by rewrite Hj0h, Hzh.
      - by apply cap_ok_store.
      - apply Z.mod_pos_bound. lia.
      - intros j Hj. destruct (Hbefore j Hj) as (e'' & He'' & Hl'').
        exists e''. rewrite look_store by lia.
        case_decide as Hc1; [by apply Hnoi in Hc1; lia |].
        split; [done |]. split; [done |]. apply (Hnm j); [lia | done | done].
      - rewrite look_store by lia. case_decide; [congruence |].
        unfold look. by rewrite Hj0h. }
    split.
    + exists i, 1. split; [| done].
      unfold holey, empty_at. rewrite !len_store.
      split; [by do 2 apply cap_ok_store |].
      split; [| split; [| split; [lia |]]].
      * intros p x Hp Hgp Hlp. unfold reaches. rewrite !len_store.
        rewrite get_store2 in Hgp by lia. repeat case_decide.
        -- injection Hgp as <-. exists j0. rewrite Heh'. fold a.
           split; [done |]. split; [congruence |]. intros j Hj. left.
           destruct (Hbefore j Hj) as (e'' & He'' & Hl'').
           exists e''. rewrite look_store2 by lia.
           repeat case_decide; try done.
           ++ exfalso. assert (Hx : (a + j) mod len t = (a + j0) mod len t) by congruence.
              apply mod_add_inj in Hx; lia.
           ++ exfalso. apply (Hnoi j); [lia | done].
        -- congruence.
        -- destruct (Hch p x Hp Hgp Hlp) as (n1 & Hn1 & Hpos1 & Hw1).
           exists n1. split; [done |]. split; [done |]. intros j Hj.
           rewrite look_store2 by lia. repeat case_decide.
           ++ left. exists e'. split; [done | congruence].
           ++ right. split; [done | lia].
           ++ destruct (Hw1 j Hj) as [? | [? _]]; [by left | done].
      * intros p1 p2 e1 e2 Hp1 Hp2 Hg1 Hg2 Hl1 Heh Hek.
        rewrite get_store2 in Hg1, Hg2 by lia.
        repeat case_decide; first
          [ congruence
          | by apply (Hd p1 p2 e1 e2)
          | exfalso; assert (p2 = i)
              by (apply (Hd p2 i e2 e); try done; try lia; congruence); done
          | exfalso; assert (p1 = i)
              by (apply (Hd p1 i e1 e); try done; try lia; congruence); done ].
      * split; [split; [lia |] | split; [split; [lia |] | done]].
        -- exists ez. rewrite get_store2 by lia. repeat case_decide; done.
        -- exists ez0. rewrite get_store2 by lia. repeat case_decide; done.
    + apply Hholds. by left.
  - (* the walk of [e] does not meet the hole: [e] returns to its slot *)
    assert (Hbefore : forall j, 0 <= j < n ->
              exists e'', look t (a + j) = Some e'' /\ eh e'' <> 0).
    { intros j Hj. destruct (Hw j) as [? | [Heq _]]; [lia | done |].
      rewrite <- Hj0h in Heq. apply mod_add_inj in Heq; lia. }
    assert (Hdlt : d < len t).
    { destruct (Z.eq_dec d (len t)) as [-> |]; [| lia]. exfalso. apply Hih.
      rewrite Hi. rewrite Z.add_mod, Z_mod_same_full, Z.add_0_r, Z.mod_mod by lia.
      apply Z.mod_small. lia. }
    exists n, i. split; [lia |]. split.
    { split; [by rewrite len_store |]. exists ez. by rewrite get_store_eq by lia. }
    split.
    { intros fuel.
      rewrite (probe_exact fuel (store t i ez) (eh e) (ek e) a n ez);
        rewrite ?len_store; try done; try lia.
      - unfold stop_at. by rewrite Hpos, Hez.
      - by apply cap_ok_store.
      - apply Z.mod_pos_bound. lia.
      - intros j Hj. destruct (Hbefore j Hj) as (e'' & He'' & Hl'').
        exists e''. rewrite look_store by lia.
        case_decide as Hc1; [by apply Hnoi in Hc1; lia |].
        split; [done |]. split; [done |]. apply (Hnm j); [lia | done | done].
      - rewrite look_store by lia. case_decide; [done | congruence]. }
    split.
    + exists h, (d + 1). split.
      2:{ rewrite Hi. rewrite Zplus_mod_idemp_l. f_equal. lia. }
      unfold holey, empty_at. rewrite !len_store.
      split; [by do 2 apply cap_ok_store |].
      split; [| split; [| split; [lia |]]].
      * intros p x Hp Hgp Hlp. unfold reaches. rewrite !len_store.
        rewrite get_store2 in Hgp by lia. case_decide as Hpi.
        -- injection Hgp as <-. exists n. rewrite Heh'. fold a.
           split; [done |]. split; [congruence |]. intros j Hj. left.
           destruct (Hbefore j Hj) as (e'' & He'' & Hl'').
           exists e''. rewrite look_store2 by lia.
           case_decide; [exfalso; by apply (Hnoi j) |]. done.
        -- destruct (Hch p x Hp Hgp Hlp) as (n1 & Hn1 & Hpos1 & Hw1).
           exists n1. split; [done |]. split; [done |]. intros j Hj.
           rewrite look_store2 by lia. case_decide.
           ++ left. exists e'. split; [done | congruence].
           ++ destruct (Hw1 j Hj) as [? | [Hjh Hdn]]; [by left |].
              right. split; [done |].
              destruct (Z.eq_dec (n1 - j) d) as [Heq | Hne]; [| lia].
              exfalso. apply Hpi. rewrite <- Hpos1, Hi, <- Hjh.
              rewrite (Zplus_mod_idemp_l (eh x mod len t + j) d). f_equal. lia.
      * intros p1 p2 e1 e2 Hp1 Hp2 Hg1 Hg2 Hl1 Heh Hek.
        rewrite get_store2 in Hg1, Hg2 by lia.
        repeat case_decide; first
          [ congruence
          | by apply (Hd p1 p2 e1 e2)
          | exfalso; assert (p2 = i)
              by (apply (Hd p2 i e2 e); try done; try lia; congruence); done
          | exfalso; assert (p1 = i)
              by (apply (Hd p1 i e1 e); try done; try lia; congruence); done ].
      * split; [split; [lia |] | split; [split; [lia |] | done]].
        -- exists eh0. rewrite get_store2 by lia. repeat case_decide; done.
        -- exists ez0. rewrite get_store2 by lia. repeat case_decide; done.
    + apply Hholds. by right.
Qed.
End Engine.

(** ** Counting the live entries, and their aggregate hash *)

Section Counting.
Context {E : Type}.
Variable eh : E -> Z.
Implicit Types (t : list E) (e : E).

Definition weight e : Z := if eh e =? 0 then 0 else 1.

Fixpoint live_count t : Z :=
  match t with
  | [] => 0
  | e :: t' => weight e + live_count t'
  end.

(** The exclusive-or of the hashes of all slots; an empty slot has hash
    zero and does not contribute. *)
Fixpoint xor_all t : Z :=
  match t with
  | [] => 0
  | e :: t' => Z.lxor (eh e) (xor_all t')
  end.

Lemma weight_range e : 0 <= weight e <= 1.
Proof. unfold weight. destruct (eh e =? 0); lia. Qed.

Lemma weight_live e : eh e <> 0 -> weight e = 1.
Proof. unfold weight. by destruct (Z.eqb_spec (eh e) 0). Qed.

Lemma weight_empty e : eh e = 0 -> weight e = 0.
Proof. unfold weight. by destruct (Z.eqb_spec (eh e) 0). Qed.

Lemma live_count_range t : 0 <= live_count t <= len t.
Proof.
  unfold len. induction t as [| e t IH]; simpl length; cbn [live_count]; [lia |].
  pose proof (weight_range e). lia.
Qed.

Lemma live_count_replicate n e : eh e = 0 -> live_count (replicate n e) = 0.
Proof.
  intros He. induction n as [| n IH]; cbn [replicate live_count]; [done |].
  rewrite IH, weight_empty by done. lia.
Qed.

Lemma xor_all_replicate n e : eh e = 0 -> xor_all (replicate n e) = 0.
Proof.
  intros He. induction n as [| n IH]; cbn [replicate xor_all]; [done |].
  by rewrite IH, He.
Qed.

Lemma live_count_store t p e0 e :
  get t p = Some e0 ->
  live_count (store t p e) = live_count t - weight e0 + weight e.
Proof.
  unfold get, store. generalize (Z.to_nat p) as i.
  induction t as [| e1 t IH]; intros [| i] Hg; simpl in Hg; try done.
  - injection Hg as ->. cbn [live_count insert list_insert]. lia.
  - cbn [live_count]. change (<[S i:=e]> (e1 :: t)) with (e1 :: <[i:=e]> t).
    cbn [live_count]. rewrite (IH i Hg). lia.
Qed.

Lemma xor_all_store t p e0 e :
  get t p = Some e0 ->
  xor_all (store t p e) = Z.lxor (Z.lxor (xor_all t) (eh e0)) (eh e).
Proof.
  unfold get, store. generalize (Z.to_nat p) as i.
  induction t as [| e1 t IH]; intros [| i] Hg; simpl in Hg; try done.
  - injection Hg as ->. cbn [xor_all insert list_insert].
    rewrite (Z.lxor_comm (eh e0) (xor_all t)), (Z.lxor_assoc (xor_all t)).
    rewrite Z.lxor_nilpotent, Z.lxor_0_r. apply Z.lxor_comm.
  - change (<[S i:=e]> (e1 :: t)) with (e1 :: <[i:=e]> t).
    cbn [xor_all]. rewrite (IH i Hg). by rewrite !Z.lxor_assoc.
Qed.

Lemma exists_empty t :
  live_count t < len t -> exists z, empty_at eh t z.
Proof.
  unfold empty_at, get, len.
  induction t as [| e t IH]; cbn [live_count length]; [lia |].
  intros Hlt. destruct (Z.eq_dec (eh e) 0) as [Hz | Hnz].
  - exists 0. split; [lia |]. exists e. done.
  - rewrite weight_live in Hlt by done.
    destruct IH as (z & Hz & e0 & Hg & Hz0); [lia |].
    exists (z + 1). split; [lia |]. exists e0. split; [| done].
    replace (Z.to_nat (z + 1)) with (S (Z.to_nat z)) by lia. done.
Qed.

Lemma exists_empty_other t h :
  live_count t + 2 <= len t -> exists z, empty_at eh t z /\ z <> h.
Proof.
  unfold empty_at, get, len. revert h.
  induction t as [| e t IH]; intros h; cbn [live_count length]; [lia |].
  intros Hlt. destruct (Z.eq_dec (eh e) 0) as [Hz | Hnz].
  - destruct (Z.eq_dec h 0) as [-> | Hh].
    + rewrite weight_empty in Hlt by done.
      destruct (exists_empty t) as (z & Hz' & e0 & Hg & Hz0); [unfold len; lia |].
      unfold len in Hz'.
      exists (z + 1). split; [| lia]. split; [lia |]. exists e0. split; [| done].
      replace (Z.to_nat (z + 1)) with (S (Z.to_nat z)) by lia. done.
    + exists 0. split; [| lia]. split; [lia |]. exists e. done.
  - rewrite weight_live in Hlt by done.
    destruct (IH (h - 1)) as (z & (Hz & e0 & Hg & Hz0) & Hne); [lia |].
    exists (z + 1). split; [| lia]. split; [lia |]. exists e0. split; [| done].
    replace (Z.to_nat (z + 1)) with (S (Z.to_nat z)) by lia. done.
Qed.

End Counting.

(** ** The old slice that [resize] ranges over, and the fresh one *)

Section Ranging.
Context {K : Type} {cmp : Comparable K} {laws : ComparableLaws K} {E : Type}.
Variable eh : E -> Z.
Variable ek : E -> K.
Implicit Types (t : list E) (e : E).

Lemma get_cons_succ e t p : 0 <= p -> get (e :: t) (p + 1) = get t p.
Proof.
  intros Hp. unfold get. by replace (Z.to_nat (p + 1)) with (S (Z.to_nat p)) by lia.
Qed.

Lemma get_cons e t p :
  0 <= p -> get (e :: t) p = if decide (p = 0) then Some e else get t (p - 1).
Proof.
  intros Hp. case_decide as Hd; [by subst |].
  replace p with (p - 1 + 1) at 1 by lia. apply get_cons_succ. lia.
Qed.

Lemma holds_nil x : ~ holds eh [] x.
Proof. by intros (p & _ & Hg & _). Qed.

Lemma holds_cons e t x :
  holds eh (e :: t) x <-> (x = e /\ eh e <> 0) \/ holds eh t x.
Proof.
  unfold holds. split.
  - intros (p & Hp & Hg & Hl). rewrite get_cons in Hg by done.
    case_decide; [left; split; congruence |].
    right. exists (p - 1). split; [lia | done].
  - intros [[-> Hl] | (p & Hp & Hg & Hl)].
    + exists 0. done.
    + exists (p + 1). split; [lia |]. by rewrite get_cons_succ.
Qed.

Lemma distinct_cons e t :
  distinct eh ek (e :: t) ->
  distinct eh ek t /\ (eh e <> 0 -> ~ has_key eh ek t (eh e) (ek e)).
Proof.
  intros Hd. split.
  - intros p q e1 e2 Hp Hq Hg1 Hg2 Hl Hh Hk.
    assert (p + 1 = q + 1); [| lia].
    apply (Hd (p + 1) (q + 1) e1 e2); try lia; try done; by rewrite get_cons_succ.
  - intros Hl (x & (p & Hp & Hg & Hlx) & Hh & Hk).
    assert (0 = p + 1); [| lia].
    apply (Hd 0 (p + 1) e x); try lia; try done; by rewrite ?get_cons_succ.
Qed.

Lemma live_count_holds t x : holds eh t x -> 0 < live_count eh t.
Proof.
  intros (p & Hp & Hg & Hl). unfold get in Hg. revert Hg.
  generalize (Z.to_nat p) as i. induction t as [| e t IH]; intros [| i] Hg;
    simpl in Hg; try done; cbn [live_count].
  - injection Hg as ->. rewrite weight_live by done.
    pose proof (live_count_range eh t). lia.
  - pose proof (weight_range eh e). specialize (IH i Hg). lia.
Qed.

(** The slice [make] returns holds no entry. *)
Lemma get_replicate n ez p e :
  get (replicate n ez) p = Some e -> e = ez.
Proof. unfold get. intros Hg. by apply lookup_replicate in Hg as [-> _]. Qed.

Lemma len_replicate n (ez : E) : len (replicate n ez) = Z.of_nat n.
Proof. unfold len. by rewrite length_replicate. Qed.

Lemma holds_replicate n ez x : eh ez = 0 -> ~ holds eh (replicate n ez) x.
Proof.
  intros Hz (p & _ & Hg & Hl). apply get_replicate in Hg. congruence.
Qed.

Lemma chain_replicate n ez : eh ez = 0 -> chain eh (replicate n ez).
Proof. intros Hz p e _ Hg Hl. apply get_replicate in Hg. congruence. Qed.

Lemma distinct_replicate n ez : eh ez = 0 -> distinct eh ek (replicate n ez).
Proof.
  intros Hz p q e e' _ _ Hg _ Hl. apply get_replicate in Hg. congruence.
Qed.

End Ranging.

(** ** Outcomes within a budget *)

(** [r] is the result [a], unless the fuel was below [bound]. *)
Definition settles {A : Type} (r : result A) (fuel : nat) (bound : Z) (a : A)
    : Prop :=
  r = Ok a \/ (r = Timeout /\ Z.of_nat fuel < bound).

Ltac dlia := Z.div_mod_to_equations; lia.

Lemma settles_Ok {A : Type} (r : result A) fuel bound a :
  settles r fuel bound a -> bound <= Z.of_nat fuel -> r = Ok a.
Proof. intros [? | [_ ?]] ?; [done | lia]. Qed.

Lemma settles_inv {A : Type} (r : result A) fuel bound a b :
  settles r fuel bound a -> r = Ok b -> b = a.
Proof. intros [? | [? _]] ?; congruence. Qed.

Lemma settles_weaken {A : Type} (r : result A) fuel bound bound' a :
  settles r fuel bound a -> bound <= bound' -> settles r fuel bound' a.
Proof. intros [? | [? ?]] ?; [by left | right; split; [done | lia]]. Qed.

Lemma settles_if {A : Type} fuel n bound (a : A) :
  n < bound ->
  settles (if Z.of_nat fuel <=? n then Timeout else Ok a) fuel bound a.
Proof.
  intros Hn. destruct (Z.leb_spec (Z.of_nat fuel) n); [right | left]; [split |]; [done | lia | done].
Qed.

(** The tagged hash of a key: [key.Hash() | fullBit]. *)
Definition tag {K : Type} `{Comparable K} (k : K) : Z := Z.lor (Hash k) fullBit.

Lemma tag_nonzero {K : Type} `{Comparable K} (k : K) : tag k <> 0.
Proof.
  unfold tag. intros Hz. apply Z.lor_eq_0_iff in Hz as [_ Hz]. discriminate Hz.
Qed.

Lemma make_Ok `{Runtime} {E : Type} `{Zero E} (cap : Z) :
  0 <= cap <= maxAlloc -> make cap = Ok (replicate (Z.to_nat cap) (zero : E)).
Proof.
  intros Hc. unfold make.
  destruct (Z.leb_spec 0 cap), (Z.leb_spec cap maxAlloc); done || lia.
Qed.

Lemma make_Panic `{Runtime} {E : Type} `{Zero E} (cap : Z) :
  maxAlloc < cap -> make (E := E) cap = Panic.
Proof.
  intros Hc. unfold make.
  destruct (Z.leb_spec 0 cap), (Z.leb_spec cap maxAlloc); done || lia.
Qed.

Lemma cap_ok_double {E : Type} (t t' : list E) :
  cap_ok t -> len t' = 2 * len t -> len t' < 2 ^ 61 -> cap_ok t'.
Proof.
  intros (k & Hk & Hl) Hl' Hlt. exists (k + 1).
  assert (Hp : 2 ^ (k + 1) = 2 * 2 ^ k).
  { replace (k + 1) with (Z.succ k) by lia. rewrite Z.pow_succ_r; lia. }
  split; [| lia].
  destruct (Z.eq_dec k 61) as [-> |]; [| lia]. lia.
Qed.

Lemma cap_ok_half {E : Type} (t t' : list E) :
  cap_ok t -> 1 < len t -> len t' = len t / 2 -> cap_ok t'.
Proof.
  intros (k & Hk & Hl) Hlt Hl'. exists (k - 1).
  assert (k <> 0) by (intros ->; rewrite Hl in Hlt; simpl in Hlt; lia).
  assert (Hp : 2 ^ k = 2 * 2 ^ (k - 1)).
  { replace k with (Z.succ (k - 1)) at 1 by lia. rewrite Z.pow_succ_r; lia. }
  split; [lia |]. rewrite Hl', Hl, Hp. dlia.
Qed.

Lemma cap_ok_16 {E : Type} (t : list E) : len t = 16 -> cap_ok t.
Proof. intros Hl. exists 4. split; [lia | done]. Qed.

(** A capacity of 16 or more is a multiple of 16. *)
Lemma cap_ok_div16 {E : Type} (t : list E) :
  cap_ok t -> 16 <= len t -> exists c, len t = 16 * c /\ 1 <= c.
Proof.
  intros (k & Hk & Hl) Hge. rewrite Hl in *.
  assert (4 <= k).
  { destruct (Z.le_gt_cases 4 k); [done |].
    assert (2 ^ k <= 2 ^ 3) by (apply Z.pow_le_mono_r; lia). simpl in *. lia. }
  exists (2 ^ (k - 4)). replace k with (4 + (k - 4)) at 1 by lia.
  rewrite Z.pow_add_r by lia. split; [done |].
  pose proof (Z.pow_pos_nonneg 2 (k - 4)). lia.
Qed.

(** ** [Map]: insertion and rebuilding *)

Section MapTheory.
Context {rt : Runtime} {rtl : RuntimeLaws}.
Context {K : Type} {cmp : Comparable K} {laws : ComparableLaws K} {zk : Zero K}.
Context {V : Type} {zv : Zero V}.
Implicit Types (m : Map K V) (t : list (mapEntry K V)) (e x : mapEntry K V).
Implicit Types (k : K) (v : V) (h : Z).

Lemma mapEntry_eta e : {| hash1 := hash1 e; key := key e; value := value e |} = e.
Proof. by destruct e. Qed.

Lemma mapEntry_zero_empty : hash1 (zero : mapEntry K V) = 0.
Proof. reflexivity. Qed.

(** Every live entry carries the tagged hash of its key. *)
Definition tagged t : Prop := forall x, holds hash1 t x -> hash1 x = tag (key x).

Definition table_ok t : Prop :=
  cap_ok t /\ chain hash1 t /\ distinct hash1 key t /\ tagged t.

(** *** What [putHash1] does, from what its loop reports *)

Lemma putHash1_hit m h k v n p e :
  cap_ok (entries m) -> 0 <= n ->
  (forall fuel, probe hash1 key fuel (entries m) h k (h mod len (entries m)) =
     if Z.of_nat fuel <=? n then Timeout else Ok (Hit p e)) ->
  forall fuel, Map_putHash1 fuel m h k v =
    if Z.of_nat fuel <=? n then Timeout else Ok m.
Proof.
  intros Hc Hn Hp [| f].
  - cbn [Map_putHash1]. destruct (Z.leb_spec (Z.of_nat 0) n); [done | lia].
  - cbn [Map_putHash1]. rewrite home_eq by done. rewrite Hp.
    by destruct (Z.of_nat (S f) <=? n).
Qed.

Lemma putHash1_free m h k v n q :
  cap_ok (entries m) -> 0 <= n ->
  (forall fuel, probe hash1 key fuel (entries m) h k (h mod len (entries m)) =
     if Z.of_nat fuel <=? n then Timeout else Ok (Free q)) ->
  size m + 1 <= 3 * len (entries m) / 4 ->
  forall fuel, Map_putHash1 fuel m h k v =
    if Z.of_nat fuel <=? n then Timeout
    else Ok {| entries := store (entries m) q {| hash1 := h; key := k; value := v |};
               size := size m + 1 |}.
Proof.
  intros Hc Hn Hp Hsz [| f].
  - cbn [Map_putHash1]. destruct (Z.leb_spec (Z.of_nat 0) n); [done | lia].
  - cbn [Map_putHash1]. rewrite home_eq by done. rewrite Hp.
    destruct (Z.of_nat (S f) <=? n); [done |]. cbn [bind size entries].
    rewrite len_store.
    destruct (Z.gtb_spec (size m + 1) (3 * len (entries m) / 4)); [lia | done].
Qed.

Lemma putHash1_grow m h k v n q :
  cap_ok (entries m) -> 0 <= n ->
  (forall fuel, probe hash1 key fuel (entries m) h k (h mod len (entries m)) =
     if Z.of_nat fuel <=? n then Timeout else Ok (Free q)) ->
  size m + 1 > 3 * len (entries m) / 4 ->
  forall f, Map_putHash1 (S f) m h k v =
    if Z.of_nat (S f) <=? n then Timeout
    else Map_resize f
           {| entries := store (entries m) q {| hash1 := h; key := k; value := v |};
              size := size m + 1 |}
           (len (entries m) * 2).
Proof.
  intros Hc Hn Hp Hsz f.
  cbn [Map_putHash1]. rewrite home_eq by done. rewrite Hp.
  destruct (Z.of_nat (S f) <=? n); [done |]. cbn [bind size entries].
  rewrite len_store.
  destruct (Z.gtb_spec (size m + 1) (3 * len (entries m) / 4)); [done | lia].
Qed.

(** *** Inserting a key the table does not hold *)

(** The loop reports an empty slot, and the table with the new entry
    written there is well formed. *)
Lemma fresh_store t k v :
  table_ok t -> live_count hash1 t < len t ->
  ~ has_key hash1 key t (tag k) k ->
  exists n q, 0 <= n < len t /\
    (forall fuel, probe hash1 key fuel t (tag k) k (tag k mod len t) =
       if Z.of_nat fuel <=? n then Timeout else Ok (Free q)) /\
    let t' := store t q {| hash1 := tag k; key := k; value := v |} in
    table_ok t' /\ live_count hash1 t' = live_count hash1 t + 1 /\
    (forall x, holds hash1 t' x <->
       holds hash1 t x \/ x = {| hash1 := tag k; key := k; value := v |}).
Proof.
  intros (Hc & Hch & Hd & Ht) Hlc Habs.
  pose proof (cap_ok_pos _ Hc) as Hlen.
  destruct (probe_any hash1 key t (tag k) k Hc Hch Hd)
    as (n & r & Hn & Hp & Hr).
  { by apply exists_empty. }
  destruct r as [p e | q].
  { exfalso. apply Habs. destruct Hr as (Hp0 & Hg & Hl & Hh & Hk).
    exists e. split; [exists p; auto | auto]. }
  destruct Hr as (Hq & Hqn & _ & Hw).
  set (e' := {| hash1 := tag k; key := k; value := v |}).
  pose proof (tag_nonzero k) as Htag.
  destruct (insert_ok hash1 key t (tag k) k q n e') as [Hch' Hd'];
    try done.
  assert (Hholds : forall x, holds hash1 (store t q e') x <->
            holds hash1 t x \/ x = e').
  { intros x. by apply holds_store. }
  exists n, q. cbv zeta. split; [done |]. split; [done |].
  split; [| split; [| done]].
  - split; [by apply cap_ok_store |]. split; [done |]. split; [done |].
    intros x Hx. apply Hholds in Hx as [Hx | ->]; [by apply Ht | done].
  - destruct Hq as (_ & e0 & Hg0 & Hz0).
    rewrite (live_count_store hash1 _ q e0 e') by done.
    rewrite weight_empty, weight_live by done. lia.
Qed.

Lemma put_fresh m k v :
  table_ok (entries m) -> size m = live_count hash1 (entries m) ->
  ~ has_key hash1 key (entries m) (tag k) k ->
  4 * (size m + 1) <= 3 * len (entries m) ->
  exists q,
    let m' := {| entries := store (entries m) q
                   {| hash1 := tag k; key := k; value := v |};
                 size := size m + 1 |} in
    (forall fuel, settles (Map_putHash1 fuel m (tag k) k v) fuel
                    (len (entries m)) m') /\
    table_ok (entries m') /\ size m' = live_count hash1 (entries m') /\
    (forall x, holds hash1 (entries m') x <->
       holds hash1 (entries m) x \/ x = {| hash1 := tag k; key := k; value := v |}).
Proof.
  intros Hok Hsz Habs Hload.
  pose proof (live_count_range hash1 (entries m)) as Hlc.
  destruct (fresh_store (entries m) k v) as (n & q & Hn & Hp & Hok' & Hlc' & Hh');
    try done; try lia.
  cbv zeta in Hok', Hlc', Hh'.
  exists q. cbv zeta. cbn [entries size]. split; [| split; [done |]; split; [lia | done]].
  intros fuel. destruct Hok as (Hc & _).
  rewrite (putHash1_free m (tag k) k v n q) by (done || lia || dlia).
  apply settles_if. lia.
Qed.

(** *** The loop of [resize] *)

Lemma reinsert_ok old : forall m,
  table_ok (entries m) -> size m = live_count hash1 (entries m) ->
  distinct hash1 key old -> tagged old ->
  (forall x, holds hash1 old x ->
     ~ has_key hash1 key (entries m) (hash1 x) (key x)) ->
  4 * (size m + live_count hash1 old) <= 3 * len (entries m) ->
  exists m',
    (forall fuel, settles (Map_reinsert (Map_putHash1 fuel) old m) fuel
                    (len (entries m)) m') /\
    table_ok (entries m') /\ len (entries m') = len (entries m) /\
    size m' = size m + live_count hash1 old /\
    size m' = live_count hash1 (entries m') /\
    (forall x, holds hash1 (entries m') x <->
       holds hash1 (entries m) x \/ holds hash1 old x).
Proof.
  induction old as [| e old IH]; intros m Hok Hsz Hd Ht Habs Hload.
  - exists m. cbn [Map_reinsert live_count]. split; [by left |].
    split; [done |]. split; [done |]. split; [lia |]. split; [done |].
    intros x. split; [by left |]. intros [? | Hx]; [done |].
    by apply holds_nil in Hx.
  - apply distinct_cons in Hd as [Hd He].
    assert (Ht' : tagged old).
    { intros x Hx. apply Ht. apply holds_cons. by right. }
    cbn [Map_reinsert live_count] in *.
    destruct (Z.eqb_spec (hash1 e) 0) as [Hz | Hnz].
    + rewrite weight_empty in Hload by done.
      destruct (IH m) as (m' & Hrun & Hok' & Hlen' & Hsz' & Hlc' & Hholds');
        try done; try lia.
      { intros x Hx. apply Habs. apply holds_cons. by right. }
      exists m'. rewrite weight_empty by done.
      split; [done |]. split; [done |]. split; [done |]. split; [lia |].
      split; [done |]. intros x. rewrite Hholds', holds_cons. intuition congruence.
    + rewrite weight_live in Hload by done.
      pose proof (live_count_range hash1 old) as Hlo.
      assert (Hte : hash1 e = tag (key e)).
      { apply Ht. apply holds_cons. by left. }
      destruct (put_fresh m (key e) (value e)) as (q & Hput & Hok1 & Hsz1 & Hh1);
        try done; try lia.
      { rewrite <- Hte. apply Habs. apply holds_cons. by left. }
      cbv zeta in Hput, Hok1, Hsz1, Hh1. cbn [entries size] in Hok1, Hsz1, Hh1.
      rewrite <- Hte, mapEntry_eta in *.
      set (m1 := {| entries := store (entries m) q e; size := size m + 1 |}) in *.
      destruct (IH m1) as (m' & Hrun & Hok' & Hlen' & Hsz' & Hlc' & Hholds');
        try done.
      { intros x Hx (y & Hy & Hyh & Hyk). apply Hh1 in Hy as [Hy | ->].
        - apply (Habs x); [apply holds_cons; by right |]. by exists y.
        - apply He; [done |]. exists x. done. }
      { unfold m1. cbn [entries size]. rewrite len_store. lia. }
      unfold m1 in Hlen', Hsz', Hholds'.
      cbn [entries size] in Hlen', Hsz', Hholds'. rewrite len_store in Hlen'.
      exists m'. rewrite weight_live by done.
      split; [| split; [done |]; split; [done |]; split; [lia |]; split; [done |]].
      * intros fuel. destruct (Hput fuel) as [-> | [-> Hlt]].
        -- cbn [bind]. eapply settles_weaken; [apply Hrun |].
           unfold m1. cbn [entries]. rewrite len_store. lia.
        -- right. done.
      * intros x. rewrite Hholds', Hh1, holds_cons. intuition congruence.
Qed.

Lemma resize_ok m (cap : Z) :
  distinct hash1 key (entries m) -> tagged (entries m) ->
  (exists b : Z, 0 <= b <= 61 /\ cap = 2 ^ b) -> cap <= maxAlloc ->
  4 * live_count hash1 (entries m) <= 3 * cap ->
  exists m',
    (forall fuel, settles (Map_resize fuel m cap) fuel cap m') /\
    table_ok (entries m') /\ len (entries m') = cap /\
    size m' = live_count hash1 (entries m) /\
    size m' = live_count hash1 (entries m') /\
    (forall x, holds hash1 (entries m') x <-> holds hash1 (entries m) x).
Proof.
  intros Hd Ht (b & Hb & Hcap) Hmax Hload.
  assert (Hpos : 0 < cap) by (subst cap; apply Z.pow_pos_nonneg; lia).
  set (m0 := {| entries := replicate (Z.to_nat cap) (zero : mapEntry K V);
                size := 0 |}).
  assert (Hlen0 : len (entries m0) = cap).
  { cbn [entries m0]. rewrite len_replicate. lia. }
  destruct (reinsert_ok (entries m) m0)
    as (m' & Hrun & Hok' & Hlen' & Hsz' & Hlc' & Hholds'); try done.
  - split; [exists b; by rewrite Hlen0 |].
    split; [by apply chain_replicate |]. split; [by apply distinct_replicate |].
    intros x Hx. by apply holds_replicate in Hx.
  - cbn [entries size m0]. by rewrite live_count_replicate.
  - intros x _ (y & Hy & _). by apply holds_replicate in Hy.
  - rewrite Hlen0. cbn [size m0]. lia.
  - exists m'. rewrite Hlen0 in *. cbn [size m0] in Hsz'.
    split; [| split; [done |]; split; [done |]; split; [lia |]; split; [done |]].
    + intros fuel. unfold Map_resize, Map_resize_with.
      rewrite make_Ok by lia. cbn [bind]. apply Hrun.
    + intros x. rewrite Hholds'. split; [| by right].
      intros [Hx | ?]; [| done]. by apply holds_replicate in Hx.
Qed.

End MapTheory.

(** ** [Map]: the states the program reaches *)

Section MapStates.
Context {rt : Runtime} {rtl : RuntimeLaws}.
Context {K : Type} {cmp : Comparable K} {laws : ComparableLaws K} {zk : Zero K}.
Context {V : Type} {zv : Zero V}.
Implicit Types (m : Map K V) (t : list (mapEntry K V)) (e x : mapEntry K V).
Implicit Types (k : K) (v : V) (h : Z).

(** A map with a backing array. *)
Definition Map_table_wf m : Prop :=
  table_ok (entries m) /\
  16 <= len (entries m) <= maxAlloc /\
  size m = live_count hash1 (entries m) /\
  4 * size m <= 3 * len (entries m) /\
  (len (entries m) = 16 \/ len (entries m) <= 4 * size m).

(** The zero value, or a map with a backing array. *)
Definition Map_wf m : Prop :=
  (entries m = [] /\ size m = 0) \/ Map_table_wf m.

Lemma Map_table_wf_room m :
  Map_table_wf m -> live_count hash1 (entries m) + 4 <= len (entries m).
Proof. intros (_ & ? & ? & ? & _). lia. Qed.

Lemma putHash1_wf m k v fuel :
  Map_table_wf m ->
  match Map_putHash1 fuel m (tag k) k v with
  | Ok m' =>
      Map_table_wf m' /\
      (forall x, holds hash1 (entries m') x <->
         holds hash1 (entries m) x \/
         (~ has_key hash1 key (entries m) (tag k) k /\
          x = {| hash1 := tag k; key := k; value := v |})) /\
      (has_key hash1 key (entries m) (tag k) k -> m' = m) /\
      has_key hash1 key (entries m') (tag k) k /\
      (~ has_key hash1 key (entries m) (tag k) k -> size m' = size m + 1) /\
      (len (entries m') = len (entries m) \/
       (len (entries m') = 2 * len (entries m) /\
        3 * len (entries m) < 4 * (size m + 1)))
  | Panic =>
      maxAlloc < 2 * len (entries m) /\ 3 * len (entries m) < 4 * (size m + 1) /\
      ~ has_key hash1 key (entries m) (tag k) k
  | Timeout => Z.of_nat fuel <= 2 * len (entries m)
  end.
Proof.
  assert (Hnew : forall t, holds hash1 t {| hash1 := tag k; key := k; value := v |} ->
            has_key hash1 key t (tag k) k).
  { intros t Hx. exists {| hash1 := tag k; key := k; value := v |}. done. }
  intros Hwf. pose proof (Map_table_wf_room m Hwf) as Hroom.
  destruct Hwf as (Hok & Hcap & Hsz & Hload & Hlow).
  pose proof Hok as (Hc & Hch & Hd & Ht).
  pose proof (maxAlloc_range) as Hmax.
  destruct (probe_any hash1 key (entries m) (tag k) k Hc Hch Hd)
    as (n & r & Hn & Hp & Hr).
  { apply exists_empty. lia. }
  destruct r as [p e | q].
  - rewrite (putHash1_hit m (tag k) k v n p e) by (done || lia).
    destruct (Z.leb_spec (Z.of_nat fuel) n); [lia |].
    assert (Hhas : has_key hash1 key (entries m) (tag k) k).
    { destruct Hr as (Hp0 & Hg & Hl & Hh & Hk).
      exists e. split; [exists p; auto | auto]. }
    split; [done |]. split; [| split; [done |]; split; [done |]; split; [done | by left]].
    intros x. split; [by left |]. intros [? | [? _]]; done.
  - destruct Hr as (Hq & Hqn & Habs & Hw).
    destruct (Z_le_gt_dec (4 * (size m + 1)) (3 * len (entries m))) as [Hfit | Hgrow].
    + destruct (put_fresh m k v) as (q' & Hput & Hok1 & Hsz1 & Hh1); try done.
      cbv zeta in Hput, Hok1, Hsz1, Hh1. cbn [entries size] in Hok1, Hsz1, Hh1.
      destruct (Hput fuel) as [-> | [-> Hlt]]; [| lia].
      split; [| split; [| split; [done |]; split; [| split; [done |]]]].
      * split; [done |]. cbn [entries size]. rewrite len_store.
        split; [done |]. split; [done |]. split; lia.
      * cbn [entries]. intros x. rewrite Hh1. tauto.
      * cbn [entries]. apply Hnew, Hh1. by right.
      * left. cbn [entries]. by rewrite len_store.
    + destruct fuel as [| f]; [cbn [Map_putHash1]; lia |].
      rewrite (putHash1_grow m (tag k) k v n q) by (done || lia || dlia).
      destruct (Z.leb_spec (Z.of_nat (S f)) n); [lia |].
      destruct (fresh_store (entries m) k v)
        as (n' & q' & Hn' & Hp' & Hok' & Hlc' & Hh'); try done; try lia.
      assert (q' = q) as ->.
      { pose proof (Hp (Z.to_nat (Z.max n n') + 1)%nat) as Ha.
        pose proof (Hp' (Z.to_nat (Z.max n n') + 1)%nat) as Hb.
        rewrite Ha in Hb.
        destruct (Z.leb_spec (Z.of_nat (Z.to_nat (Z.max n n') + 1)) n);
          [lia |].
        destruct (Z.leb_spec (Z.of_nat (Z.to_nat (Z.max n n') + 1)) n');
          [lia |]. congruence. }
      cbv zeta in Hok', Hlc', Hh'.
      set (m1 := {| entries := store (entries m) q
                      {| hash1 := tag k; key := k; value := v |};
                    size := size m + 1 |}).
      destruct (Z_le_gt_dec (len (entries m) * 2) maxAlloc) as [Halloc | Halloc].
      * destruct Hok' as (Hc' & Hch' & Hd' & Ht').
        destruct (resize_ok m1 (len (entries m) * 2))
          as (m' & Hrun & Hokm & Hlenm & Hszm & Hlcm & Hhm); try done.
        { destruct Hc as (b & Hb & Hlb). exists (b + 1).
          assert (Hpw : 2 ^ (b + 1) = 2 * 2 ^ b).
          { replace (b + 1) with (Z.succ b) by lia. rewrite Z.pow_succ_r; lia. }
          split; [| lia]. destruct (Z.eq_dec b 61) as [-> |]; [| lia]. lia. }
        { unfold m1. cbn [entries]. lia. }
        destruct (Hrun f) as [-> | [-> Hlt]]; [| lia].
        unfold m1 in Hszm, Hhm. cbn [entries] in Hszm, Hhm.
        split; [| split; [| split; [done |]; split; [| split]]].
        -- split; [done |]. split; [lia |]. split; [done |]. split; lia.
        -- intros x. rewrite Hhm, Hh'. tauto.
        -- apply Hnew, Hhm, Hh'. by right.
        -- intros _. lia.
        -- right. lia.
      * unfold Map_resize, Map_resize_with. rewrite make_Panic by lia.
        cbn [bind]. split; [lia |]. split; [lia | done].
Qed.


(** *** The repair loop of [Remove] *)

Lemma mod_zero_eq (c i z : Z) :
  0 < c -> 0 <= i < c -> 0 <= z < c -> (z - i) mod c = 0 -> z = i.
Proof.
  intros Hc Hi Hz H0. pose proof (mod_reach c i z Hc Hz) as Hr.
  rewrite H0, Z.add_0_r, Z.mod_small in Hr by lia. lia.
Qed.

Lemma mod_pred_step (c i z r : Z) :
  0 < c -> (z - i) mod c = r + 1 -> 0 <= r ->
  (z - (i + 1) mod c) mod c = r.
Proof.
  intros Hc Hr Hr0. rewrite Zminus_mod_idemp_r.
  replace (z - (i + 1)) with ((z - i) - 1) by lia.
  rewrite <- Zminus_mod_idemp_l, Hr.
  replace (r + 1 - 1) with r by lia. apply Z.mod_small.
  pose proof (Z.mod_pos_bound (z - i) c Hc). lia.
Qed.

Lemma repair_ok (r : nat) : forall m h d z i (n0 : nat),
  holey hash1 key (entries m) h d z -> tagged (entries m) ->
  i = (h + d) mod len (entries m) ->
  (z - i) mod len (entries m) = Z.of_nat r ->
  size m = live_count hash1 (entries m) ->
  4 * size m <= 3 * len (entries m) ->
  exists m' n',
    (forall fuel, settles (Map_repair fuel m i n0) fuel
                    (Z.of_nat r + len (entries m) + 1) (m', n')) /\
    table_ok (entries m') /\ len (entries m') = len (entries m) /\
    size m' = size m /\ size m' = live_count hash1 (entries m') /\
    (forall x, holds hash1 (entries m') x <-> holds hash1 (entries m) x).
Proof.
  induction r as [| r IH]; intros m h d z i n0 Hho Ht Hi Hr Hsz Hload;
    pose proof Hho as (Hc & Hch & Hd & Hdr & Hh & Hz & Hzh);
    pose proof (cap_ok_pos _ Hc) as Hlen;
    assert (Hir : 0 <= i < len (entries m)) by (subst i; apply Z.mod_pos_bound; lia);
    destruct (get_lt_Some (entries m) i Hir) as [e Hg];
    destruct (Z.eq_dec (hash1 e) 0) as [Hz0 | Hl].
  1, 3: (* the slot read is empty: the loop is over *)
    exists m, n0; (split; [| split; [| done]]);
    [ intros [| f]; [right; split; [done | lia] | left];
      cbn [Map_repair]; rewrite at_index_get, Hg; cbn [bind];
      by destruct (Z.eqb_spec (hash1 e) 0)
    | split; [done |]; split; [| done];
      apply (holey_exit hash1 key (entries m) h d z e); congruence ].
  - (* a live slot, yet the loop stands on the empty slot [z] *)
    exfalso. destruct Hz as (Hzr & ez & Hgz & Hez).
    assert (z = i) by (apply (mod_zero_eq (len (entries m))); lia).
    congruence.
  - destruct (repair_step hash1 key (entries m) h d z i e zero Hho Hi Hg Hl mapEntry_zero_empty)
      as (n & q & Hn & Hq & Hp & (h' & d' & Hho' & Hnext) & Hholds).
    set (m1 := {| entries := store (entries m) i zero; size := size m - 1 |}).
    set (m2 := {| entries := store (store (entries m) i zero) q e;
                  size := size m - 1 + 1 |}).
    assert (Hput : forall fuel,
      Map_putHash1 fuel m1 (hash1 e) (key e) (value e) =
        if Z.of_nat fuel <=? n then Timeout else Ok m2).
    { intros fuel.
      rewrite (putHash1_free m1 (hash1 e) (key e) (value e) n q);
        unfold m1; cbn [entries size]; rewrite ?len_store; try done; try lia.
      - by rewrite mapEntry_eta.
      - by apply cap_ok_store.
      - dlia. }
    pose proof Hho' as (Hc2 & _).
    assert (Hlen2 : len (entries m2) = len (entries m)).
    { unfold m2. cbn [entries]. by rewrite !len_store. }
    assert (Hlc2 : live_count hash1 (entries m2) = live_count hash1 (entries m)).
    { unfold m2. cbn [entries]. destruct Hq as (_ & e0 & Hg0 & Hz0).
      rewrite (live_count_store hash1 _ q e0 e) by done.
      rewrite (live_count_store hash1 _ i e zero) by done.
      rewrite (weight_empty hash1 e0), (weight_empty hash1 zero) by done.
      lia. }
    destruct (IH m2 h' d' z ((i + 1) mod len (entries m)) (S n0))
      as (m' & n' & Hrun & Hok' & Hlen' & Hsz' & Hlc' & Hh'); try done.
    { intros x Hx. apply Ht. by apply Hholds. }
    { by rewrite Hlen2. }
    { rewrite Hlen2. apply mod_pred_step; lia. }
    { unfold m2 at 1. cbn [size]. lia. }
    { rewrite Hlen2. unfold m2. cbn [size]. lia. }
    exists m', n'. rewrite Hlen2 in *.
    split; [| split; [done |]; split; [done |]; split; [| split; [done |]]].
    + intros [| f]; [right; split; [done | lia] |].
      cbn [Map_repair]. rewrite at_index_get, Hg. cbn [bind].
      destruct (Z.eqb_spec (hash1 e) 0) as [? | _]; [done |].
      fold m1. rewrite Hput.
      destruct (Z.leb_spec (Z.of_nat (S f)) n); [right; split; [done | lia] |].
      cbn [bind]. rewrite next_eq by (done || lia). rewrite Hlen2.
      destruct (Hrun f) as [-> | [-> Hlt]]; [by left | right; split; [done | lia]].
    + rewrite Hsz'. unfold m2. cbn [size]. lia.
    + intros x. rewrite Hh'. unfold m2. cbn [entries]. apply Hholds.
Qed.


(** The loop run after the slot [p] of a well-formed map was emptied. *)
Lemma repair_after_clear m p e (n0 : nat) :
  Map_table_wf m -> 0 <= p -> get (entries m) p = Some e -> hash1 e <> 0 ->
  exists m' n',
    (forall fuel,
       settles (Map_repair fuel
                  {| entries := store (entries m) p zero; size := size m - 1 |}
                  ((p + 1) mod len (entries m)) n0)
         fuel (2 * len (entries m)) (m', n')) /\
    table_ok (entries m') /\ len (entries m') = len (entries m) /\
    size m' = size m - 1 /\ size m' = live_count hash1 (entries m') /\
    (forall x, holds hash1 (entries m') x <->
       holds hash1 (store (entries m) p zero) x).
Proof.
  intros Hwf Hp0 Hg Hl. pose proof (Map_table_wf_room m Hwf) as Hroom.
  destruct Hwf as ((Hc & Hch & Hd & Ht) & Hcap & Hsz & Hload & Hlow).
  pose proof (get_Some_lt _ p e Hp0 Hg) as Hplt.
  destruct (exists_empty hash1 (entries m)) as [z Hz]; [lia |].
  pose proof (clear_holey hash1 key (entries m) p e zero z Hc Hch Hd Hp0 Hg Hl
                mapEntry_zero_empty Hz) as Hho.
  set (i := (p + 1) mod len (entries m)).
  set (m1 := {| entries := store (entries m) p zero; size := size m - 1 |}).
  pose proof (Z.mod_pos_bound (z - i) (len (entries m))) as Hrb.
  assert (Hlc1 : live_count hash1 (store (entries m) p zero) =
                 live_count hash1 (entries m) - 1).
  { rewrite (live_count_store hash1 _ p e zero) by done.
    rewrite weight_live, (weight_empty hash1 zero) by done. lia. }
  destruct (repair_ok (Z.to_nat ((z - i) mod len (entries m))) m1 p 1 z i n0)
    as (m' & n' & Hrun & Hok' & Hlen' & Hsz' & Hlc' & Hh');
    unfold m1; cbn [entries size]; rewrite ?len_store; try done; try lia.
  { intros x (p' & Hp' & Hg' & Hl'). apply Ht. exists p'.
    rewrite get_store in Hg' by lia. case_decide; [| done].
    injection Hg' as <-. done. }
  unfold m1 in Hrun, Hlen', Hsz', Hh'. cbn [entries size] in Hrun, Hlen', Hsz', Hh'.
  rewrite len_store in Hrun, Hlen'.
  exists m', n'. split; [| done].
  intros fuel. eapply settles_weaken; [apply Hrun | lia].
Qed.

(** The loop run on a well-formed map, from any index: the table keeps its
    entries. *)
Lemma repair_plain m i (n0 : nat) :
  table_ok (entries m) -> size m = live_count hash1 (entries m) ->
  4 * size m <= 3 * len (entries m) -> 8 <= len (entries m) ->
  0 <= i < len (entries m) ->
  exists m' n',
    (forall fuel, settles (Map_repair fuel m i n0) fuel
                    (2 * len (entries m)) (m', n')) /\
    table_ok (entries m') /\ len (entries m') = len (entries m) /\
    size m' = size m /\ size m' = live_count hash1 (entries m') /\
    (forall x, holds hash1 (entries m') x <-> holds hash1 (entries m) x).
Proof.
  intros (Hc & Hch & Hd & Ht) Hsz Hload Hlen8 Hi.
  destruct (exists_empty hash1 (entries m)) as [h Hh]; [lia |].
  destruct (exists_empty_other hash1 (entries m) h) as (z & Hz & Hzh); [lia |].
  pose proof Hh as (Hhr & _).
  set (d := if decide (i = h) then len (entries m) else (i - h) mod len (entries m)).
  assert (Hd1 : 1 <= d <= len (entries m) /\ i = (h + d) mod len (entries m)).
  { unfold d. case_decide as Hih.
    - subst i. split; [lia |].
      rewrite Z.add_mod, Z_mod_same_full, Z.add_0_r, Z.mod_mod by lia.
      symmetry. apply Z.mod_small. lia.
    - pose proof (Z.mod_pos_bound (i - h) (len (entries m))) as Hb.
      split; [| symmetry; apply mod_reach; lia].
      destruct (Z.eq_dec ((i - h) mod len (entries m)) 0) as [H0 |]; [| lia].
      apply mod_zero_eq in H0; lia. }
  destruct Hd1 as [Hdr Hid].
  pose proof (Z.mod_pos_bound (z - i) (len (entries m))) as Hrb.
  destruct (repair_ok (Z.to_nat ((z - i) mod len (entries m))) m h d z i n0)
    as (m' & n' & Hrun & Hrest); try done; try lia.
  { by apply chain_holey. }
  exists m', n'. split; [| done].
  intros fuel. eapply settles_weaken; [apply Hrun | lia].
Qed.

End MapStates.

(** ** [Map]: [Remove], [Put], [Get] and [Copy] on well-formed maps *)

Section MapOps.
Context {rt : Runtime} {rtl : RuntimeLaws}.
Context {K : Type} {cmp : Comparable K} {laws : ComparableLaws K} {zk : Zero K}.
Context {V : Type} {zv : Zero V}.
Implicit Types (m : Map K V) (t : list (mapEntry K V)) (e x : mapEntry K V).
Implicit Types (k : K) (v : V) (h : Z).

Lemma len_pos_nonnil {E : Type} (l : list E) : 0 < len l -> l <> [].
Proof. intros Hl ->. unfold len in Hl. simpl in Hl. lia. Qed.

(** Emptying the slot of key [k]. *)
Lemma clear_facts t p e k :
  table_ok t -> 0 <= p -> get t p = Some e -> hash1 e <> 0 -> key e = k ->
  distinct hash1 key (store t p zero) /\ tagged (store t p zero) /\
  live_count hash1 (store t p zero) = live_count hash1 t - 1 /\
  (forall x, holds hash1 (store t p zero) x <-> holds hash1 t x /\ key x <> k).
Proof.
  intros (Hc & Hch & Hd & Ht) Hp Hg Hl Hk.
  pose proof (get_Some_lt t p e Hp Hg) as Hplt.
  assert (Hholds : forall x, holds hash1 (store t p zero) x <->
            holds hash1 t x /\ key x <> k).
  { intros x. unfold holds. split.
    - intros (p' & Hp' & Hg' & Hl'). rewrite get_store in Hg' by lia.
      case_decide as Hpp; [injection Hg' as <-; done |].
      split; [eauto |]. intros Hkx. apply Hpp.
      apply (Hd p' p x e); try done; try congruence.
      rewrite (Ht x), (Ht e); [congruence | exists p; auto | exists p'; auto].
    - intros [(p' & Hp' & Hg' & Hl') Hkx]. exists p'. split; [done |].
      rewrite get_store by lia. case_decide; [subst; congruence | done]. }
  split; [| split; [| split; [| done]]].
  - intros p1 p2 e1 e2 Hp1 Hp2 Hg1 Hg2 Hl1 Heh Hek.
    rewrite get_store in Hg1, Hg2 by lia.
    repeat case_decide; first [congruence | by apply (Hd p1 p2 e1 e2)
      | injection Hg1 as <-; done | idtac].
    injection Hg2 as <-. rewrite Heh in Hl1. done.
  - intros x Hx. apply Ht. by apply Hholds.
  - rewrite (live_count_store hash1 t p e zero) by done.
    rewrite weight_live, (weight_empty hash1 zero) by done. lia.
Qed.

Lemma tagged_has_key t k x :
  tagged t -> holds hash1 t x -> key x = k -> has_key hash1 key t (tag k) k.
Proof.
  intros Ht Hx Hk. exists x. split; [done |]. split; [| done].
  rewrite (Ht x Hx). by rewrite Hk.
Qed.

Lemma Remove_run_wf m k fuel :
  Map_wf m ->
  match Map_Remove_run fuel m k with
  | Ok r =>
      Map_wf (after r) /\
      (forall x, holds hash1 (entries (after r)) x <->
         holds hash1 (entries m) x /\ key x <> k) /\
      (shrunk r = true -> repaired r = O) /\
      (entries m <> [] -> entries (after r) <> []) /\
      size (after r) <= size m /\
      len (entries (after r)) =
        (if shrunk r then len (entries m) / 2 else len (entries m)) /\
      (shrunk r = true <->
       has_key hash1 key (entries m) (tag k) k /\
       16 < len (entries m) /\ size m - 1 < len (entries m) / 4)
  | Panic => False
  | Timeout => Z.of_nat fuel <= 2 * len (entries m)
  end.
Proof.
  intros [[Hnil Hs0] | Hwf].
  { unfold Map_Remove_run. rewrite Hs0. cbn [Z.eqb after shrunk repaired].
    split; [by left |]. split.
    { intros x. rewrite Hnil.
      split; [intros Hx; by apply holds_nil in Hx | intros [Hx _]; by apply holds_nil in Hx]. }
    split; [done |]. split; [done |]. split; [lia |]. split; [done |].
    split; [done |]. intros ((x & Hx & _) & _). rewrite Hnil in Hx.
    by apply holds_nil in Hx. }
  pose proof (Map_table_wf_room m Hwf) as Hroom.
  pose proof Hwf as (Hok & Hcap & Hsz & Hload & Hlow).
  pose proof Hok as (Hc & Hch & Hd & Ht).
  pose proof (cap_ok_pos _ Hc) as Hlen.
  assert (Hnn : entries m <> []) by (apply len_pos_nonnil; lia).
  unfold Map_Remove_run. destruct (Z.eqb_spec (size m) 0) as [Hs0 | Hs0].
  { cbn [after shrunk repaired]. split; [by right |]. split.
    { intros x. split; [| tauto]. intros Hx. exfalso.
      apply live_count_holds in Hx. lia. }
    split; [done |]. split; [done |]. split; [lia |]. split; [done |].
    split; [done |]. intros ((x & Hx & _) & _).
    apply live_count_holds in Hx. lia. }
  rewrite home_eq by done.
  destruct (probe_any hash1 key (entries m) (tag k) k Hc Hch Hd)
    as (n & r & Hn & Hp & Hr).
  { apply exists_empty. lia. }
  change (Z.lor (Hash k) fullBit) with (tag k). rewrite Hp.
  destruct (Z.leb_spec (Z.of_nat fuel) n); cbn [bind]; [lia |].
  destruct r as [p e | q]; cycle 1.
  { cbn [after shrunk repaired]. destruct Hr as (_ & _ & Habs & _).
    split; [by right |]. split.
    { intros x. split; [| tauto].
      intros Hx. split; [done |]. intros Hk. apply Habs.
      by apply (tagged_has_key _ _ x). }
    split; [done |]. split; [done |]. split; [lia |]. split; [done |].
    split; [done |]. by intros (Hhas & _). }
  destruct Hr as (Hp0 & Hg & Hl & Hh & Hk).
  destruct (clear_facts (entries m) p e k) as (Hd1 & Ht1 & Hlc1 & Hh1); try done.
  destruct (cap_ok_div16 _ Hc) as (c & Hc16 & Hc1); [lia |].
  cbn [entries size]. rewrite len_store.
  set (m1 := {| entries := store (entries m) p zero; size := size m - 1 |}).
  assert (Hrepair : len (entries m) = 16 \/ len (entries m) <= 4 * (size m - 1) ->
    match
      bind (Map_repair fuel m1 (next (entries m1) p) 0)
        (fun r => Ok {| after := fst r; shrunk := false; repaired := snd r |})
    with
    | Ok r =>
        Map_wf (after r) /\
        (forall x, holds hash1 (entries (after r)) x <->
           holds hash1 (entries m) x /\ key x <> k) /\
        (shrunk r = true -> repaired r = O) /\
        (entries m <> [] -> entries (after r) <> []) /\
        size (after r) <= size m /\
        len (entries (after r)) =
          (if shrunk r then len (entries m) / 2 else len (entries m)) /\
        (shrunk r = true <->
         has_key hash1 key (entries m) (tag k) k /\
         16 < len (entries m) /\ size m - 1 < len (entries m) / 4)
    | Panic => False
    | Timeout => Z.of_nat fuel <= 2 * len (entries m)
    end).
  { intros Hlow1. pose proof (get_Some_lt _ p e Hp0 Hg) as Hplt.
    destruct (repair_after_clear m p e 0%nat Hwf Hp0 Hg Hl)
      as (m' & n' & Hrun & Hok' & Hlen' & Hsz' & Hlc' & Hh').
    change (entries m1) with (store (entries m) p zero).
    rewrite next_store, next_eq by (done || lia). fold m1 in Hrun.
    destruct (Hrun fuel) as [Hres | [Hres Hlt]]; rewrite Hres;
      cbn [bind after shrunk repaired fst snd]; [| lia].
    split; [| split; [| split; [done |]; split; [| split; [lia |]; split; [done |]]]].
    - right. split; [done |]. split; [lia |]. split; [done |]. split; lia.
    - intros x. by rewrite Hh'.
    - intros _. apply len_pos_nonnil. lia.
    - split; [done |]. intros (_ & Hbig & Hfew). exfalso. dlia. }
  destruct (Z.gtb_spec (len (entries m)) initialCapacity) as [Hbig | Hsmall];
    [destruct (Z.ltb_spec (size m - 1) (len (entries m) / 4)) as [Hfew | Hmany] |];
    cbn [andb]; unfold initialCapacity in *.
  - (* the table is rebuilt at half capacity *)
    destruct (resize_ok m1 (len (entries m) / 2))
      as (m' & Hrun & Hokm & Hlenm & Hszm & Hlcm & Hhm); try done.
    { destruct Hc as (b & Hb & Hlb). exists (b - 1).
      assert (b <> 0) by (intros ->; rewrite Hlb in Hbig; simpl in Hbig; lia).
      assert (Hpw : 2 ^ b = 2 * 2 ^ (b - 1)).
      { replace b with (Z.succ (b - 1)) at 1 by lia. rewrite Z.pow_succ_r; lia. }
      split; [lia |]. rewrite Hlb, Hpw. dlia. }
    { dlia. }
    { unfold m1. cbn [entries]. dlia. }
    destruct (Hrun fuel) as [Hres | [Hres Hlt]]; rewrite Hres;
      cbn [bind after shrunk repaired]; [| dlia].
    unfold m1 in Hszm, Hhm. cbn [entries] in Hszm, Hhm.
    assert (Hlm : 0 < len (entries m')) by dlia.
    split; [| split; [| split; [done |]; split; [| split; [lia |]; split; [done |]]]].
    + right. split; [done |]. split; [dlia |]. split; [done |]. split; dlia.
    + intros x. by rewrite Hhm.
    + intros _. by apply len_pos_nonnil.
    + split; [| done]. intros _. split; [| lia].
      exists e. split; [by exists p |]. done.
  - (* no shrinking: the cluster after the slot is repaired *)
    apply Hrepair. dlia.
  - apply Hrepair. lia.
Qed.


Lemma Remove_wf m k fuel :
  Map_wf m ->
  match Map_Remove fuel m k with
  | Ok m' =>
      Map_wf m' /\
      (forall x, holds hash1 (entries m') x <->
         holds hash1 (entries m) x /\ key x <> k) /\
      size m' <= size m
  | Panic => False
  | Timeout => Z.of_nat fuel <= 2 * len (entries m)
  end.
Proof.
  intros Hwf. pose proof (Remove_run_wf m k fuel Hwf) as Hrun.
  unfold Map_Remove, rmap. destruct (Map_Remove_run fuel m k); cbn [bind]; tauto.
Qed.

Lemma zero_table_wf (t : list (mapEntry K V)) :
  t = replicate (Z.to_nat initialCapacity) zero ->
  Map_table_wf {| entries := t; size := 0 |}.
Proof.
  intros ->. pose proof maxAlloc_range as Hmax.
  assert (Hl : len (replicate (Z.to_nat initialCapacity) (zero : mapEntry K V)) = 16).
  { by rewrite len_replicate. }
  split; [| cbn [entries size]; rewrite Hl, live_count_replicate by done; lia].
  cbn [entries]. split; [by apply cap_ok_16 |].
  split; [by apply chain_replicate |]. split; [by apply distinct_replicate |].
  intros x Hx. by apply holds_replicate in Hx.
Qed.

Lemma Put_wf m k v fuel :
  Map_wf m ->
  match Map_Put fuel m k v with
  | Ok m' =>
      Map_table_wf m' /\
      (forall x, holds hash1 (entries m') x <->
         holds hash1 (entries m) x \/
         (~ has_key hash1 key (entries m) (tag k) k /\
          x = {| hash1 := tag k; key := k; value := v |})) /\
      (has_key hash1 key (entries m) (tag k) k -> m' = m) /\
      has_key hash1 key (entries m') (tag k) k /\
      (~ has_key hash1 key (entries m) (tag k) k -> size m' = size m + 1) /\
      (len (entries m') = Z.max (len (entries m)) 16 \/
       (len (entries m') = 2 * len (entries m) /\
        3 * len (entries m) < 4 * (size m + 1)))
  | Panic =>
      maxAlloc < 2 * len (entries m) /\ 3 * len (entries m) < 4 * (size m + 1)
  | Timeout => Z.of_nat fuel <= 2 * Z.max (len (entries m)) 16
  end.
Proof.
  pose proof maxAlloc_range as Hmax.
  intros [[Hnil Hs0] | Hwf]; unfold Map_Put.
  - rewrite Hnil. unfold Map_init. rewrite make_Ok by (unfold initialCapacity; lia).
    cbn [bind]. rewrite Hs0.
    set (m0 := {| entries := replicate (Z.to_nat initialCapacity) zero; size := 0 |}).
    assert (Hwf0 : Map_table_wf m0) by by apply zero_table_wf.
    assert (Hl0 : len (entries m0) = 16) by (unfold m0; cbn [entries]; by rewrite len_replicate).
    assert (Hnone : forall x, ~ holds hash1 (entries m0) x).
    { intros x Hx. by apply holds_replicate in Hx. }
    pose proof (putHash1_wf m0 k v fuel Hwf0) as Hput.
    change (Z.lor (Hash k) fullBit) with (tag k).
    destruct (Map_putHash1 fuel m0 (tag k) k v) as [m' | |].
    + destruct Hput as (Hwf' & Hh' & _ & Hhas' & Hsz' & Hlen').
      assert (Hno : ~ has_key hash1 key (entries m0) (tag k) k).
      { intros (y & Hy & _). by apply Hnone in Hy. }
      split; [done |]. split; [| split; [| split; [done |]; split]].
      * intros x. rewrite Hh'. split.
        -- intros [Hx | [_ ->]]; [by apply Hnone in Hx |]. right. split; [| done].
           intros (y & Hy & _). by apply holds_nil in Hy.
        -- intros [Hx | [_ ->]]; [by apply holds_nil in Hx |]. right. split; [| done].
           intros (y & Hy & _). by apply Hnone in Hy.
      * intros (y & Hy & _). by apply holds_nil in Hy.
      * intros _. rewrite (Hsz' Hno). unfold m0. cbn [size]. lia.
      * left. unfold len at 2. cbn [length].
        destruct Hlen' as [Hl | [_ Hc]]; [lia |].
        rewrite Hl0 in Hc. unfold m0 in Hc. cbn [size] in Hc. lia.
    + exfalso. unfold m0 in Hput. cbn [size] in Hput. lia.
    + unfold len. cbn [length]. lia.
  - pose proof (Map_table_wf_room m Hwf) as Hroom.
    destruct (entries m) as [| e0 t0] eqn:Hent.
    { unfold len in Hroom. cbn in Hroom.
      pose proof (live_count_range hash1 (@nil (mapEntry K V))). cbn in *. lia. }
    cbn [bind]. rewrite <- Hent.
    pose proof (putHash1_wf m k v fuel Hwf) as Hput.
    change (Z.lor (Hash k) fullBit) with (tag k).
    destruct (Map_putHash1 fuel m (tag k) k v) as [m' | |]; [| tauto | lia].
    destruct Hput as (? & ? & ? & ? & ? & Hlen'). repeat (split; [done |]).
    destruct Hwf as (_ & ? & _). destruct Hlen' as [-> | ?]; [left; lia | by right].
Qed.

Lemma Get_wf m k fuel :
  Map_wf m ->
  match Map_Get fuel m k with
  | Ok (v, b) =>
      (b = true /\ holds hash1 (entries m) {| hash1 := tag k; key := k; value := v |})
      \/ (b = false /\ v = zero /\ ~ has_key hash1 key (entries m) (tag k) k)
  | Panic => False
  | Timeout => Z.of_nat fuel < len (entries m)
  end.
Proof.
  intros [[Hnil Hs0] | Hwf]; unfold Map_Get.
  { rewrite Hs0. cbn [Z.eqb]. right. split; [done |]. split; [done |].
    rewrite Hnil. intros (y & Hy & _). by apply holds_nil in Hy. }
  pose proof (Map_table_wf_room m Hwf) as Hroom.
  destruct Hwf as (Hok & Hcap & Hsz & Hload & Hlow).
  pose proof Hok as (Hc & Hch & Hd & Ht).
  destruct (Z.eqb_spec (size m) 0) as [Hs0 | Hs0].
  { right. split; [done |]. split; [done |].
    intros (y & Hy & _). apply live_count_holds in Hy. lia. }
  rewrite home_eq by done. change (Z.lor (Hash k) fullBit) with (tag k).
  destruct (probe_any hash1 key (entries m) (tag k) k Hc Hch Hd)
    as (n & r & Hn & Hp & Hr).
  { apply exists_empty. lia. }
  rewrite Hp. destruct (Z.leb_spec (Z.of_nat fuel) n); cbn [bind]; [lia |].
  destruct r as [p e | q].
  - left. split; [done |]. destruct Hr as (Hp0 & Hg & Hl & Hh & Hk).
    rewrite <- Hh, <- Hk, mapEntry_eta. exists p. auto.
  - right. destruct Hr as (_ & _ & Habs & _). auto.
Qed.

Lemma copy_same_length {E : Type} (dst src : list E) :
  length dst = length src -> copy dst src = src.
Proof.
  intros Hl. unfold copy. rewrite Hl, firstn_all, drop_ge by lia.
  apply app_nil_r.
Qed.

Lemma Copy_wf m :
  Map_wf m ->
  exists m', Map_Copy m = Ok m' /\ Map_wf m' /\
    (forall x, holds hash1 (entries m') x <-> holds hash1 (entries m) x).
Proof.
  intros Hwf. unfold Map_Copy. destruct (Z.eqb_spec (size m) 0) as [Hs0 | Hs0].
  - exists zero. split; [done |]. split; [by left |].
    intros x. split; [intros Hx; by apply holds_nil in Hx |].
    intros Hx. exfalso. destruct Hwf as [[Hnil _] | (_ & _ & Hsz & _)].
    + rewrite Hnil in Hx. by apply holds_nil in Hx.
    + apply live_count_holds in Hx. lia.
  - destruct Hwf as [[_ ?] | Hwf]; [done |].
    pose proof Hwf as (Hok & Hcap & Hsz & Hload & Hlow).
    rewrite make_Ok by lia. cbn [bind].
    rewrite copy_same_length by (rewrite length_replicate; unfold len; lia).
    exists {| entries := entries m; size := size m |}.
    split; [done |]. split; [by right | done].
Qed.

(** The states of a [Map] that a program can reach through the public
    methods, from the zero value. *)
Inductive Map_reachable : Map K V -> Prop :=
| Map_reach_zero : Map_reachable zero
| Map_reach_Put m fuel k v m' :
    Map_reachable m -> Map_Put fuel m k v = Ok m' -> Map_reachable m'
| Map_reach_Remove m fuel k m' :
    Map_reachable m -> Map_Remove fuel m k = Ok m' -> Map_reachable m'
| Map_reach_Copy m m' :
    Map_reachable m -> Map_Copy m = Ok m' -> Map_reachable m'.

Lemma Map_reachable_wf m : Map_reachable m -> Map_wf m.
Proof.
  induction 1 as [| m fuel k v m' _ IH Hput | m fuel k m' _ IH Hrem | m m' _ IH Hcopy].
  - by left.
  - pose proof (Put_wf m k v fuel IH) as Hw. rewrite Hput in Hw. right. tauto.
  - pose proof (Remove_wf m k fuel IH) as Hw. rewrite Hrem in Hw. tauto.
  - destruct (Copy_wf m IH) as (m'' & Hc & Hw & _). congruence.
Qed.

End MapOps.

(** ** [Set] is [Map] without values

    The methods of [Set] repeat those of [Map] on entries without a value,
    and keep the aggregate hash besides.  [to_map] forgets the hash; the
    insertion, the rebuilding and the repair loop of a set are those of the
    map it is sent to. *)

#[export] Instance unit_zero : Zero unit := tt.

Section SetAsMap.
Context {rt : Runtime} {rtl : RuntimeLaws}.
Context {K : Type} {cmp : Comparable K} {laws : ComparableLaws K} {zk : Zero K}.
Implicit Types (s : HashSet K) (t : list (setEntry K)) (e : setEntry K).
Implicit Types (k : K) (h : Z).

Definition conv e : mapEntry K unit :=
  {| hash1 := shash1 e; key := skey e; value := tt |}.

Definition to_map s : Map K unit :=
  {| entries := conv <$> sentries s; size := ssize s |}.

Definition conv_slot (f : slot (setEntry K)) : slot (mapEntry K unit) :=
  match f with
  | Hit index e => Hit index (conv e)
  | Free index => Free index
  end.

Lemma conv_zero : conv zero = zero.
Proof. reflexivity. Qed.

Lemma len_conv t : len (conv <$> t) = len t.
Proof. unfold len. by rewrite length_fmap. Qed.

Lemma mask_conv t : mask (conv <$> t) = mask t.
Proof. unfold mask. by rewrite len_conv. Qed.

Lemma next_conv t i : next (conv <$> t) i = next t i.
Proof. unfold next. by rewrite mask_conv. Qed.

Lemma get_conv t p : get (conv <$> t) p = conv <$> get t p.
Proof. unfold get. apply list_lookup_fmap. Qed.

Lemma at_index_conv t i : at_index (conv <$> t) i = rmap conv (at_index t i).
Proof.
  rewrite !at_index_get, get_conv. by destruct (get t i).
Qed.

Lemma store_conv t i e : store (conv <$> t) i (conv e) = conv <$> store t i e.
Proof. unfold store. symmetry. apply list_fmap_insert. Qed.

Lemma make_conv (cap : Z) :
  make (E := mapEntry K unit) cap = rmap (fmap conv) (make cap).
Proof.
  unfold make. destruct ((0 <=? cap) && (cap <=? maxAlloc)); [| done].
  cbn [rmap bind]. by rewrite fmap_replicate.
Qed.

Lemma probe_conv fuel t h k i :
  probe hash1 key fuel (conv <$> t) h k i =
  rmap conv_slot (probe shash1 skey fuel t h k i).
Proof.
  revert i. induction fuel as [| fuel IH]; intros i; cbn [probe]; [done |].
  rewrite at_index_conv. destruct (at_index t i) as [e | |]; cbn [rmap bind]; try done.
  cbn [hash1 key conv]. destruct (shash1 e =? 0); [done |].
  destruct ((shash1 e =? h) && Equals (skey e) k); [done |].
  rewrite next_conv. apply IH.
Qed.

Lemma len_pos_cons {E : Type} (x : E) (l : list E) : 0 < len (x :: l).
Proof. unfold len. cbn [length]. lia. Qed.

(** [addHash1Key] never leaves the set without a backing array. *)
Lemma reinsert_nonnil (add : HashSet K -> Z -> K -> result (HashSet K)) old :
  (forall s h k s', add s h k = Ok s' -> sentries s' <> []) ->
  forall s s', sentries s <> [] -> Set_reinsert add old s = Ok s' ->
    sentries s' <> [].
Proof.
  intros Hadd. induction old as [| e old IH]; intros s s' Hs; cbn [Set_reinsert].
  - by intros [= <-].
  - destruct (shash1 e =? 0); [by apply IH |].
    destruct (add s (shash1 e) (skey e)) as [s1 | |] eqn:Ha; cbn [bind]; try done.
    apply IH. by apply Hadd in Ha.
Qed.

Lemma make_nonnil {E : Type} `{Zero E} (cap : Z) (l : list E) :
  0 < cap -> make cap = Ok l -> l <> [].
Proof.
  unfold make. intros Hc. destruct ((0 <=? cap) && (cap <=? maxAlloc)); [| done].
  intros [= <-]. apply len_pos_nonnil. rewrite len_replicate. lia.
Qed.

Lemma add_nonnil fuel : forall s h k s',
  Set_addHash1Key fuel s h k = Ok s' -> sentries s' <> [].
Proof.
  induction fuel as [| fuel IH]; intros s h k s'; cbn [Set_addHash1Key]; [done |].
  destruct (match sentries s with [] => Set_init s | _ => Ok s end) as [s0 | |] eqn:Hs0;
    cbn [bind]; try done.
  assert (Hnn : sentries s0 <> []).
  { destruct (sentries s) eqn:Hent.
    - unfold Set_init in Hs0.
      destruct (make initialCapacity) as [l | |] eqn:Hmk; cbn [bind] in Hs0; try done.
      injection Hs0 as <-. cbn [sentries]. by apply (make_nonnil initialCapacity).
    - injection Hs0 as <-. by rewrite Hent. }
  destruct (probe shash1 skey (S fuel) (sentries s0) h k _) as [[i e | i] | |];
    cbn [bind]; try done.
  - by intros [= <-].
  - cbn [sentries ssize]. rewrite len_store.
    assert (Hpos : 0 < len (sentries s0)).
    { destruct (sentries s0); [done | apply len_pos_cons]. }
    destruct (_ >? _).
    + unfold Set_resize_with.
      destruct (make (len (sentries s0) * 2)) as [l | |] eqn:Hmk; cbn [bind]; try done.
      apply reinsert_nonnil; [apply IH |]. cbn [sentries].
      apply (make_nonnil (len (sentries s0) * 2)); [lia | done].
    + intros [= <-]. cbn [sentries]. apply len_pos_nonnil. by rewrite len_store.
Qed.

Lemma reinsert_sim (add : HashSet K -> Z -> K -> result (HashSet K))
    (put : Map K unit -> Z -> K -> unit -> result (Map K unit)) old :
  (forall s h k, sentries s <> [] -> rmap to_map (add s h k) = put (to_map s) h k tt) ->
  (forall s h k s', add s h k = Ok s' -> sentries s' <> []) ->
  forall s, sentries s <> [] ->
    rmap to_map (Set_reinsert add old s) = Map_reinsert put (conv <$> old) (to_map s).
Proof.
  intros Hsim Hnn. induction old as [| e old IH]; intros s Hs;
    cbn [Set_reinsert Map_reinsert fmap list_fmap]; [done |].
  cbn [hash1 key value conv]. destruct (shash1 e =? 0); [by apply IH |].
  rewrite <- (Hsim s) by done.
  destruct (add s (shash1 e) (skey e)) as [s1 | |] eqn:Ha; cbn [rmap bind]; try done.
  apply IH. by apply Hnn in Ha.
Qed.

Lemma resize_with_sim (add : HashSet K -> Z -> K -> result (HashSet K))
    (put : Map K unit -> Z -> K -> unit -> result (Map K unit)) s (cap : Z) :
  (forall s h k, sentries s <> [] -> rmap to_map (add s h k) = put (to_map s) h k tt) ->
  (forall s h k s', add s h k = Ok s' -> sentries s' <> []) ->
  0 < cap ->
  rmap to_map (Set_resize_with add s cap) = Map_resize_with put (to_map s) cap.
Proof.
  intros Hsim Hnn Hcap. unfold Set_resize_with, Map_resize_with.
  rewrite make_conv.
  destruct (make cap) as [l | |] eqn:Hmk; cbn [rmap bind]; try done.
  rewrite (reinsert_sim add put); try done.
  cbn [sentries]. by apply (make_nonnil cap).
Qed.

Lemma add_sim fuel : forall s h k,
  sentries s <> [] ->
  rmap to_map (Set_addHash1Key fuel s h k) = Map_putHash1 fuel (to_map s) h k tt.
Proof.
  induction fuel as [| fuel IH]; intros s h k Hs;
    cbn [Set_addHash1Key Map_putHash1]; [done |].
  destruct (sentries s) as [| e0 t0] eqn:Hent; [done |]. cbn [bind].
  cbn [entries to_map]. rewrite Hent. rewrite <- Hent.
  rewrite mask_conv, probe_conv.
  destruct (probe shash1 skey (S fuel) (sentries s) h k _) as [[i e | i] | |];
    cbn [rmap bind conv_slot]; try done.
  cbn [sentries ssize entries size]. rewrite !len_store, len_conv.
  change {| hash1 := h; key := k; value := tt |} with (conv {| shash1 := h; skey := k |}).
  rewrite store_conv.
  assert (Hpos : 0 < len (sentries s)) by (rewrite Hent; apply len_pos_cons).
  destruct (_ >? _).
  - rewrite (resize_with_sim _ (Map_putHash1 fuel)); [done | | | lia].
    + intros. by apply IH.
    + intros. by eapply add_nonnil.
  - done.
Qed.

Lemma resize_sim fuel s (cap : Z) :
  0 < cap -> rmap to_map (Set_resize fuel s cap) = Map_resize fuel (to_map s) cap.
Proof.
  intros Hcap. unfold Set_resize, Map_resize. apply resize_with_sim; [| | done].
  - intros. by apply add_sim.
  - intros. by eapply add_nonnil.
Qed.

Lemma repair_sim fuel : forall s i (n : nat),
  rmap (fun r => (to_map (fst r), snd r)) (Set_repair fuel s i n) =
  Map_repair fuel (to_map s) i n.
Proof.
  induction fuel as [| fuel IH]; intros s i n; cbn [Set_repair Map_repair]; [done |].
  cbn [entries to_map]. rewrite at_index_conv.
  destruct (at_index (sentries s) i) as [e | |] eqn:Hat; cbn [rmap bind]; try done.
  cbn [hash1 key value conv size to_map]. destruct (shash1 e =? 0); [done |].
  rewrite <- conv_zero, store_conv.
  set (s1 := {| sentries := store (sentries s) i zero; ssize := ssize s - 1;
                shash := Z.lxor (shash s) (shash1 e) |}).
  change {| entries := conv <$> store (sentries s) i zero; size := ssize s - 1 |}
    with (to_map s1).
  assert (Hpos : sentries s1 <> []).
  { unfold s1. cbn [sentries]. apply len_pos_nonnil. rewrite len_store.
    rewrite at_index_get in Hat. destruct (get (sentries s) i) eqn:Hg; [| done].
    destruct (sentries s); [done | apply len_pos_cons]. }
  rewrite <- add_sim by done.
  destruct (Set_addHash1Key (S fuel) s1 (shash1 e) (skey e)) as [s2 | |];
    cbn [rmap bind]; try done.
  cbn [entries to_map]. rewrite next_conv. apply IH.
Qed.

End SetAsMap.

(** ** [Set]: the aggregate hash *)

Section SetHash.
Context {rt : Runtime} {rtl : RuntimeLaws}.
Context {K : Type} {cmp : Comparable K} {laws : ComparableLaws K} {zk : Zero K}.
Implicit Types (s : HashSet K) (t : list (setEntry K)) (e : setEntry K).
Implicit Types (k : K) (h : Z).

(** The field [hash] is [emptySetHash] combined with the hashes of all
    slots. *)
Definition hash_eq s : Prop :=
  shash s = Z.lxor emptySetHash (xor_all shash1 (sentries s)).

Lemma home_nonneg t h : 0 <= Z.land h (mask t).
Proof.
  apply Z.land_nonneg. right. unfold mask, uint64. apply Z.mod_pos_bound. lia.
Qed.

Lemma reinsert_hash (add : HashSet K -> Z -> K -> result (HashSet K)) old :
  (forall s h k s', sentries s = [] \/ hash_eq s -> add s h k = Ok s' -> hash_eq s') ->
  forall s s', hash_eq s -> Set_reinsert add old s = Ok s' -> hash_eq s'.
Proof.
  intros Hadd. induction old as [| e old IH]; intros s s' Hs; cbn [Set_reinsert].
  - by intros [= <-].
  - destruct (shash1 e =? 0); [by apply IH |].
    destruct (add s (shash1 e) (skey e)) as [s1 | |] eqn:Ha; cbn [bind]; try done.
    apply IH. apply (Hadd s (shash1 e) (skey e) s1); [by right | done].
Qed.

Lemma resize_with_hash (add : HashSet K -> Z -> K -> result (HashSet K)) s (cap : Z) s' :
  (forall s h k s', sentries s = [] \/ hash_eq s -> add s h k = Ok s' -> hash_eq s') ->
  Set_resize_with add s cap = Ok s' -> hash_eq s'.
Proof.
  intros Hadd. unfold Set_resize_with.
  destruct (make cap) as [l | |] eqn:Hmk; cbn [bind]; try done.
  apply reinsert_hash; [done |]. unfold hash_eq. cbn [shash sentries].
  unfold make in Hmk. destruct (_ && _); [| done]. injection Hmk as <-.
  by rewrite xor_all_replicate, Z.lxor_0_r.
Qed.

Lemma add_hash fuel : forall s h k s',
  sentries s = [] \/ hash_eq s -> Set_addHash1Key fuel s h k = Ok s' -> hash_eq s'.
Proof.
  induction fuel as [| fuel IH]; intros s h k s' Hs; cbn [Set_addHash1Key]; [done |].
  destruct (match sentries s with [] => Set_init s | _ => Ok s end) as [s0 | |] eqn:Hs0;
    cbn [bind]; try done.
  assert (Hh0 : hash_eq s0).
  { destruct (sentries s) eqn:Hent.
    - unfold Set_init, make in Hs0.
      destruct ((0 <=? initialCapacity) && (initialCapacity <=? maxAlloc)); [| done].
      cbn [bind] in Hs0. injection Hs0 as <-. unfold hash_eq. cbn [shash sentries].
      change (xor_all shash1 _)
        with (xor_all shash1 (replicate 16 (zero : setEntry K))).
      by rewrite xor_all_replicate, Z.lxor_0_r.
    - injection Hs0 as <-. destruct Hs as [Hs | Hs]; [congruence | done]. }
  destruct (probe shash1 skey (S fuel) (sentries s0) h k _) as [[i e | i] | |] eqn:Hp;
    cbn [bind]; try done.
  - by intros [= <-].
  - apply probe_sound in Hp as (Hi & e0 & Hg & Hz); [| apply home_nonneg].
    set (s1 := {| sentries := store (sentries s0) i {| shash1 := h; skey := k |};
                  ssize := ssize s0 + 1; shash := Z.lxor (shash s0) h |}).
    assert (Hh1 : hash_eq s1).
    { unfold hash_eq, s1. cbn [shash sentries].
      rewrite (xor_all_store shash1 _ i e0) by done. cbn [shash1].
      by rewrite Hh0, Hz, Z.lxor_0_r, Z.lxor_assoc. }
    destruct (_ >? _).
    + apply resize_with_hash. apply IH.
    + by intros [= <-].
Qed.

Lemma resize_hash fuel s (cap : Z) s' :
  Set_resize fuel s cap = Ok s' -> hash_eq s'.
Proof. apply resize_with_hash. apply add_hash. Qed.

Lemma clear_hash s i e :
  hash_eq s -> get (sentries s) i = Some e ->
  hash_eq {| sentries := store (sentries s) i zero; ssize := ssize s - 1;
             shash := Z.lxor (shash s) (shash1 e) |}.
Proof.
  intros Hs Hg. unfold hash_eq. cbn [shash sentries].
  rewrite (xor_all_store shash1 _ i e) by done.
  change (shash1 (zero : setEntry K)) with 0.
  by rewrite Hs, Z.lxor_0_r, Z.lxor_assoc.
Qed.

Lemma repair_hash fuel : forall s i (n : nat) r,
  hash_eq s -> Set_repair fuel s i n = Ok r -> hash_eq (fst r).
Proof.
  induction fuel as [| fuel IH]; intros s i n r Hs; cbn [Set_repair]; [done |].
  rewrite at_index_get. destruct (get (sentries s) i) as [e |] eqn:Hg;
    cbn [bind]; try done.
  destruct (shash1 e =? 0); [by intros [= <-] |].
  destruct (Set_addHash1Key (S fuel) _ (shash1 e) (skey e)) as [s2 | |] eqn:Ha;
    cbn [bind]; try done.
  apply IH. apply add_hash in Ha; [done |]. right. by apply clear_hash.
Qed.

Lemma remove_hash fuel s h k r :
  hash_eq s -> Set_removeHash1Key_run fuel s h k = Ok r -> hash_eq (after r).
Proof.
  intros Hs. unfold Set_removeHash1Key_run.
  destruct (probe shash1 skey fuel (sentries s) h k _) as [[i e | i] | |] eqn:Hp;
    cbn [bind]; try done.
  - apply probe_sound in Hp as (Hi & Hg & Hl & Hh & Hk); [| apply home_nonneg].
    pose proof (clear_hash s i e Hs Hg) as Hs1. rewrite Hh in Hs1.
    destruct (_ && _).
    + destruct (Set_resize fuel _ _) as [s2 | |] eqn:Hr; cbn [bind]; try done.
      apply resize_hash in Hr.
      destruct (Set_repair fuel s2 _ 0) as [r2 | |] eqn:Hrep; cbn [bind]; try done.
      intros [= <-]. cbn [after]. by apply repair_hash in Hrep.
    + cbn [bind].
      destruct (Set_repair fuel _ _ 0) as [r2 | |] eqn:Hrep; cbn [bind]; try done.
      intros [= <-]. cbn [after]. by apply repair_hash in Hrep.
  - by intros [= <-].
Qed.

End SetHash.

(** ** [Set]: the states the program reaches *)

Section SetStates.
Context {rt : Runtime} {rtl : RuntimeLaws}.
Context {K : Type} {cmp : Comparable K} {laws : ComparableLaws K} {zk : Zero K}.
Implicit Types (s : HashSet K) (t : list (setEntry K)) (e : setEntry K).
Implicit Types (k : K) (h : Z).

(** A set with a backing array. *)
Definition Set_table_wf s : Prop := Map_table_wf (to_map s) /\ hash_eq s.

(** The zero value, or a set with a backing array. *)
Definition Set_wf s : Prop :=
  (sentries s = [] /\ ssize s = 0) \/ Set_table_wf s.

(** [k] is the key of a live entry. *)
Definition Set_mem s k : Prop :=
  exists e, holds shash1 (sentries s) e /\ skey e = k.

Definition Map_mem {V : Type} (m : Map K V) k : Prop :=
  exists x, holds hash1 (entries m) x /\ key x = k.

Lemma holds_conv t x :
  holds hash1 (conv <$> t) x <-> exists e, holds shash1 t e /\ x = conv e.
Proof.
  unfold holds. split.
  - intros (p & Hp & Hg & Hl). rewrite get_conv in Hg.
    destruct (get t p) as [e |] eqn:Hge; [| done]. injection Hg as <-.
    exists e. split; [exists p; auto | done].
  - intros (e & (p & Hp & Hg & Hl) & ->). exists p. split; [done |].
    rewrite get_conv, Hg. done.
Qed.

Lemma Set_mem_to_map s k : Set_mem s k <-> Map_mem (to_map s) k.
Proof.
  unfold Set_mem, Map_mem. cbn [entries to_map]. split.
  - intros (e & He & Hk). exists (conv e). split; [| done].
    apply holds_conv. eauto.
  - intros (x & Hx & Hk). apply holds_conv in Hx as (e & He & ->). eauto.
Qed.

Lemma Map_mem_has_key {V : Type} (m : Map K V) k :
  tagged (entries m) ->
  Map_mem m k <-> has_key hash1 key (entries m) (tag k) k.
Proof.
  intros Ht. split.
  - intros (x & Hx & Hk). by apply (tagged_has_key _ _ x).
  - intros (x & Hx & _ & Hk). by exists x.
Qed.

Lemma Set_table_wf_nonnil s : Set_table_wf s -> sentries s <> [].
Proof.
  intros [(_ & Hcap & _) _]. cbn [entries to_map] in Hcap.
  rewrite len_conv in Hcap. apply len_pos_nonnil. lia.
Qed.

Lemma Set_wf_nil s : sentries s = [] -> Set_wf s -> ssize s = 0.
Proof.
  intros Hnil [[_ ?] | Hwf]; [done |]. by apply Set_table_wf_nonnil in Hwf.
Qed.

Lemma Set_mem_nil s k : sentries s = [] -> ~ Set_mem s k.
Proof. intros Hnil (e & He & _). rewrite Hnil in He. by apply holds_nil in He. Qed.

(** *** [addHash1Key] and [Add] *)

Lemma addHash1Key_table_wf s k fuel :
  Set_table_wf s ->
  match Set_addHash1Key fuel s (tag k) k with
  | Ok s' =>
      Set_table_wf s' /\
      (forall k', Set_mem s' k' <-> Set_mem s k' \/ k' = k) /\
      (Set_mem s k -> to_map s' = to_map s) /\
      (~ Set_mem s k -> ssize s' = ssize s + 1) /\
      (len (sentries s') = len (sentries s) \/
       (len (sentries s') = 2 * len (sentries s) /\
        3 * len (sentries s) < 4 * (ssize s + 1)))
  | Panic =>
      maxAlloc < 2 * len (sentries s) /\ 3 * len (sentries s) < 4 * (ssize s + 1)
  | Timeout => Z.of_nat fuel <= 2 * len (sentries s)
  end.
Proof.
  intros Hwf. pose proof (Set_table_wf_nonnil s Hwf) as Hnn.
  destruct Hwf as [Hwf Hh].
  pose proof (add_sim fuel s (tag k) k Hnn) as Hsim.
  pose proof (putHash1_wf (to_map s) k tt fuel Hwf) as Hput.
  rewrite <- Hsim in Hput. cbn [entries size to_map] in Hput.
  rewrite len_conv in Hput.
  destruct (Set_addHash1Key fuel s (tag k) k) as [s' | |] eqn:Ha;
    cbn [rmap bind] in Hput; [| tauto | done].
  destruct Hput as (Hwf' & Hholds & Hsame & Hhas & Hsz' & Hlen').
  split; [split; [done |] |].
  { apply add_hash in Ha; [done | by right]. }
  destruct Hwf as ((_ & _ & _ & Ht) & _).
  cbn [entries size to_map] in Hsz', Hlen'. rewrite !len_conv in Hlen'.
  split; [| split; [| split; [| done]]]; cycle 2.
  { intros Hn. apply Hsz'. intros Hk. apply Hn. apply Set_mem_to_map.
    by apply (Map_mem_has_key (to_map s)). }
  - intros k'. rewrite !Set_mem_to_map. unfold Map_mem. split.
    + intros (x & Hx & Hk). apply Hholds in Hx as [Hx | [_ ->]]; [left; eauto | by right].
    + intros [(x & Hx & Hk) | ->].
      * exists x. split; [| done]. apply Hholds. by left.
      * destruct Hhas as (x & Hx & _ & Hk). eauto.
  - intros Hm. apply Hsame. apply Set_mem_to_map in Hm.
    by apply (Map_mem_has_key (to_map s)).
Qed.

Lemma add_init fuel s h k :
  sentries s = [] ->
  Set_addHash1Key fuel s h k =
  Set_addHash1Key fuel
    {| sentries := replicate (Z.to_nat initialCapacity) zero; ssize := ssize s;
       shash := emptySetHash |} h k.
Proof.
  intros Hnil. destruct fuel as [| fuel]; [done |]. cbn [Set_addHash1Key].
  rewrite Hnil. unfold Set_init. pose proof maxAlloc_range.
  rewrite make_Ok by (unfold initialCapacity; lia). done.
Qed.

Lemma init_table_wf :
  Set_table_wf
    ({| sentries := replicate (Z.to_nat initialCapacity) zero; ssize := 0;
        shash := emptySetHash |} : HashSet K).
Proof.
  split.
  - unfold to_map. cbn [sentries ssize]. apply zero_table_wf.
    by rewrite fmap_replicate.
  - unfold hash_eq. cbn [shash sentries].
    by rewrite xor_all_replicate, Z.lxor_0_r.
Qed.

Lemma addHash1Key_wf s k fuel :
  Set_wf s ->
  match Set_addHash1Key fuel s (tag k) k with
  | Ok s' =>
      Set_table_wf s' /\
      (forall k', Set_mem s' k' <-> Set_mem s k' \/ k' = k) /\
      (Set_mem s k -> to_map s' = to_map s) /\
      (~ Set_mem s k -> ssize s' = ssize s + 1) /\
      (len (sentries s') = Z.max (len (sentries s)) 16 \/
       (len (sentries s') = 2 * len (sentries s) /\
        3 * len (sentries s) < 4 * (ssize s + 1)))
  | Panic =>
      maxAlloc < 2 * len (sentries s) /\ 3 * len (sentries s) < 4 * (ssize s + 1)
  | Timeout => Z.of_nat fuel <= 2 * Z.max (len (sentries s)) 16
  end.
Proof.
  intros [[Hnil Hs0] | Hwf].
  - rewrite (add_init fuel s _ _ Hnil), Hs0.
    pose proof (addHash1Key_table_wf _ k fuel init_table_wf) as Hadd.
    cbn [sentries ssize] in Hadd. rewrite len_replicate in Hadd.
    destruct (Set_addHash1Key fuel _ (tag k) k) as [s' | |].
    + destruct Hadd as (Hwf' & Hmem & _ & Hsz' & Hlen').
      assert (Hno : ~ Set_mem
                (({| sentries := replicate (Z.to_nat initialCapacity) zero;
                     ssize := 0; shash := emptySetHash |}) : HashSet K) k).
      { intros (e & He & _). by apply holds_replicate in He. }
      split; [done |]. split; [| split; [| split]].
      * intros k'. rewrite Hmem. split; (intros [Hm | ->]; [| by right]).
        -- exfalso. destruct Hm as (e & He & _). by apply holds_replicate in He.
        -- exfalso. by apply (Set_mem_nil s k').
      * intros Hm. exfalso. by apply (Set_mem_nil s k).
      * intros _. by rewrite (Hsz' Hno).
      * left. rewrite Hnil. unfold len at 2. cbn [length].
        unfold initialCapacity in *. destruct Hlen' as [Hl | [_ Hc]]; lia.
    + exfalso. unfold initialCapacity in Hadd. cbn in Hadd. lia.
    + unfold initialCapacity in Hadd. cbn in Hadd. lia.
  - pose proof (addHash1Key_table_wf s k fuel Hwf) as Hadd.
    destruct (Set_addHash1Key fuel s (tag k) k); [| done | lia].
    destruct Hadd as (? & ? & ? & ? & Hlen'). repeat (split; [done |]).
    destruct Hwf as [(_ & Hcap & _) _]. cbn [entries to_map] in Hcap.
    rewrite len_conv in Hcap. destruct Hlen' as [-> | ?]; [left; lia | by right].
Qed.

Lemma Add_wf s k fuel :
  Set_wf s ->
  match Set_Add fuel s k with
  | Ok s' =>
      Set_table_wf s' /\
      (forall k', Set_mem s' k' <-> Set_mem s k' \/ k' = k) /\
      (Set_mem s k -> to_map s' = to_map s) /\
      (~ Set_mem s k -> ssize s' = ssize s + 1) /\
      (len (sentries s') = Z.max (len (sentries s)) 16 \/
       (len (sentries s') = 2 * len (sentries s) /\
        3 * len (sentries s) < 4 * (ssize s + 1)))
  | Panic =>
      maxAlloc < 2 * len (sentries s) /\ 3 * len (sentries s) < 4 * (ssize s + 1)
  | Timeout => Z.of_nat fuel <= 2 * Z.max (len (sentries s)) 16
  end.
Proof. apply addHash1Key_wf. Qed.

(** *** [containsHash1Key] and [Contains] *)

Lemma conv_inj e e' : conv e = conv e' -> e = e'.
Proof. destruct e, e'. by intros [= -> ->]. Qed.

Lemma conv_slot_inj (f f' : slot (setEntry K)) :
  conv_slot f = conv_slot f' -> f = f'.
Proof.
  destruct f as [i e | i], f' as [i' e' | i']; cbn [conv_slot]; intros Heq;
    try done.
  - injection Heq as -> Hs Hk. destruct e, e'. cbn in Hs, Hk. by subst.
  - by injection Heq as ->.
Qed.

(** The loop of a set method, on a set with a backing array. *)
Lemma probe_set s k :
  Set_table_wf s ->
  exists n r, 0 <= n < len (sentries s) /\
    (forall fuel,
       probe shash1 skey fuel (sentries s) (tag k) k
         (Z.land (tag k) (mask (sentries s))) =
       if Z.of_nat fuel <=? n then Timeout else Ok r) /\
    match r with
    | Hit p e => 0 <= p /\ get (sentries s) p = Some e /\ shash1 e <> 0 /\
                 shash1 e = tag k /\ skey e = k
    | Free _ => ~ Set_mem s k
    end.
Proof.
  intros [Hwf Hh]. pose proof (Map_table_wf_room _ Hwf) as Hroom.
  pose proof Hwf as ((Hc & Hch & Hd & Ht) & Hcap & Hsz & Hload & Hlow).
  destruct (probe_any hash1 key (entries (to_map s)) (tag k) k Hc Hch Hd)
    as (n & rm & Hn & Hp & Hr).
  { apply exists_empty. lia. }
  assert (Hset : exists r, conv_slot r = rm /\
    match r with
    | Hit p e => 0 <= p /\ get (sentries s) p = Some e /\ shash1 e <> 0 /\
                 shash1 e = tag k /\ skey e = k
    | Free _ => ~ Set_mem s k
    end).
  { destruct rm as [p x | q].
    - destruct Hr as (Hp0 & Hg & Hl & Hhh & Hk). cbn [entries to_map] in Hg.
      rewrite get_conv in Hg. destruct (get (sentries s) p) as [e |] eqn:Hge; [| done].
      injection Hg as <-. exists (Hit p e). done.
    - exists (Free q). split; [done |]. destruct Hr as (_ & _ & Habs & _).
      intros Hm. apply Habs. apply Set_mem_to_map in Hm.
      by apply (Map_mem_has_key (to_map s)). }
  destruct Hset as (r & Hrm & Hrs). exists n, r.
  cbn [entries to_map] in Hn. rewrite len_conv in Hn.
  split; [done |]. split; [| done].
  intros fuel. specialize (Hp fuel). rewrite <- home_eq in Hp by done.
  cbn [entries to_map] in Hp. rewrite mask_conv, probe_conv, <- Hrm in Hp.
  destruct (probe shash1 skey fuel (sentries s) (tag k) k _) as [f | |];
    cbn [rmap bind] in Hp; destruct (Z.of_nat fuel <=? n); try done.
  injection Hp as Hp. by apply conv_slot_inj in Hp as ->.
Qed.

Lemma containsHash1Key_wf s k fuel :
  Set_table_wf s ->
  match Set_containsHash1Key fuel s (tag k) k with
  | Ok b => b = true <-> Set_mem s k
  | Panic => False
  | Timeout => Z.of_nat fuel < len (sentries s)
  end.
Proof.
  intros Hwf. destruct (probe_set s k Hwf) as (n & r & Hn & Hp & Hr).
  unfold Set_containsHash1Key. rewrite Hp.
  destruct (Z.leb_spec (Z.of_nat fuel) n); cbn [bind]; [lia |].
  destruct r as [p e | q].
  - destruct Hr as (Hp0 & Hg & Hl & _ & Hk). split; [| done].
    intros _. exists e. split; [exists p; auto | done].
  - split; [done | by intros Hm; apply Hr in Hm].
Qed.

Lemma Contains_wf s k fuel :
  Set_wf s ->
  match Set_Contains fuel s k with
  | Ok b => b = true <-> Set_mem s k
  | Panic => False
  | Timeout => Z.of_nat fuel < len (sentries s)
  end.
Proof.
  intros Hwf. unfold Set_Contains. destruct (Z.eqb_spec (ssize s) 0) as [Hs0 | Hs0].
  - split; [done |]. intros Hm. exfalso. destruct Hwf as [[Hnil _] | [Hwf _]].
    + by apply (Set_mem_nil s k).
    + apply Set_mem_to_map in Hm as (x & Hx & _).
      apply live_count_holds in Hx. destruct Hwf as (_ & _ & Hsz & _).
      cbn [size to_map] in Hsz. lia.
  - destruct Hwf as [[_ ?] | Hwf]; [done |]. by apply containsHash1Key_wf.
Qed.

(** *** [removeHash1Key] and [Remove] *)

Lemma sim_settles {A B : Type} (f : A -> B) (ra : result A) (rb : result B)
    fuel bound b :
  rmap f ra = rb -> settles rb fuel bound b ->
  (exists a, ra = Ok a /\ f a = b) \/ (ra = Timeout /\ Z.of_nat fuel < bound).
Proof.
  destruct ra as [a | |]; cbn [rmap bind]; intros <- [Hr | [Hr Hlt]]; try done.
  - left. exists a. split; [done |]. by injection Hr.
  - by right.
Qed.

Lemma next_eq_gen {E : Type} (t : list E) i :
  cap_ok t -> 0 <= i < 2 ^ 62 -> next t i = (i + 1) mod len t.
Proof.
  intros Hc Hi. unfold next. rewrite home_eq by done. unfold uint64.
  by rewrite (Z.mod_small (i + 1)) by lia.
Qed.

Lemma removeHash1Key_run_map s k fuel :
  Set_table_wf s ->
  match Set_removeHash1Key_run fuel s (tag k) k with
  | Ok r =>
      Map_table_wf (to_map (after r)) /\
      (forall k', Set_mem (after r) k' <-> Set_mem s k' /\ k' <> k) /\
      len (sentries (after r)) =
        (if shrunk r then len (sentries s) / 2 else len (sentries s)) /\
      (shrunk r = true <->
       Set_mem s k /\ 16 < len (sentries s) /\
       ssize s - 1 < len (sentries s) / 4)
  | Panic => False
  | Timeout => Z.of_nat fuel <= 2 * len (sentries s)
  end.
Proof.
  intros Hwf. destruct (probe_set s k Hwf) as (n & r & Hn & Hp & Hr).
  destruct Hwf as [Hwf Hhash].
  pose proof (Map_table_wf_room _ Hwf) as Hroom.
  pose proof Hwf as ((Hc & Hch & Hd & Ht) & Hcap & Hsz & Hload & Hlow).
  cbn [entries size to_map] in Hroom, Hcap, Hsz, Hload, Hlow.
  rewrite len_conv in Hroom, Hcap, Hload, Hlow.
  unfold Set_removeHash1Key_run. rewrite Hp.
  destruct (Z.leb_spec (Z.of_nat fuel) n); cbn [bind]; [lia |].
  destruct r as [p e | q]; cycle 1.
  { cbn [after shrunk]. split; [done |]. split.
    { intros k'. split; [| tauto]. intros Hm. split; [done |]. by intros ->. }
    split; [done |]. split; [done |]. by intros (Hm & _). }
  destruct Hr as (Hp0 & Hg & Hl & Hh & Hk).
  assert (Hgm : get (entries (to_map s)) p = Some (conv e)).
  { cbn [entries to_map]. by rewrite get_conv, Hg. }
  pose proof (get_Some_lt _ p e Hp0 Hg) as Hplt.
  destruct (clear_facts (entries (to_map s)) p (conv e) k) as (Hd1 & Ht1 & Hlc1 & Hh1);
    try done.
  cbn [entries size to_map] in Hd1, Ht1, Hlc1, Hh1.
  destruct (cap_ok_div16 _ Hc) as (c & Hc16 & Hc1);
    [cbn [entries to_map]; rewrite len_conv; lia |].
  cbn [entries to_map] in Hc16. rewrite len_conv in Hc16.
  cbn [sentries ssize]. rewrite len_store.
  set (s1 := {| sentries := store (sentries s) p zero; ssize := ssize s - 1;
                shash := Z.lxor (shash s) (tag k) |}).
  set (m1 := {| entries := store (conv <$> sentries s) p zero;
                size := ssize s - 1 |}).
  assert (Hm1 : to_map s1 = m1).
  { unfold s1, m1. cbn [to_map sentries ssize entries size].
    by rewrite <- conv_zero, store_conv. }
  assert (Hmem1 : forall m', (forall x, holds hash1 (entries m') x <->
                                holds hash1 (entries m1) x) ->
    forall s', to_map s' = m' ->
    forall k', Set_mem s' k' <-> Set_mem s k' /\ k' <> k).
  { intros m' Hhm s' Hs' k'. rewrite !Set_mem_to_map, Hs'. unfold Map_mem. split.
    - intros (x & Hx & Hkx). apply Hhm, Hh1 in Hx as [Hx Hne].
      split; [eauto | congruence].
    - intros [(x & Hx & Hkx) Hne]. exists x. split; [| done].
      apply Hhm, Hh1. split; [done | congruence]. }
  assert (Hrepair : len (sentries s) = 16 \/ len (sentries s) <= 4 * (ssize s - 1) ->
    match
      bind (Set_repair fuel s1 (next (sentries s1) p) 0)
        (fun r => Ok {| after := fst r; shrunk := false; repaired := snd r |})
    with
    | Ok r =>
        Map_table_wf (to_map (after r)) /\
        (forall k', Set_mem (after r) k' <-> Set_mem s k' /\ k' <> k) /\
        len (sentries (after r)) =
          (if shrunk r then len (sentries s) / 2 else len (sentries s)) /\
        (shrunk r = true <->
         Set_mem s k /\ 16 < len (sentries s) /\
         ssize s - 1 < len (sentries s) / 4)
    | Panic => False
    | Timeout => Z.of_nat fuel <= 2 * len (sentries s)
    end).
  { intros Hlow1.
    destruct (repair_after_clear (to_map s) p (conv e) 0%nat Hwf Hp0 Hgm Hl)
      as (m' & n' & Hrun & Hok' & Hlen' & Hsz' & Hlc' & Hh').
    cbn [entries size to_map] in Hrun, Hlen', Hsz', Hh'.
    rewrite len_conv in Hrun, Hlen'. fold m1 in Hrun.
    assert (Hi1 : next (sentries s1) p = (p + 1) mod len (sentries s)).
    { unfold s1. cbn [sentries]. rewrite next_store, <- next_conv, <- len_conv.
      apply next_eq; [done |]. rewrite len_conv. lia. }
    pose proof (repair_sim fuel s1 (next (sentries s1) p) 0) as Hsim.
    rewrite Hm1, Hi1 in Hsim. rewrite Hi1.
    destruct (sim_settles _ _ _ _ _ _ Hsim (Hrun fuel)) as [(r1 & Hres & Hr1) | [Hres Hlt]];
      rewrite Hres; cbn [bind after shrunk]; [| lia].
    injection Hr1 as Hr1 _.
    assert (Hl1 : len (sentries (fst r1)) = len (entries m')).
    { rewrite <- Hr1. cbn [entries to_map]. by rewrite len_conv. }
    rewrite Hr1. split; [| split; [| split]].
    - split; [done |]. split; [lia |]. split; [done |]. split; lia.
    - apply (Hmem1 m'); done.
    - lia.
    - split; [done |]. intros (_ & Hbig & Hfew). exfalso. dlia. }
  destruct (Z.gtb_spec (len (sentries s)) initialCapacity) as [Hbig | Hsmall];
    [destruct (Z.ltb_spec (ssize s - 1) (len (sentries s) / 4)) as [Hfew | Hmany] |];
    cbn [andb]; unfold initialCapacity in *.
  - (* rebuilt at half capacity, then the repair loop all the same *)
    destruct (resize_ok m1 (len (sentries s) / 2))
      as (m' & Hrun & Hokm & Hlenm & Hszm & Hlcm & Hhm); try done.
    { destruct Hc as (b & Hb & Hlb). cbn [entries to_map] in Hlb.
      rewrite len_conv in Hlb. exists (b - 1).
      assert (b <> 0) by (intros ->; rewrite Hlb in Hbig; simpl in Hbig; lia).
      assert (Hpw : 2 ^ b = 2 * 2 ^ (b - 1)).
      { replace b with (Z.succ (b - 1)) at 1 by lia. rewrite Z.pow_succ_r; lia. }
      split; [lia |]. rewrite Hlb, Hpw. dlia. }
    { dlia. }
    { unfold m1. cbn [entries]. dlia. }
    pose proof (resize_sim fuel s1 (len (sentries s) / 2) ltac:(dlia)) as Hsim.
    rewrite Hm1 in Hsim.
    destruct (sim_settles _ _ _ _ _ _ Hsim (Hrun fuel)) as [(s2 & Hres & Hs2) | [Hres Hlt]];
      rewrite Hres; cbn [bind]; [| dlia].
    unfold m1 in Hszm, Hhm. cbn [entries] in Hszm.
    assert (Hi2 : next (sentries s2) p = (p + 1) mod len (entries m')).
    { rewrite <- next_conv. change (conv <$> sentries s2) with (entries (to_map s2)).
      rewrite Hs2. destruct Hokm as (Hcm & _). apply next_eq_gen; [done |].
      pose proof maxAlloc_range. lia. }
    destruct (repair_plain m' ((p + 1) mod len (entries m')) 0%nat)
      as (m2 & n2 & Hrun2 & Hok2 & Hlen2 & Hsz2 & Hlc2 & Hh2); try done.
    { dlia. }
    { dlia. }
    { apply Z.mod_pos_bound. dlia. }
    pose proof (repair_sim fuel s2 (next (sentries s2) p) 0) as Hsim2.
    rewrite Hs2, Hi2 in Hsim2. rewrite Hi2.
    destruct (sim_settles _ _ _ _ _ _ Hsim2 (Hrun2 fuel)) as [(r2 & Hres2 & Hr2) | [Hres2 Hlt]];
      rewrite Hres2; cbn [bind after shrunk]; [| dlia].
    injection Hr2 as Hr2 _.
    assert (Hl2 : len (sentries (fst r2)) = len (entries m2)).
    { rewrite <- Hr2. cbn [entries to_map]. by rewrite len_conv. }
    rewrite Hr2. split; [| split; [| split]].
    + split; [done |]. split; [dlia |]. split; [done |]. split; dlia.
    + apply (Hmem1 m2); [| done]. intros x. by rewrite Hh2, Hhm.
    + lia.
    + split; [| done]. intros _. split; [| lia]. exists e. split; [by exists p | done].
  - (* no shrinking *)
    cbn [bind]. apply Hrepair. dlia.
  - cbn [bind]. apply Hrepair. lia.
Qed.

End SetStates.

(** ** [Set]: [Remove], [Copy] and the loops of the set algebra *)

Section SetOps.
Context {rt : Runtime} {rtl : RuntimeLaws}.
Context {K : Type} {cmp : Comparable K} {laws : ComparableLaws K} {zk : Zero K}.
Implicit Types (s t r : HashSet K) (es : list (setEntry K)) (e : setEntry K).
Implicit Types (k : K) (h : Z).

Lemma removeHash1Key_run_wf s k fuel :
  Set_table_wf s ->
  match Set_removeHash1Key_run fuel s (tag k) k with
  | Ok r =>
      Set_table_wf (after r) /\
      (forall k', Set_mem (after r) k' <-> Set_mem s k' /\ k' <> k) /\
      len (sentries (after r)) =
        (if shrunk r then len (sentries s) / 2 else len (sentries s)) /\
      (shrunk r = true <->
       Set_mem s k /\ 16 < len (sentries s) /\
       ssize s - 1 < len (sentries s) / 4)
  | Panic => False
  | Timeout => Z.of_nat fuel <= 2 * len (sentries s)
  end.
Proof.
  intros Hwf. pose proof (removeHash1Key_run_map s k fuel Hwf) as Hmap.
  destruct (Set_removeHash1Key_run fuel s (tag k) k) as [r | |] eqn:Hrun; try done.
  destruct Hmap as [Hm Hmem]. split; [split; [done |] | done].
  apply (remove_hash fuel s (tag k) k); [apply Hwf | done].
Qed.

Lemma removeHash1Key_wf s k fuel :
  Set_table_wf s ->
  match Set_removeHash1Key fuel s (tag k) k with
  | Ok s' =>
      Set_table_wf s' /\
      (forall k', Set_mem s' k' <-> Set_mem s k' /\ k' <> k)
  | Panic => False
  | Timeout => Z.of_nat fuel <= 2 * len (sentries s)
  end.
Proof.
  intros Hwf. pose proof (removeHash1Key_run_wf s k fuel Hwf) as Hrun.
  unfold Set_removeHash1Key, rmap.
  destruct (Set_removeHash1Key_run fuel s (tag k) k); cbn [bind]; tauto.
Qed.

Lemma Set_wf_size0 s k : Set_wf s -> ssize s = 0 -> ~ Set_mem s k.
Proof.
  intros [[Hnil _] | [Hwf _]] Hs0 Hm; [by apply (Set_mem_nil s k) |].
  apply Set_mem_to_map in Hm as (x & Hx & _). apply live_count_holds in Hx.
  destruct Hwf as (_ & _ & Hsz & _). cbn [size to_map] in Hsz. lia.
Qed.

Lemma Remove_run_set_wf s k fuel :
  Set_wf s ->
  match Set_Remove_run fuel s k with
  | Ok r =>
      Set_wf (after r) /\
      (forall k', Set_mem (after r) k' <-> Set_mem s k' /\ k' <> k) /\
      len (sentries (after r)) =
        (if shrunk r then len (sentries s) / 2 else len (sentries s)) /\
      (shrunk r = true <->
       Set_mem s k /\ 16 < len (sentries s) /\
       ssize s - 1 < len (sentries s) / 4)
  | Panic => False
  | Timeout => Z.of_nat fuel <= 2 * len (sentries s)
  end.
Proof.
  intros Hwf. unfold Set_Remove_run. destruct (Z.eqb_spec (ssize s) 0) as [Hs0 | Hs0].
  - cbn [after shrunk]. split; [done |]. split.
    { intros k'. split; [| tauto].
      intros Hm. exfalso. by apply (Set_wf_size0 s k'). }
    split; [done |]. split; [done |]. intros (Hm & _).
    by apply (Set_wf_size0 s k) in Hm.
  - destruct Hwf as [[_ ?] | Hwf]; [done |].
    pose proof (removeHash1Key_run_wf s k fuel Hwf) as Hrun.
    change (Z.lor (Hash k) fullBit) with (tag k).
    destruct (Set_removeHash1Key_run fuel s (tag k) k); [| done | done].
    destruct Hrun as [Hw Hm]. split; [by right | done].
Qed.

Lemma Remove_set_wf s k fuel :
  Set_wf s ->
  match Set_Remove fuel s k with
  | Ok s' =>
      Set_wf s' /\ (forall k', Set_mem s' k' <-> Set_mem s k' /\ k' <> k)
  | Panic => False
  | Timeout => Z.of_nat fuel <= 2 * len (sentries s)
  end.
Proof.
  intros Hwf. pose proof (Remove_run_set_wf s k fuel Hwf) as Hrun.
  unfold Set_Remove, rmap. destruct (Set_Remove_run fuel s k); cbn [bind]; tauto.
Qed.

Lemma Copy_set_wf s :
  Set_wf s ->
  exists s', Set_Copy s = Ok s' /\ Set_wf s' /\
    (forall k, Set_mem s' k <-> Set_mem s k) /\
    (ssize s <> 0 -> s' = s).
Proof.
  intros Hwf. unfold Set_Copy. destruct (Z.eqb_spec (ssize s) 0) as [Hs0 | Hs0].
  - exists zero. split; [done |]. split; [by left |]. split; [| done].
    intros k. split; [intros Hm; by apply Set_mem_nil in Hm |].
    intros Hm. by apply (Set_wf_size0 s k) in Hm.
  - destruct Hwf as [[_ ?] | Hwf]; [done |].
    pose proof Hwf as [(_ & Hcap & _) _]. cbn [entries to_map] in Hcap.
    rewrite len_conv in Hcap.
    rewrite make_Ok by lia. cbn [bind].
    rewrite copy_same_length by (rewrite length_replicate; unfold len; lia).
    assert (Heta : {| sentries := sentries s; ssize := ssize s; shash := shash s |}
                   = s) by by destruct s.
    rewrite Heta. exists s. split; [done |]. split; [by right | done].
Qed.

(** The entries a loop ranges over carry the tagged hash of their key. *)
Definition tagged_entries es : Prop :=
  forall e, holds shash1 es e -> shash1 e = tag (skey e).

Lemma Set_wf_tagged s : Set_wf s -> tagged_entries (sentries s).
Proof.
  intros [[Hnil _] | [((_ & _ & _ & Ht) & _) _]] e He.
  - rewrite Hnil in He. by apply holds_nil in He.
  - apply (Ht (conv e)). apply holds_conv. eauto.
Qed.

Lemma tagged_entries_cons e es :
  tagged_entries (e :: es) ->
  (shash1 e <> 0 -> shash1 e = tag (skey e)) /\ tagged_entries es.
Proof.
  intros Ht. split.
  - intros Hl. apply Ht. apply holds_cons. by left.
  - intros e' He'. apply Ht. apply holds_cons. by right.
Qed.

(** [Union]'s loop, [Intersection]'s and [Difference]'s keep the set well
    formed. *)
Lemma add_all_wf fuel es : forall r r',
  Set_wf r -> tagged_entries es -> Set_add_all fuel es r = Ok r' ->
  Set_wf r' /\
  (forall k, Set_mem r' k <-> Set_mem r k \/ exists e, holds shash1 es e /\ skey e = k).
Proof.
  induction es as [| e es IH]; intros r r' Hwf Ht; cbn [Set_add_all].
  - intros [= <-]. split; [done |]. intros k. split; [by left |].
    intros [? | (e & He & _)]; [done | by apply holds_nil in He].
  - apply tagged_entries_cons in Ht as [Hte Ht].
    destruct (Z.eqb_spec (shash1 e) 0) as [Hz | Hnz].
    + intros Hrun. destruct (IH r r' Hwf Ht Hrun) as [Hwf' Hmem]. split; [done |].
      intros k. rewrite Hmem. split; (intros [? | (e' & He' & Hk)]; [by left | right]).
      * exists e'. split; [apply holds_cons; by right | done].
      * exists e'. apply holds_cons in He' as [[-> ?] | ?]; done.
    + rewrite (Hte Hnz).
      pose proof (addHash1Key_wf r (skey e) fuel Hwf) as Hadd.
      destruct (Set_addHash1Key fuel r (tag (skey e)) (skey e)) as [r1 | |];
        cbn [bind]; try done.
      destruct Hadd as (Hwf1 & Hmem1 & _). intros Hrun.
      destruct (IH r1 r' ltac:(by right) Ht Hrun) as [Hwf' Hmem]. split; [done |].
      intros k. rewrite Hmem, Hmem1. split.
      * intros [[? | ->] | (e' & He' & Hk)]; [by left | right | right].
        -- exists e. split; [apply holds_cons; by left | done].
        -- exists e'. split; [apply holds_cons; by right | done].
      * intros [? | (e' & He' & Hk)]; [by left; left |].
        apply holds_cons in He' as [[-> ?] | ?]; [left; by right | right; eauto].
Qed.

Lemma add_common_wf fuel es t : forall r r',
  Set_wf r -> tagged_entries es -> Set_add_common fuel es t r = Ok r' -> Set_wf r'.
Proof.
  induction es as [| e es IH]; intros r r' Hwf Ht; cbn [Set_add_common].
  - by intros [= <-].
  - apply tagged_entries_cons in Ht as [Hte Ht].
    destruct (Z.eqb_spec (shash1 e) 0) as [Hz | Hnz]; [by apply IH |].
    destruct (Set_containsHash1Key fuel t (shash1 e) (skey e)) as [[|] | |];
      cbn [bind]; try done; [| by apply IH].
    rewrite (Hte Hnz).
    pose proof (addHash1Key_wf r (skey e) fuel Hwf) as Hadd.
    destruct (Set_addHash1Key fuel r (tag (skey e)) (skey e)) as [r1 | |];
      cbn [bind]; try done.
    apply IH; [| done]. right. apply Hadd.
Qed.

Lemma remove_all_wf fuel es : forall r r',
  Set_table_wf r -> tagged_entries es -> Set_remove_all fuel es r = Ok r' ->
  Set_table_wf r'.
Proof.
  induction es as [| e es IH]; intros r r' Hwf Ht; cbn [Set_remove_all].
  - by intros [= <-].
  - apply tagged_entries_cons in Ht as [Hte Ht].
    destruct (Z.eqb_spec (shash1 e) 0) as [Hz | Hnz]; [by apply IH |].
    rewrite (Hte Hnz).
    pose proof (removeHash1Key_wf r (skey e) fuel Hwf) as Hrem.
    destruct (Set_removeHash1Key fuel r (tag (skey e)) (skey e)) as [r1 | |];
      cbn [bind]; try done.
    apply IH; [| done]. apply Hrem.
Qed.

Lemma Union_wf fuel s t r :
  Set_wf s -> Set_wf t -> Set_Union fuel s t = Ok r -> Set_wf r.
Proof.
  intros Hs Ht. unfold Set_Union.
  destruct (Copy_set_wf s Hs) as (cs & Hcs & Hwcs & _).
  destruct (Copy_set_wf t Ht) as (ct & Hct & Hwct & _).
  destruct (ssize s =? 0); [rewrite Hct; by intros [= <-] |].
  destruct (ssize t =? 0); [rewrite Hcs; by intros [= <-] |].
  unfold swap_if_longer. destruct (_ >? _).
  - rewrite Hcs. cbn [bind]. intros Hrun.
    apply (add_all_wf fuel (sentries t) cs r); [done | by apply Set_wf_tagged | done].
  - rewrite Hct. cbn [bind]. intros Hrun.
    apply (add_all_wf fuel (sentries s) ct r); [done | by apply Set_wf_tagged | done].
Qed.

Lemma Intersection_wf fuel s t r :
  Set_wf s -> Set_wf t -> Set_Intersection fuel s t = Ok r -> Set_wf r.
Proof.
  intros Hs Ht. unfold Set_Intersection.
  destruct (_ || _); [intros [= <-]; by left |].
  unfold swap_if_longer. destruct (_ >? _).
  - apply add_common_wf; [by left | by apply Set_wf_tagged].
  - apply add_common_wf; [by left | by apply Set_wf_tagged].
Qed.

Lemma Difference_wf fuel s t r :
  Set_wf s -> Set_wf t -> Set_Difference fuel s t = Ok r -> Set_wf r.
Proof.
  intros Hs Ht. unfold Set_Difference.
  destruct (Copy_set_wf s Hs) as (cs & Hcs & Hwcs & _ & Hsame).
  rewrite Hcs. cbn [bind].
  destruct (Z.eqb_spec (ssize s) 0) as [Hs0 | Hs0]; cbn [orb];
    [by intros [= <-] |].
  destruct (ssize t =? 0); [by intros [= <-] |].
  intros Hrun. right. rewrite (Hsame Hs0) in *.
  destruct Hs as [[_ ?] | Hs]; [done |].
  apply (remove_all_wf fuel (sentries t) s r); [done | by apply Set_wf_tagged | done].
Qed.

(** The states of a [Set] that a program can reach through the public
    methods, from the zero value. *)
Inductive Set_reachable : HashSet K -> Prop :=
| Set_reach_zero : Set_reachable zero
| Set_reach_Add s fuel k s' :
    Set_reachable s -> Set_Add fuel s k = Ok s' -> Set_reachable s'
| Set_reach_Remove s fuel k s' :
    Set_reachable s -> Set_Remove fuel s k = Ok s' -> Set_reachable s'
| Set_reach_Copy s s' :
    Set_reachable s -> Set_Copy s = Ok s' -> Set_reachable s'
| Set_reach_Union s t fuel r :
    Set_reachable s -> Set_reachable t -> Set_Union fuel s t = Ok r ->
    Set_reachable r
| Set_reach_Intersection s t fuel r :
    Set_reachable s -> Set_reachable t -> Set_Intersection fuel s t = Ok r ->
    Set_reachable r
| Set_reach_Difference s t fuel r :
    Set_reachable s -> Set_reachable t -> Set_Difference fuel s t = Ok r ->
    Set_reachable r.

Lemma Set_reachable_wf s : Set_reachable s -> Set_wf s.
Proof.
  induction 1 as [| s fuel k s' _ IH Hadd | s fuel k s' _ IH Hrem
                  | s s' _ IH Hcopy | s t fuel r _ IHs _ IHt Hrun
                  | s t fuel r _ IHs _ IHt Hrun | s t fuel r _ IHs _ IHt Hrun].
  - by left.
  - pose proof (Add_wf s k fuel IH) as Hw. rewrite Hadd in Hw. right. tauto.
  - pose proof (Remove_set_wf s k fuel IH) as Hw. rewrite Hrem in Hw. tauto.
  - destruct (Copy_set_wf s IH) as (s'' & Hc & Hw & _). congruence.
  - by apply (Union_wf fuel s t).
  - by apply (Intersection_wf fuel s t).
  - by apply (Difference_wf fuel s t).
Qed.

End SetOps.

(** ** [Set]: the keys of a set, and [Equals] *)

Section SetKeys.
Context {rt : Runtime} {rtl : RuntimeLaws}.
Context {K : Type} {cmp : Comparable K} {laws : ComparableLaws K} {zk : Zero K}.
Implicit Types (s t r : HashSet K) (es : list (setEntry K)) (e : setEntry K).
Implicit Types (k : K) (h : Z) (l : list K).

(** The keys of the live entries, in the order of the backing array. *)
Fixpoint keys_of es : list K :=
  match es with
  | [] => []
  | e :: es' => if shash1 e =? 0 then keys_of es' else skey e :: keys_of es'
  end.

(** The exclusive-or of the tagged hashes of a list of keys. *)
Fixpoint xor_tags l : Z :=
  match l with
  | [] => 0
  | k :: l' => Z.lxor (tag k) (xor_tags l')
  end.

Lemma elem_keys_of es k :
  k ∈ keys_of es <-> exists e, holds shash1 es e /\ skey e = k.
Proof.
  induction es as [| e es IH]; cbn [keys_of].
  - split; [by intros ?%elem_of_nil | intros (e & He & _); by apply holds_nil in He].
  - destruct (Z.eqb_spec (shash1 e) 0) as [Hz | Hnz].
    + rewrite IH. split; intros (e' & He' & Hk); exists e'; (split; [| done]).
      * apply holds_cons. by right.
      * apply holds_cons in He' as [[-> ?] | ?]; done.
    + rewrite elem_of_cons, IH. split.
      * intros [-> | (e' & He' & Hk)].
        -- exists e. split; [apply holds_cons; by left | done].
        -- exists e'. split; [apply holds_cons; by right | done].
      * intros (e' & He' & Hk). apply holds_cons in He' as [[-> ?] | ?];
          [by left | right; eauto].
Qed.

Lemma length_keys_of es : Z.of_nat (length (keys_of es)) = live_count shash1 es.
Proof.
  induction es as [| e es IH]; cbn [keys_of live_count]; [done |].
  unfold weight. destruct (shash1 e =? 0); cbn [length]; lia.
Qed.

Lemma NoDup_keys_of es :
  distinct shash1 skey es -> tagged_entries es -> NoDup (keys_of es).
Proof.
  induction es as [| e es IH]; intros Hd Ht; cbn [keys_of]; [constructor |].
  apply distinct_cons in Hd as [Hd He].
  apply tagged_entries_cons in Ht as [Hte Ht].
  destruct (Z.eqb_spec (shash1 e) 0) as [Hz | Hnz]; [by apply IH |].
  constructor; [| by apply IH].
  intros (e' & He' & Hk)%elem_keys_of. apply (He Hnz). exists e'.
  split; [done |]. split; [| done]. rewrite (Ht e' He'), (Hte Hnz). by rewrite Hk.
Qed.

Lemma xor_keys_of es : tagged_entries es -> xor_all shash1 es = xor_tags (keys_of es).
Proof.
  induction es as [| e es IH]; intros Ht; cbn [keys_of xor_all]; [done |].
  apply tagged_entries_cons in Ht as [Hte Ht]. rewrite (IH Ht).
  destruct (Z.eqb_spec (shash1 e) 0) as [Hz | Hnz].
  - by rewrite Hz, Z.lxor_0_l.
  - cbn [xor_tags]. by rewrite (Hte Hnz).
Qed.

Lemma xor_tags_perm l l' : l ≡ₚ l' -> xor_tags l = xor_tags l'.
Proof.
  induction 1 as [| k l l' _ IH | k k' l | l l' l'' _ IH1 _ IH2]; cbn [xor_tags].
  - done.
  - by rewrite IH.
  - rewrite <- !Z.lxor_assoc. by rewrite (Z.lxor_comm (tag k') (tag k)).
  - congruence.
Qed.

Lemma distinct_conv es :
  distinct hash1 key (conv <$> es) -> distinct shash1 skey es.
Proof.
  intros Hd p q e e' Hp Hq Hg Hg' Hl Hh Hk.
  apply (Hd p q (conv e) (conv e')); try done; rewrite get_conv; by rewrite ?Hg, ?Hg'.
Qed.

Lemma live_count_conv es : live_count hash1 (conv <$> es) = live_count shash1 es.
Proof.
  induction es as [| e es IH]; cbn [fmap list_fmap live_count]; [done |].
  by rewrite IH.
Qed.

Lemma Set_mem_keys s k : Set_mem s k <-> k ∈ keys_of (sentries s).
Proof. by rewrite elem_keys_of. Qed.

(** What the fields of a well-formed set say about its keys. *)
Lemma Set_wf_keys s :
  Set_wf s ->
  NoDup (keys_of (sentries s)) /\
  ssize s = Z.of_nat (length (keys_of (sentries s))) /\
  (sentries s <> [] ->
   shash s = Z.lxor emptySetHash (xor_tags (keys_of (sentries s)))).
Proof.
  intros Hwf. pose proof (Set_wf_tagged s Hwf) as Ht.
  destruct Hwf as [[Hnil Hs0] | [Hwf Hh]].
  - rewrite Hnil. cbn [keys_of length]. split; [constructor |]. done.
  - destruct Hwf as ((_ & _ & Hd & _) & _ & Hsz & _).
    cbn [entries size to_map] in Hd, Hsz.
    split; [apply NoDup_keys_of; [by apply distinct_conv | done] |].
    split; [by rewrite length_keys_of, <- live_count_conv |].
    intros _. by rewrite <- xor_keys_of.
Qed.

Lemma same_keys_perm s t :
  Set_wf s -> Set_wf t -> (forall k, Set_mem s k <-> Set_mem t k) ->
  keys_of (sentries s) ≡ₚ keys_of (sentries t).
Proof.
  intros Hs Ht Hmem. apply NoDup_Permutation; [apply (Set_wf_keys s Hs) | apply (Set_wf_keys t Ht) |].
  intros k. by rewrite <- !Set_mem_keys.
Qed.

Lemma subset_same_size s t :
  Set_wf s -> Set_wf t -> ssize s = ssize t ->
  (forall k, Set_mem s k -> Set_mem t k) ->
  forall k, Set_mem s k <-> Set_mem t k.
Proof.
  intros Hs Ht Hsz Hsub.
  destruct (Set_wf_keys s Hs) as (Hnd & Hls & _).
  destruct (Set_wf_keys t Ht) as (_ & Hlt & _).
  assert (Hperm : keys_of (sentries s) ≡ₚ keys_of (sentries t)).
  { apply submseteq_length_Permutation; [| lia].
    apply NoDup_submseteq; [done |]. intros k. rewrite <- !Set_mem_keys. apply Hsub. }
  intros k. by rewrite !Set_mem_keys, Hperm.
Qed.

(** The loop of [Equals] and [IsSubset]. *)
Lemma all_in_spec fuel es t :
  Set_table_wf t -> tagged_entries es -> len (sentries t) <= Z.of_nat fuel ->
  exists b, Set_all_in fuel es t = Ok b /\
    (b = true <-> forall e, holds shash1 es e -> Set_mem t (skey e)).
Proof.
  intros Hwf Ht Hfuel. induction es as [| e es IH]; cbn [Set_all_in].
  - exists true. split; [done |]. split; [| done]. intros _ e He.
    by apply holds_nil in He.
  - apply tagged_entries_cons in Ht as [Hte Ht]. destruct (IH Ht) as (b & Hrun & Hb).
    destruct (Z.eqb_spec (shash1 e) 0) as [Hz | Hnz].
    + exists b. split; [done |]. rewrite Hb. split; intros Hall e' He'.
      * apply holds_cons in He' as [[-> ?] | ?]; [done | by apply Hall].
      * apply Hall. apply holds_cons. by right.
    + rewrite (Hte Hnz).
      pose proof (containsHash1Key_wf t (skey e) fuel Hwf) as Hc.
      destruct (Set_containsHash1Key fuel t (tag (skey e)) (skey e)) as [c | |];
        [| done | lia].
      cbn [bind]. destruct c.
      * exists b. split; [done |]. rewrite Hb. split; intros Hall e' He'.
        -- apply holds_cons in He' as [[-> ?] | ?]; [by apply Hc | by apply Hall].
        -- apply Hall. apply holds_cons. by right.
      * exists false. split; [done |]. split; [done |]. intros Hall.
        apply Hc. apply Hall. apply holds_cons. by left.
Qed.

Lemma Set_Hash_nonempty s : ssize s <> 0 -> Set_Hash s = shash s.
Proof. intros Hs. unfold Set_Hash. by destruct (Z.eqb_spec (ssize s) 0). Qed.

Lemma Equals_spec fuel s t :
  Set_wf s -> Set_wf t ->
  len (sentries s) <= Z.of_nat fuel -> len (sentries t) <= Z.of_nat fuel ->
  exists b, Set_Equals fuel s t = Ok b /\
    (b = true <-> forall k, Set_mem s k <-> Set_mem t k).
Proof.
  intros Hs Ht Hfs Hft. unfold Set_Equals.
  destruct (Set_wf_keys s Hs) as (Hnds & Hls & Hhs).
  destruct (Set_wf_keys t Ht) as (Hndt & Hlt & Hht).
  destruct (Z.eqb_spec (ssize s) (ssize t)) as [Hsz | Hsz]; cbn [negb].
  2:{ exists false. split; [done |]. split; [done |]. intros Hmem. exfalso.
      apply Hsz. rewrite Hls, Hlt. f_equal. apply Permutation_length.
      by apply same_keys_perm. }
  destruct (Z.eqb_spec (ssize s) 0) as [Hs0 | Hs0].
  { exists true. split; [done |]. split; [| done]. intros _ k.
    split; intros Hm; exfalso;
      [by apply (Set_wf_size0 s k) | apply (Set_wf_size0 t k); [done | lia | done]]. }
  assert (Hts : Set_table_wf s) by (destruct Hs as [[_ ?] | ?]; done).
  assert (Htt : Set_table_wf t) by (destruct Ht as [[_ ?] | ?]; [lia | done]).
  rewrite !Set_Hash_nonempty by lia.
  destruct (Z.eqb_spec (shash s) (shash t)) as [Hh | Hh]; cbn [negb].
  2:{ exists false. split; [done |]. split; [done |]. intros Hmem. exfalso.
      apply Hh. rewrite Hhs, Hht by by apply Set_table_wf_nonnil.
      f_equal. apply xor_tags_perm. by apply same_keys_perm. }
  unfold swap_if_longer. destruct (_ >? _).
  - destruct (all_in_spec fuel (sentries t) s) as (b & Hrun & Hb);
      [done | by apply Set_wf_tagged | done |].
    exists b. split; [done |]. rewrite Hb. split.
    + intros Hall k. symmetry. revert k. apply subset_same_size; try done.
      intros k (e & He & <-). by apply Hall.
    + intros Hmem e He. apply Hmem. by exists e.
  - destruct (all_in_spec fuel (sentries s) t) as (b & Hrun & Hb);
      [done | by apply Set_wf_tagged | done |].
    exists b. split; [done |]. rewrite Hb. split.
    + intros Hall. apply subset_same_size; try done.
      intros k (e & He & <-). by apply Hall.
    + intros Hmem e He. apply Hmem. by exists e.
Qed.

(** The set built by adding the keys of a list, first to last, to the
    zero value. *)
Inductive Set_built : list K -> HashSet K -> Prop :=
| Set_built_nil : Set_built [] zero
| Set_built_add l s fuel k s' :
    Set_built l s -> Set_Add fuel s k = Ok s' -> Set_built (l ++ [k]) s'.

Lemma Set_built_reachable l s : Set_built l s -> Set_reachable s.
Proof.
  induction 1 as [| l s fuel k s' _ IH Hadd]; [constructor |].
  by apply (Set_reach_Add s fuel k).
Qed.

Lemma Set_built_mem l s : Set_built l s -> forall k, Set_mem s k <-> k ∈ l.
Proof.
  induction 1 as [| l s fuel k s' Hb IH Hadd]; intros k'.
  - split; [intros Hm; by apply Set_mem_nil in Hm | by intros ?%elem_of_nil].
  - pose proof (Add_wf s k fuel (Set_reachable_wf s (Set_built_reachable l s Hb))) as Hw.
    rewrite Hadd in Hw. destruct Hw as (_ & Hmem & _).
    rewrite Hmem, IH, elem_of_app, list_elem_of_singleton. done.
Qed.

End SetKeys.

(** * The claims of the specification *)

(** ** Concrete runs *)

#[export] Instance IdKey_laws : ComparableLaws IdKey.
Proof.
  split.
  - intros k. unfold Hash, IdKey_Comparable, uint64. apply Z.mod_pos_bound. lia.
  - intros a b. apply Z.eqb_eq.
Qed.

Lemma example_runtime_laws : @RuntimeLaws example_runtime.
Proof. split; cbn; lia. Qed.

#[export] Instance Z_zero : Zero Z := 0.

(** The state a sequence of calls leaves, when every call returns. *)
Definition force {A : Type} (default : A) (r : result A) : A :=
  match r with
  | Ok a => a
  | _ => default
  end.

Section Runs.
#[local] Existing Instance example_runtime.
#[local] Existing Instance example_runtime_laws.

Fixpoint Set_Add_list (fuel : nat) (ks : list IdKey) (s : HashSet IdKey)
    : result (HashSet IdKey) :=
  match ks with
  | [] => Ok s
  | k :: ks' => s' <- Set_Add fuel s k ;; Set_Add_list fuel ks' s'
  end.

Fixpoint Set_Remove_list (fuel : nat) (ks : list IdKey) (s : HashSet IdKey)
    : result (HashSet IdKey) :=
  match ks with
  | [] => Ok s
  | k :: ks' => s' <- Set_Remove fuel s k ;; Set_Remove_list fuel ks' s'
  end.

(** [{5}] *)
Definition set_5 : HashSet IdKey := force zero (Set_Add 40 zero 5).

(** [{0, ..., 11}]: twelve keys in a backing array of 16 slots. *)
Definition set_12 : HashSet IdKey :=
  force zero (Set_Add_list 40 [0; 1; 2; 3; 4; 5; 6; 7; 8; 9; 10; 11] zero).

(** [{0, ..., 12}]: the thirteenth key doubles the backing array to 32. *)
Definition set_13 : HashSet IdKey := force zero (Set_Add 80 set_12 12).

(** [{0, ..., 7}], still in 32 slots: one more removal will halve them. *)
Definition set_8 : HashSet IdKey :=
  force zero (Set_Remove_list 80 [12; 11; 10; 9; 8] set_13).

(** The map [{1: 10}]. *)
Definition map_1_10 : Map IdKey Z := force zero (Map_Put 40 zero 1 10).

Lemma set_5_reachable : Set_reachable set_5.
Proof. apply (Set_reach_Add zero 40 5); [constructor | reflexivity]. Defined.

Lemma Set_Add_list_reachable fuel ks : forall s s',
  Set_reachable s -> Set_Add_list fuel ks s = Ok s' -> Set_reachable s'.
Proof.
  induction ks as [| k ks IH]; intros s s' Hs; cbn [Set_Add_list].
  - by intros [= <-].
  - destruct (Set_Add fuel s k) as [s1 | |] eqn:Ha; cbn [bind]; try done.
    apply IH. by apply (Set_reach_Add s fuel k).
Defined.

Lemma Set_Remove_list_reachable fuel ks : forall s s',
  Set_reachable s -> Set_Remove_list fuel ks s = Ok s' -> Set_reachable s'.
Proof.
  induction ks as [| k ks IH]; intros s s' Hs; cbn [Set_Remove_list].
  - by intros [= <-].
  - destruct (Set_Remove fuel s k) as [s1 | |] eqn:Ha; cbn [bind]; try done.
    apply IH. by apply (Set_reach_Remove s fuel k).
Defined.

Lemma set_12_reachable : Set_reachable set_12.
Proof.
  apply (Set_Add_list_reachable 40 [0; 1; 2; 3; 4; 5; 6; 7; 8; 9; 10; 11] zero);
    [constructor | vm_compute; reflexivity].
Defined.

Lemma set_13_reachable : Set_reachable set_13.
Proof.
  apply (Set_reach_Add set_12 80 12); [apply set_12_reachable | vm_compute; reflexivity].
Defined.

Lemma set_8_reachable : Set_reachable set_8.
Proof.
  apply (Set_Remove_list_reachable 80 [12; 11; 10; 9; 8] set_13);
    [apply set_13_reachable | vm_compute; reflexivity].
Defined.

Lemma map_1_10_reachable : Map_reachable map_1_10.
Proof. apply (Map_reach_Put zero 40 1 10); [constructor | reflexivity]. Defined.

Example set_8_shape :
  len (sentries set_8) = 32 /\ ssize set_8 = 8 /\
  keys_of (sentries set_8) = [0; 1; 2; 3; 4; 5; 6; 7].
Proof. vm_compute. done. Qed.

End Runs.

(** ** C1: [Put] on a key already present *)

Section PutPresent.
Context {rt : Runtime} {rtl : RuntimeLaws}.
Context {K : Type} {cmp : Comparable K} {laws : ComparableLaws K} {zk : Zero K}.
Context {V : Type} {zv : Zero V}.

Lemma probe_Ok_nonnil {E : Type} (eh : E -> Z) (ek : E -> K) fuel (t : list E) h k i r :
  probe eh ek fuel t h k i = Ok r -> exists f, fuel = S f /\ t <> [].
Proof.
  destruct fuel as [| f]; cbn [probe]; [done |]. intros Hp. exists f. split; [done |].
  intros ->. by rewrite at_index_get in Hp.
Qed.

(** When [Get] finds the key, [Put] finds it too, assigns the value to its
    local copy of the entry and returns: the map is the same. *)
Lemma Put_found_unchanged (m : Map K V) (k : K) (v0 v : V) (fuel : nat) :
  Map_Get fuel m k = Ok (v0, true) -> Map_Put fuel m k v = Ok m.
Proof.
  intros Hget. unfold Map_Get in Hget.
  destruct (size m =? 0); [done |].
  destruct (probe hash1 key fuel (entries m) _ k _) as [[i e | i] | |] eqn:Hp;
    cbn [bind] in Hget; try done.
  destruct (probe_Ok_nonnil _ _ _ _ _ _ _ _ Hp) as (f & -> & Hnn).
  unfold Map_Put. destruct (entries m) as [| e0 t0] eqn:Hent; [done |].
  cbn [bind Map_putHash1]. rewrite Hent, Hp. done.
Qed.

(** C1, what the code does: when [Get] finds [k] with value [v0],
    [Put(k, v)] returns the map as it was and [Get(k)] still returns
    [(v0, true)]: the stored value is not updated (the size is unchanged, as
    the claim says). *)
Theorem C1_Put_present_keeps_old_value (m : Map K V) (k : K) (v0 v : V) (fuel : nat) :
  Map_Get fuel m k = Ok (v0, true) ->
  exists m', Map_Put fuel m k v = Ok m' /\ Map_Size m' = Map_Size m /\
    Map_Get fuel m' k = Ok (v0, true).
Proof.
  intros Hget. exists m. split; [| done]. by apply (Put_found_unchanged m k v0).
Qed.

End PutPresent.

(** ** C2: sequences of operations *)

Section Traces.
Context {rt : Runtime} {rtl : RuntimeLaws}.
Context {K : Type} {cmp : Comparable K} {laws : ComparableLaws K} {zk : Zero K}.
Context {V : Type} {zv : Zero V}.

Inductive map_op : Type :=
| OpPut (k : K) (v : V)
| OpRemove (k : K).

Inductive set_op : Type :=
| OpAdd (k : K)
| OpDelete (k : K).

Definition Map_do (fuel : nat) (m : Map K V) (op : map_op) : result (Map K V) :=
  match op with
  | OpPut k v => Map_Put fuel m k v
  | OpRemove k => Map_Remove fuel m k
  end.

Definition Set_do (fuel : nat) (s : HashSet K) (op : set_op) : result (HashSet K) :=
  match op with
  | OpAdd k => Set_Add fuel s k
  | OpDelete k => Set_Remove fuel s k
  end.

(** The calls of [ops], first to last. *)
Fixpoint Map_run (fuel : nat) (ops : list map_op) (m : Map K V) : result (Map K V) :=
  match ops with
  | [] => Ok m
  | op :: ops' => m' <- Map_do fuel m op ;; Map_run fuel ops' m'
  end.

Fixpoint Set_run (fuel : nat) (ops : list set_op) (s : HashSet K)
    : result (HashSet K) :=
  match ops with
  | [] => Ok s
  | op :: ops' => s' <- Set_do fuel s op ;; Set_run fuel ops' s'
  end.

(** The specification's reading of a sequence of operations: the value
    associated with [k] is the one of the last [Put(k, _)], unless a
    [Remove(k)] came after it.  [now] is the association before [ops]. *)
Fixpoint spec_last_value (ops : list map_op) (k : K) (now : option V) : option V :=
  match ops with
  | [] => now
  | OpPut k' v :: ops' =>
      spec_last_value ops' k (if Equals k' k then Some v else now)
  | OpRemove k' :: ops' =>
      spec_last_value ops' k (if Equals k' k then None else now)
  end.

(** What the program keeps: a [Put] on a key that has a value leaves that
    value. *)
Fixpoint kept_value (ops : list map_op) (k : K) (now : option V) : option V :=
  match ops with
  | [] => now
  | OpPut k' v :: ops' =>
      kept_value ops' k
        (if Equals k' k then match now with Some v0 => Some v0 | None => Some v end
         else now)
  | OpRemove k' :: ops' =>
      kept_value ops' k (if Equals k' k then None else now)
  end.

(** What [Get] returns for an association. *)
Definition answer (now : option V) : V * bool :=
  match now with
  | Some v => (v, true)
  | None => (zero, false)
  end.

(** Is [k] a member after [ops]?  [now] tells whether it was before. *)
Fixpoint member (ops : list set_op) (k : K) (now : bool) : bool :=
  match ops with
  | [] => now
  | OpAdd k' :: ops' => member ops' k (Equals k' k || now)
  | OpDelete k' :: ops' => member ops' k (negb (Equals k' k) && now)
  end.

(** The map [m] holds the associations [f]. *)
Definition models (m : Map K V) (f : K -> option V) : Prop :=
  forall k v,
    holds hash1 (entries m) {| hash1 := tag k; key := k; value := v |}
    <-> f k = Some v.

(** The set [s] has the members [f]. *)
Definition has_members (s : HashSet K) (f : K -> bool) : Prop :=
  forall k, Set_mem s k <-> f k = true.

Lemma Map_wf_len_bound (m : Map K V) :
  Map_wf m -> 0 <= size m /\ len (entries m) <= Z.max 16 (4 * size m).
Proof.
  intros [[Hnil Hs0] | (_ & Hcap & Hsz & _ & Hlow)].
  - rewrite Hnil, Hs0. unfold len. cbn [length]. lia.
  - pose proof (live_count_range hash1 (entries m)). lia.
Qed.

Lemma Set_wf_len_bound (s : HashSet K) :
  Set_wf s -> 0 <= ssize s /\ len (sentries s) <= Z.max 16 (4 * ssize s).
Proof.
  intros [[Hnil Hs0] | [(_ & Hcap & Hsz & _ & Hlow) _]].
  - rewrite Hnil, Hs0. unfold len. cbn [length]. lia.
  - cbn [entries size to_map] in Hcap, Hsz, Hlow. rewrite len_conv in Hcap, Hlow.
    pose proof (live_count_range hash1 (conv <$> sentries s)). lia.
Qed.

Lemma Set_subset_size (s t : HashSet K) :
  Set_wf s -> Set_wf t -> (forall k, Set_mem s k -> Set_mem t k) ->
  ssize s <= ssize t.
Proof.
  intros Hs Ht Hsub.
  destruct (Set_wf_keys s Hs) as (Hnd & -> & _).
  destruct (Set_wf_keys t Ht) as (_ & -> & _).
  apply inj_le, submseteq_length, NoDup_submseteq; [done |].
  intros k. rewrite <- !Set_mem_keys. apply Hsub.
Qed.

Lemma models_has_key (m : Map K V) f k :
  Map_wf m -> models m f ->
  (has_key hash1 key (entries m) (tag k) k <-> f k <> None).
Proof.
  intros Hwf Hmod. split.
  - intros (e & He & Hh & Hk) Hnone.
    assert (Hf : f k = Some (value e)); [| congruence].
    apply Hmod. rewrite <- Hh, <- Hk. by rewrite mapEntry_eta.
  - destruct (f k) as [v |] eqn:Hf; [intros _ | done].
    apply Hmod in Hf. by exists {| hash1 := tag k; key := k; value := v |}.
Qed.

(** One call keeps the map in step with [kept_value]. *)
Lemma Map_do_models (fuel n : nat) (m : Map K V) f op :
  Map_wf m -> size m <= Z.of_nat n -> models m f ->
  32 + 8 * Z.of_nat n <= maxAlloc -> 32 + 8 * Z.of_nat n < Z.of_nat fuel ->
  exists m', Map_do fuel m op = Ok m' /\ Map_wf m' /\ size m' <= Z.of_nat (S n) /\
    models m' (fun k => kept_value [op] k (f k)).
Proof.
  intros Hwf Hsz Hmod Hmax Hfuel.
  destruct (Map_wf_len_bound m Hwf) as [Hs0 Hlen].
  pose proof (fun k => models_has_key m f k Hwf Hmod) as Hkey.
  destruct op as [k v | k]; cbn [Map_do kept_value].
  - pose proof (Put_wf m k v fuel Hwf) as Hput.
    destruct (Map_Put fuel m k v) as [m' | |]; [| exfalso; lia | exfalso; lia].
    destruct Hput as (Hwf' & Hh & Hsame & _ & Hnew & _).
    exists m'. split; [done |]. split; [by right |]. split.
    + destruct (f k) as [u |] eqn:Hf.
      * rewrite Hsame; [lia |]. apply Hkey. congruence.
      * rewrite Hnew; [lia |]. intros Hhas. by apply Hkey in Hhas.
    + intros k0 v0. rewrite Hh.
      destruct (Equals k k0) eqn:Heq.
      * apply Equals_eq in Heq as <-. destruct (f k) as [u |] eqn:Hf.
        -- split.
           ++ intros [Hx | [Hno _]]; [apply Hmod in Hx; congruence |].
              exfalso. apply Hno, Hkey. congruence.
           ++ intros [= <-]. left. by apply Hmod.
        -- split.
           ++ intros [Hx | [_ Hx]]; [apply Hmod in Hx; congruence |].
              by injection Hx as ->.
           ++ intros [= <-]. right. split; [| done].
              intros Hhas. by apply Hkey in Hhas.
      * assert (Hne : k <> k0).
        { intros ->. assert (Equals k0 k0 = true) by by apply Equals_eq. congruence. }
        rewrite <- (Hmod k0 v0). split; [| by left].
        intros [Hx | [_ Hx]]; [done |]. injection Hx as _ ?. done.
  - pose proof (Remove_wf m k fuel Hwf) as Hrem.
    destruct (Map_Remove fuel m k) as [m' | |]; [| done | exfalso; lia].
    destruct Hrem as (Hwf' & Hh & Hle).
    exists m'. split; [done |]. split; [done |]. split; [lia |].
    intros k0 v0. rewrite Hh. cbn [key].
    destruct (Equals k k0) eqn:Heq.
    + apply Equals_eq in Heq as <-. split; [by intros [_ ?] | done].
    + assert (Hne : k0 <> k).
      { intros ->. assert (Equals k k = true) by by apply Equals_eq. congruence. }
      rewrite <- (Hmod k0 v0). tauto.
Qed.

Lemma kept_value_cons op ops k now :
  kept_value (op :: ops) k now = kept_value ops k (kept_value [op] k now).
Proof. by destruct op. Qed.

Lemma Map_run_models (fuel : nat) ops : forall (n : nat) (m : Map K V) f,
  Map_wf m -> size m <= Z.of_nat n -> models m f ->
  32 + 8 * Z.of_nat (n + length ops) <= maxAlloc ->
  32 + 8 * Z.of_nat (n + length ops) < Z.of_nat fuel ->
  exists m', Map_run fuel ops m = Ok m' /\ Map_wf m' /\
    size m' <= Z.of_nat (n + length ops) /\
    models m' (fun k => kept_value ops k (f k)).
Proof.
  induction ops as [| op ops IH]; intros n m f Hwf Hsz Hmod Hmax Hfuel.
  - exists m. cbn [Map_run length kept_value]. rewrite Nat.add_0_r. done.
  - cbn [length] in Hmax, Hfuel.
    destruct (Map_do_models fuel n m f op) as (m1 & Hdo & Hwf1 & Hsz1 & Hmod1);
      try done; try lia.
    destruct (IH (S n) m1 _ Hwf1 Hsz1 Hmod1) as (m' & Hrun & Hwf' & Hsz' & Hmod');
      [lia | lia |].
    exists m'. cbn [Map_run length]. rewrite Hdo. cbn [bind].
    split; [done |]. split; [done |]. split; [lia |].
    intros k v. rewrite kept_value_cons. apply Hmod'.
Qed.

Lemma Set_do_members (fuel n : nat) (s : HashSet K) f op :
  Set_wf s -> ssize s <= Z.of_nat n -> has_members s f ->
  32 + 8 * Z.of_nat n <= maxAlloc -> 32 + 8 * Z.of_nat n < Z.of_nat fuel ->
  exists s', Set_do fuel s op = Ok s' /\ Set_wf s' /\ ssize s' <= Z.of_nat (S n) /\
    has_members s' (fun k => member [op] k (f k)).
Proof.
  intros Hwf Hsz Hmem Hmax Hfuel.
  destruct (Set_wf_len_bound s Hwf) as [Hs0 Hlen].
  destruct op as [k | k]; cbn [Set_do member].
  - pose proof (Add_wf s k fuel Hwf) as Hadd.
    destruct (Set_Add fuel s k) as [s' | |]; [| exfalso; lia | exfalso; lia].
    destruct Hadd as (Hwf' & Hm & Hsame & Hnew & _).
    exists s'. split; [done |]. split; [by right |]. split.
    + destruct (f k) eqn:Hf.
      * apply Hmem in Hf. apply Hsame in Hf.
        apply (f_equal size) in Hf. cbn [size to_map] in Hf. lia.
      * rewrite Hnew; [lia |]. intros Hin%Hmem. congruence.
    + intros k0. rewrite Hm, (Hmem k0), orb_true_iff, Equals_eq.
      split; intros [? | ?]; auto.
  - pose proof (Remove_set_wf s k fuel Hwf) as Hrem.
    destruct (Set_Remove fuel s k) as [s' | |]; [| done | exfalso; lia].
    destruct Hrem as (Hwf' & Hm).
    exists s'. split; [done |]. split; [done |]. split.
    + assert (ssize s' <= ssize s); [| lia].
      apply Set_subset_size; try done. intros k0 Hk0. by apply Hm in Hk0 as [? _].
    + intros k0. rewrite Hm, (Hmem k0), andb_true_iff, negb_true_iff.
      split; intros [H1 H2].
      * split; [| done]. destruct (Equals k k0) eqn:Heq; [| done].
        apply Equals_eq in Heq. congruence.
      * split; [done |]. intros ->.
        assert (Equals k k = true) by by apply Equals_eq. congruence.
Qed.

Lemma member_cons op ops k now :
  member (op :: ops) k now = member ops k (member [op] k now).
Proof. by destruct op. Qed.

Lemma Set_run_members (fuel : nat) ops : forall (n : nat) (s : HashSet K) f,
  Set_wf s -> ssize s <= Z.of_nat n -> has_members s f ->
  32 + 8 * Z.of_nat (n + length ops) <= maxAlloc ->
  32 + 8 * Z.of_nat (n + length ops) < Z.of_nat fuel ->
  exists s', Set_run fuel ops s = Ok s' /\ Set_wf s' /\
    ssize s' <= Z.of_nat (n + length ops) /\
    has_members s' (fun k => member ops k (f k)).
Proof.
  induction ops as [| op ops IH]; intros n s f Hwf Hsz Hmem Hmax Hfuel.
  - exists s. cbn [Set_run length member]. rewrite Nat.add_0_r. done.
  - cbn [length] in Hmax, Hfuel.
    destruct (Set_do_members fuel n s f op) as (s1 & Hdo & Hwf1 & Hsz1 & Hmem1);
      try done; try lia.
    destruct (IH (S n) s1 _ Hwf1 Hsz1 Hmem1) as (s' & Hrun & Hwf' & Hsz' & Hmem');
      [lia | lia |].
    exists s'. cbn [Set_run length]. rewrite Hdo. cbn [bind].
    split; [done |]. split; [done |]. split; [lia |].
    intros k. rewrite member_cons. apply Hmem'.
Qed.

(** The values kept and the values of the specification are present for
    the same keys. *)
Lemma kept_value_None ops k : forall a b : option V,
  (a = None <-> b = None) ->
  (kept_value ops k a = None <-> spec_last_value ops k b = None).
Proof.
  induction ops as [| [k' v | k'] ops IH]; intros a b Hab;
    cbn [kept_value spec_last_value]; [done | |].
  - apply IH. destruct (Equals k' k); [| done]. by destruct a.
  - apply IH. by destruct (Equals k' k).
Qed.

(** C2, what the code does.  Every sequence of [Put] and [Remove] on the
    zero map returns (given fuel and an allocation limit linear in its
    length), and [Get(k)] then returns the value kept for [k]: found or not
    as the claim says, but with the value of the first [Put(k, _)] since [k]
    was last absent, not of the last.  After [Put(k, v1)] and [Put(k, v2)]
    with [v1 <> v2] the two differ.  Every sequence of [Add] and [Remove] on
    the zero set returns, and [Contains(k)] then tells whether [k] was added
    and not removed since, as the claim says. *)
Theorem C2_sequences_Get_first_value (fuel : nat) :
  (forall ops : list map_op,
     32 + 8 * Z.of_nat (length ops) <= maxAlloc ->
     32 + 8 * Z.of_nat (length ops) < Z.of_nat fuel ->
     exists m, Map_run fuel ops zero = Ok m /\
       forall k, Map_Get fuel m k = Ok (answer (kept_value ops k None)) /\
         (kept_value ops k None = None <-> spec_last_value ops k None = None))
  /\
  (forall (k : K) (v1 v2 : V),
     kept_value [OpPut k v1; OpPut k v2] k None = Some v1 /\
     spec_last_value [OpPut k v1; OpPut k v2] k None = Some v2)
  /\
  (forall ops : list set_op,
     32 + 8 * Z.of_nat (length ops) <= maxAlloc ->
     32 + 8 * Z.of_nat (length ops) < Z.of_nat fuel ->
     exists s, Set_run fuel ops zero = Ok s /\
       forall k, Set_Contains fuel s k = Ok (member ops k false)).
Proof.
  split; [| split].
  - intros ops Hmax Hfuel.
    destruct (Map_run_models fuel ops 0 (zero : Map K V) (fun _ => None))
      as (m & Hrun & Hwf & Hsz & Hmod); try done.
    { by left. }
    { intros k v. split; [intros Hx; by apply holds_nil in Hx | done]. }
    exists m. split; [done |]. intros k. split.
    + destruct (Map_wf_len_bound m Hwf) as [Hs0 Hlen].
      cbn [Nat.add] in Hsz.
      pose proof (Get_wf m k fuel Hwf) as Hget.
      pose proof (models_has_key m _ k Hwf Hmod) as Hkey. cbn beta in Hkey.
      destruct (Map_Get fuel m k) as [[v b] | |]; [| done | exfalso; lia].
      destruct Hget as [[-> Hx] | (-> & -> & Hno)].
      * apply Hmod in Hx. by rewrite Hx.
      * destruct (kept_value ops k None) as [u |]; [| done].
        exfalso. apply Hno, Hkey. done.
    + by apply kept_value_None.
  - intros k v1 v2. cbn [kept_value spec_last_value].
    assert (Heq : Equals k k = true) by by apply Equals_eq.
    by rewrite Heq.
  - intros ops Hmax Hfuel.
    destruct (Set_run_members fuel ops 0 (zero : HashSet K) (fun _ => false))
      as (s & Hrun & Hwf & Hsz & Hmem); try done.
    { by left. }
    { intros k. split; [intros Hm; by apply Set_mem_nil in Hm | done]. }
    exists s. split; [done |]. intros k.
    destruct (Set_wf_len_bound s Hwf) as [Hs0 Hlen]. cbn [Nat.add] in Hsz.
    pose proof (Contains_wf s k fuel Hwf) as Hc.
    destruct (Set_Contains fuel s k) as [b | |]; [| done | exfalso; lia].
    f_equal. specialize (Hmem k). cbn beta in Hmem.
    destruct b, (member ops k false); try done.
    + symmetry. apply Hmem, Hc. done.
    + apply Hc, Hmem. done.
Qed.

End Traces.

(** ** C7: the zero value *)

Section ZeroValue.
Context {rt : Runtime} {rtl : RuntimeLaws}.
Context {K : Type} {cmp : Comparable K} {laws : ComparableLaws K} {zk : Zero K}.
Context {V : Type} {zv : Zero V}.

(** C7: the zero [Map] and the zero [Set] have no backing array and behave
    as empty containers: [Size] is 0, [Get] finds nothing, [Contains] is
    false, [Remove] changes nothing, [ForEach] calls its visitor on nothing
    and returns nil.  These calls return even with no fuel at all and on an
    array of length zero, where any read would panic: they do not read the
    array.  The first [Put] or [Add] returns a container of capacity 16. *)
Theorem C7_zero_value_is_empty_container :
  (entries (zero : Map K V) = [] /\
   Map_Size (zero : Map K V) = 0 /\
   (forall fuel k, Map_Get fuel (zero : Map K V) k = Ok (zero, false)) /\
   (forall fuel k, Map_Remove fuel (zero : Map K V) k = Ok zero) /\
   (forall (S Err : Type) (f : K -> V -> S -> S * option Err) st,
      Map_ForEach f zero st = (st, None)) /\
   (forall fuel k v, (32 < fuel)%nat ->
      exists m', Map_Put fuel zero k v = Ok m' /\ len (entries m') = 16 /\
        Map_Size m' = 1))
  /\
  (sentries (zero : HashSet K) = [] /\
   Set_Size (zero : HashSet K) = 0 /\
   (forall fuel k, Set_Contains fuel (zero : HashSet K) k = Ok false) /\
   (forall fuel k, Set_Remove fuel (zero : HashSet K) k = Ok zero) /\
   (forall (S Err : Type) (f : K -> S -> S * option Err) st,
      Set_ForEach f zero st = (st, None)) /\
   (forall fuel k, (32 < fuel)%nat ->
      exists s', Set_Add fuel zero k = Ok s' /\ len (sentries s') = 16 /\
        Set_Size s' = 1)).
Proof.
  pose proof maxAlloc_range as Hmax. split.
  - repeat (split; [done |]). intros fuel k v Hfuel.
    pose proof (Put_wf (zero : Map K V) k v fuel ltac:(by left)) as Hput.
    destruct (Map_Put fuel zero k v) as [m' | |];
      [| exfalso; unfold len in Hput; cbn in Hput; lia
       | unfold len in Hput; cbn in Hput; lia].
    destruct Hput as (Hwf' & _ & _ & _ & Hsz & Hlen).
    exists m'. split; [done |]. split.
    + destruct Hwf' as (_ & Hcap' & _).
      change (len (entries (zero : Map K V))) with 0 in Hlen. lia.
    + unfold Map_Size. rewrite Hsz; [done |].
      intros (x & Hx & _). by apply holds_nil in Hx.
  - repeat (split; [done |]). intros fuel k Hfuel.
    pose proof (Add_wf (zero : HashSet K) k fuel ltac:(by left)) as Hadd.
    destruct (Set_Add fuel zero k) as [s' | |];
      [| exfalso; unfold len in Hadd; cbn in Hadd; lia
       | unfold len in Hadd; cbn in Hadd; lia].
    destruct Hadd as ([(_ & Hcap' & _) _] & _ & _ & Hsz & Hlen).
    cbn [entries to_map] in Hcap'. rewrite len_conv in Hcap'.
    exists s'. split; [done |]. split.
    + change (len (sentries (zero : HashSet K))) with 0 in Hlen. lia.
    + unfold Set_Size. rewrite Hsz; [done |]. by apply Set_mem_nil.
Qed.

End ZeroValue.

(** ** C8: [ForEach] *)

Section Visiting.
Context {X S Err : Type}.
Variable g : X -> S -> S * option Err.

(** The state of the visitor after it was called on every element of
    [xs], first to last. *)
Fixpoint visited (xs : list X) (st : S) : S :=
  match xs with
  | [] => st
  | x :: xs' => visited xs' (fst (g x st))
  end.

(** What a fail-fast iteration over [xs] returns: either no call erred,
    every element was visited and the result is nil; or the calls stopped at
    the first element [x] whose call erred, the state is the one that call
    left, and its error is the result. *)
Definition fail_fast (xs : list X) (st : S) (res : S * option Err) : Prop :=
  match res with
  | (st', None) =>
      st' = visited xs st /\
      forall pre x post, xs = pre ++ x :: post -> snd (g x (visited pre st)) = None
  | (st', Some err) =>
      exists pre x post, xs = pre ++ x :: post /\
        (forall pre' y post', pre = pre' ++ y :: post' ->
           snd (g y (visited pre' st)) = None) /\
        g x (visited pre st) = (st', Some err)
  end.

Fixpoint visit_until_error (xs : list X) (st : S) : S * option Err :=
  match xs with
  | [] => (st, None)
  | x :: xs' =>
      match g x st with
      | (st', Some err) => (st', Some err)
      | (st', None) => visit_until_error xs' st'
      end
  end.

Lemma visit_until_error_fail_fast xs : forall st,
  fail_fast xs st (visit_until_error xs st).
Proof.
  induction xs as [| x xs IH]; intros st; cbn [visit_until_error].
  - split; [done |]. intros [| ? ?] ? ? Heq; discriminate Heq.
  - destruct (g x st) as [st1 [err |]] eqn:Hg.
    + exists [], x, xs. split; [done |]. split; [| done].
      intros [| ? ?] ? ? Heq; discriminate Heq.
    + specialize (IH st1). destruct (visit_until_error xs st1) as [st' [err |]].
      * destruct IH as (pre & y & post & -> & Hfirst & Hy).
        exists (x :: pre), y, post. cbn [visited]. rewrite Hg. cbn [fst].
        split; [done |]. split; [| done].
        intros [| z pre'] y' post' Heq; injection Heq as -> Heq.
        -- cbn [visited]. by rewrite Hg.
        -- cbn [visited]. rewrite Hg. cbn [fst]. by apply (Hfirst pre' y' post').
      * destruct IH as [-> Hnone]. unfold fail_fast. cbn [visited].
        rewrite Hg. cbn [fst].
        split; [done |]. intros [| z pre] y post Heq; injection Heq as -> Heq.
        -- cbn [visited]. by rewrite Hg.
        -- cbn [visited]. rewrite Hg. cbn [fst]. by apply (Hnone pre y post).
Qed.

End Visiting.

Section ForEach.
Context {K : Type} {V : Type}.

(** The live entries of a map, in the order of the backing array. *)
Fixpoint Map_live (es : list (mapEntry K V)) : list (K * V) :=
  match es with
  | [] => []
  | e :: es' =>
      if hash1 e =? 0 then Map_live es' else (key e, value e) :: Map_live es'
  end.

Lemma Map_ForEach_range_visit {S Err : Type} (f : K -> V -> S -> S * option Err) es :
  forall st, Map_ForEach_range f es st =
    visit_until_error (fun x => f (fst x) (snd x)) (Map_live es) st.
Proof.
  induction es as [| e es IH]; intros st; cbn [Map_ForEach_range Map_live]; [done |].
  destruct (hash1 e =? 0); [apply IH |]. cbn [visit_until_error fst snd].
  destruct (f (key e) (value e) st) as [st' [err |]]; [done | apply IH].
Qed.

Lemma Set_ForEach_range_visit {S Err : Type} (f : K -> S -> S * option Err) es :
  forall st, Set_ForEach_range f es st = visit_until_error f (keys_of es) st.
Proof.
  induction es as [| e es IH]; intros st; cbn [Set_ForEach_range keys_of]; [done |].
  destruct (shash1 e =? 0); [apply IH |]. cbn [visit_until_error].
  destruct (f (skey e) st) as [st' [err |]]; [done | apply IH].
Qed.

(** C8: [ForEach] calls the visitor on the live entries in the order of the
    backing array; at the first call that returns an error it stops, no
    later entry is visited, and that error is returned; when no call errs
    every live entry is visited and nil is returned.  For [Map] and for
    [Set], any visitor and any state of the container. *)
Theorem C8_ForEach_fail_fast :
  (forall (S Err : Type) (f : K -> V -> S -> S * option Err) (m : Map K V) (st : S),
     fail_fast (fun x => f (fst x) (snd x)) (Map_live (entries m)) st
       (Map_ForEach f m st))
  /\
  (forall (S Err : Type) (f : K -> S -> S * option Err) (s : HashSet K) (st : S),
     fail_fast f (keys_of (sentries s)) st (Set_ForEach f s st)).
Proof.
  split.
  - intros S Err f m st. unfold Map_ForEach. rewrite Map_ForEach_range_visit.
    apply visit_until_error_fail_fast.
  - intros S Err f s st. unfold Set_ForEach. rewrite Set_ForEach_range_visit.
    apply visit_until_error_fail_fast.
Qed.

End ForEach.

(** ** C3: the aggregate hash of a set *)

Section AggregateHash.
Context {rt : Runtime} {rtl : RuntimeLaws}.
Context {K : Type} {cmp : Comparable K} {laws : ComparableLaws K} {zk : Zero K}.

(** The exclusive-or of the hashes stored in the live slots. *)
Fixpoint xor_live (es : list (setEntry K)) : Z :=
  match es with
  | [] => 0
  | e :: es' =>
      if shash1 e =? 0 then xor_live es' else Z.lxor (shash1 e) (xor_live es')
  end.

Lemma xor_all_live es : xor_all shash1 es = xor_live es.
Proof.
  induction es as [| e es IH]; cbn [xor_all xor_live]; [done |].
  rewrite IH. destruct (Z.eqb_spec (shash1 e) 0) as [-> | _]; [| done].
  apply Z.lxor_0_l.
Qed.

Lemma holds_elem_of (es : list (setEntry K)) e :
  e ∈ es -> shash1 e <> 0 -> holds shash1 es e.
Proof.
  intros (i & Hi)%list_elem_of_lookup Hl. exists (Z.of_nat i).
  split; [lia |]. split; [| done]. unfold get. by rewrite Nat2Z.id.
Qed.

(** C3, amended: in every state reachable by the operations of [Set],
    [Hash()] of a non-empty set is [emptySetHash] combined by exclusive-or
    with the hashes of all live slots, each of which is the tagged hash of
    its key; [Hash()] of an empty set is [emptySetHash], that is
    [Int(0).Hash()] as it is, without the tag bit. *)
Theorem C3_Hash_is_emptySetHash_xor_live (s : HashSet K) :
  Set_reachable s ->
  Set_Hash s =
    (if ssize s =? 0 then emptySetHash
     else Z.lxor emptySetHash (xor_live (sentries s))) /\
  (forall e, e ∈ sentries s -> shash1 e <> 0 ->
     shash1 e = Z.lor (Hash (skey e)) fullBit).
Proof.
  intros Hr. pose proof (Set_reachable_wf s Hr) as Hwf. split.
  - unfold Set_Hash. destruct (Z.eqb_spec (ssize s) 0) as [Hs0 | Hs0]; [done |].
    destruct Hwf as [[_ ?] | [_ Hh]]; [done |]. by rewrite <- xor_all_live.
  - intros e He Hl. apply (Set_wf_tagged s Hwf). by apply holds_elem_of.
Qed.

End AggregateHash.

(** ** C5 and C10: capacity, load and termination *)

Section Capacity.
Context {rt : Runtime} {rtl : RuntimeLaws}.
Context {K : Type} {cmp : Comparable K} {laws : ComparableLaws K} {zk : Zero K}.
Context {V : Type} {zv : Zero V}.

(** The capacity invariant of the specification, for a container of
    [count] elements in a backing array of [cap] slots ([cap = 0]: no array
    allocated yet). *)
Definition capacity_invariant (count cap : Z) : Prop :=
  count <= 3 * cap / 4 + 1 /\
  (cap = 16 \/ cap = 0 \/ cap / 4 <= count) /\
  (cap <> 0 -> 16 <= cap /\ exists j, 0 <= j /\ cap = 2 ^ j).

Lemma Map_wf_capacity {W : Type} {zw : Zero W} (m : Map K W) :
  Map_wf m -> capacity_invariant (size m) (len (entries m)).
Proof.
  intros [[Hnil Hs0] | ((Hc & _) & Hcap & Hsz & Hload & Hlow)].
  - rewrite Hnil, Hs0. unfold len. cbn [length]. split; [done |].
    split; [right; by left | done].
  - split; [dlia |]. split; [destruct Hlow; [by left | right; right; dlia] |].
    intros _. split; [lia |]. destruct Hc as (j & Hj & Hlen). exists j. split; [lia | done].
Qed.

(** C5: after every [Put] or [Remove] on a reachable [Map], and every
    [Add] or [Remove] on a reachable [Set], the size is at most
    [3*capacity/4 + 1]; the capacity is 16 (or there is no array yet) or
    the size is at least [capacity/4]; and an allocated capacity is a power
    of two, at least 16. *)
Theorem C5_capacity_invariant :
  (forall (m m' : Map K V), Map_reachable m ->
     (exists fuel k v, Map_Put fuel m k v = Ok m') \/
     (exists fuel k, Map_Remove fuel m k = Ok m') ->
     capacity_invariant (Map_Size m') (len (entries m')))
  /\
  (forall (s s' : HashSet K), Set_reachable s ->
     (exists fuel k, Set_Add fuel s k = Ok s') \/
     (exists fuel k, Set_Remove fuel s k = Ok s') ->
     capacity_invariant (Set_Size s') (len (sentries s'))).
Proof.
  split.
  - intros m m' Hr Hstep. apply Map_wf_capacity, Map_reachable_wf.
    destruct Hstep as [(fuel & k & v & Hput) | (fuel & k & Hrem)].
    + by apply (Map_reach_Put m fuel k v).
    + by apply (Map_reach_Remove m fuel k).
  - intros s s' Hr Hstep.
    assert (Hr' : Set_reachable s').
    { destruct Hstep as [(fuel & k & Hadd) | (fuel & k & Hrem)].
      - by apply (Set_reach_Add s fuel k).
      - by apply (Set_reach_Remove s fuel k). }
    apply Set_reachable_wf in Hr'.
    assert (Hm : Map_wf (to_map s')).
    { destruct Hr' as [[Hnil Hs0] | [Hm _]]; [left | by right].
      cbn [entries size to_map]. by rewrite Hnil. }
    apply Map_wf_capacity in Hm. cbn [entries size to_map] in Hm.
    by rewrite len_conv in Hm.
Qed.

(** C10: in every reachable state with a backing array the size is below
    the capacity (at most three quarters of it), so some slot is empty, and
    the probing loop started for any key stops within [capacity] reads, on
    an entry of that key or on an empty slot; with fuel above twice the
    capacity, [Get], [Put], [Remove], [Contains] and [Add] do not run out of
    it. *)
Theorem C10_probing_terminates :
  (forall m : Map K V, Map_reachable m -> entries m <> [] ->
     size m < len (entries m) /\ 4 * size m <= 3 * len (entries m) /\
     (exists z, empty_at hash1 (entries m) z) /\
     (forall k, exists r,
        probe hash1 key (Z.to_nat (len (entries m))) (entries m)
          (Z.lor (Hash k) fullBit) k
          (Z.land (Z.lor (Hash k) fullBit) (mask (entries m))) = Ok r /\
        match r with
        | Hit p e => get (entries m) p = Some e /\ hash1 e <> 0 /\
                     hash1 e = Z.lor (Hash k) fullBit /\ key e = k
        | Free q => empty_at hash1 (entries m) q
        end) /\
     (forall fuel k v, 2 * len (entries m) < Z.of_nat fuel ->
        Map_Get fuel m k <> Timeout /\ Map_Put fuel m k v <> Timeout /\
        Map_Remove fuel m k <> Timeout))
  /\
  (forall s : HashSet K, Set_reachable s -> sentries s <> [] ->
     ssize s < len (sentries s) /\ 4 * ssize s <= 3 * len (sentries s) /\
     (exists z, empty_at shash1 (sentries s) z) /\
     (forall k, exists r,
        probe shash1 skey (Z.to_nat (len (sentries s))) (sentries s)
          (Z.lor (Hash k) fullBit) k
          (Z.land (Z.lor (Hash k) fullBit) (mask (sentries s))) = Ok r /\
        match r with
        | Hit p e => get (sentries s) p = Some e /\ shash1 e <> 0 /\
                     shash1 e = Z.lor (Hash k) fullBit /\ skey e = k
        | Free q => empty_at shash1 (sentries s) q
        end) /\
     (forall fuel k, 2 * len (sentries s) < Z.of_nat fuel ->
        Set_Contains fuel s k <> Timeout /\ Set_Add fuel s k <> Timeout /\
        Set_Remove fuel s k <> Timeout)).
Proof.
  split.
  - intros m Hr Hnn. pose proof (Map_reachable_wf m Hr) as Hwf.
    destruct Hwf as [[Hnil _] | Hwf]; [done |].
    pose proof (Map_table_wf_room m Hwf) as Hroom.
    pose proof Hwf as ((Hc & Hch & Hd & Ht) & Hcap & Hsz & Hload & Hlow).
    assert (Hempty : exists z, empty_at hash1 (entries m) z)
      by (apply exists_empty; lia).
    split; [lia |]. split; [done |]. split; [done |]. split.
    + intros k. change (Z.lor (Hash k) fullBit) with (tag k).
      destruct (probe_any hash1 key (entries m) (tag k) k Hc Hch Hd Hempty)
        as (n & r & Hn & Hp & Hres).
      exists r. rewrite home_eq, Hp by done.
      destruct (Z.leb_spec (Z.of_nat (Z.to_nat (len (entries m)))) n); [lia |].
      split; [done |]. destruct r; tauto.
    + intros fuel k v Hfuel.
      pose proof (Get_wf m k fuel ltac:(by right)) as Hg.
      pose proof (Put_wf m k v fuel ltac:(by right)) as Hp.
      pose proof (Remove_wf m k fuel ltac:(by right)) as Hrm.
      repeat split; intros Heq; rewrite Heq in *; lia.
  - intros s Hr Hnn. pose proof (Set_reachable_wf s Hr) as Hwf.
    destruct Hwf as [[Hnil _] | Hwf]; [done |].
    pose proof Hwf as [Hm Hh]. pose proof (Map_table_wf_room _ Hm) as Hroom.
    pose proof Hm as ((Hc & Hch & Hd & Ht) & Hcap & Hsz & Hload & Hlow).
    cbn [entries size to_map] in Hroom, Hcap, Hsz, Hload.
    rewrite len_conv in Hroom, Hcap, Hload.
    rewrite live_count_conv in Hroom, Hsz.
    assert (Hempty : exists z, empty_at shash1 (sentries s) z)
      by (apply exists_empty; lia).
    split; [lia |]. split; [done |]. split; [done |]. split.
    + intros k. change (Z.lor (Hash k) fullBit) with (tag k).
      destruct (probe_set s k Hwf) as (n & r & Hn & Hp & Hres).
      exists r. rewrite Hp.
      destruct (Z.leb_spec (Z.of_nat (Z.to_nat (len (sentries s)))) n); [lia |].
      split; [done |]. destruct r as [p e | q]; [tauto |].
      specialize (Hp (S (Z.to_nat n))).
      destruct (Z.leb_spec (Z.of_nat (S (Z.to_nat n))) n); [lia |].
      apply probe_sound in Hp as [Hq (e0 & Hg & Hz)]; [| apply home_nonneg].
      split; [| eauto]. split; [done |]. by apply (get_Some_lt _ q e0).
    + intros fuel k Hfuel.
      pose proof (Contains_wf s k fuel ltac:(by right)) as Hg.
      pose proof (Add_wf s k fuel ltac:(by right)) as Hp.
      pose proof (Remove_set_wf s k fuel ltac:(by right)) as Hrm.
      repeat split; intros Heq; rewrite Heq in *; lia.
Qed.

End Capacity.

(** ** C6: equality of sets *)

Section SetEquality.
Context {rt : Runtime} {rtl : RuntimeLaws}.
Context {K : Type} {cmp : Comparable K} {laws : ComparableLaws K} {zk : Zero K}.

Lemma Equals_same_members fuel (s t : HashSet K) :
  Set_reachable s -> Set_reachable t ->
  len (sentries s) <= Z.of_nat fuel -> len (sentries t) <= Z.of_nat fuel ->
  (forall k, Set_mem s k <-> Set_mem t k) ->
  Set_Equals fuel s t = Ok true.
Proof.
  intros Hs%Set_reachable_wf Ht%Set_reachable_wf Hfs Hft Hmem.
  destruct (Equals_spec fuel s t Hs Ht Hfs Hft) as (b & -> & Hb).
  f_equal. by apply Hb.
Qed.

(** C6: [Equals] returns true on two sets built by adding the same keys in
    any orders (and any multiplicities); it returns true on a set and
    itself; it returns the same answer with its operands exchanged; and the
    set built from [a, b, c] equals the set built from [c, b, a].  The fuel
    is at least the capacity of both sets, which is enough for [Equals] to
    return. *)
Theorem C6_Equals_order_reflexive_symmetric (fuel : nat) :
  (forall l1 l2 (A B : HashSet K),
     Set_built l1 A -> Set_built l2 B -> (forall k, k ∈ l1 <-> k ∈ l2) ->
     len (sentries A) <= Z.of_nat fuel -> len (sentries B) <= Z.of_nat fuel ->
     Set_Equals fuel A B = Ok true) /\
  (forall A : HashSet K,
     Set_reachable A -> len (sentries A) <= Z.of_nat fuel ->
     Set_Equals fuel A A = Ok true) /\
  (forall A B : HashSet K,
     Set_reachable A -> Set_reachable B ->
     len (sentries A) <= Z.of_nat fuel -> len (sentries B) <= Z.of_nat fuel ->
     exists b, Set_Equals fuel A B = Ok b /\ Set_Equals fuel B A = Ok b) /\
  (forall (a b c : K) (A B : HashSet K),
     Set_built [a; b; c] A -> Set_built [c; b; a] B ->
     len (sentries A) <= Z.of_nat fuel -> len (sentries B) <= Z.of_nat fuel ->
     Set_Equals fuel A B = Ok true).
Proof.
  assert (Horder : forall l1 l2 (A B : HashSet K),
     Set_built l1 A -> Set_built l2 B -> (forall k, k ∈ l1 <-> k ∈ l2) ->
     len (sentries A) <= Z.of_nat fuel -> len (sentries B) <= Z.of_nat fuel ->
     Set_Equals fuel A B = Ok true).
  { intros l1 l2 A B HA HB Hsame HfA HfB.
    apply Equals_same_members; eauto using Set_built_reachable.
    intros k. by rewrite (Set_built_mem l1 A HA), (Set_built_mem l2 B HB). }
  split; [done |]. split; [| split].
  - intros A HA HfA. by apply Equals_same_members.
  - intros A B HA%Set_reachable_wf HB%Set_reachable_wf HfA HfB.
    destruct (Equals_spec fuel A B HA HB HfA HfB) as (b1 & H1 & Hb1).
    destruct (Equals_spec fuel B A HB HA HfB HfA) as (b2 & H2 & Hb2).
    exists b1. split; [done |]. rewrite H2. f_equal.
    destruct b1, b2; try done.
    + apply (proj2 Hb2). intros k. symmetry. by apply (proj1 Hb1).
    + exfalso. assert (false = true); [| done].
      apply (proj2 Hb1). intros k. symmetry. by apply (proj1 Hb2).
  - intros a b c A B HA HB HfA HfB. apply (Horder [a; b; c] [c; b; a]); try done.
    intros k. rewrite !elem_of_cons, !elem_of_nil. tauto.
Qed.

End SetEquality.

(** ** C9: the operand a binary operation ranges over *)

Section ScannedOperand.
Context {rt : Runtime} {rtl : RuntimeLaws}.
Context {K : Type} {cmp : Comparable K} {laws : ComparableLaws K} {zk : Zero K}.

(** How many times the body of
    [for _, entry := range es { if entry.hash1 != 0 { ... } }] runs when the
    loop is not left early: once for every live entry. *)
Definition live_visits (es : list (setEntry K)) : nat := length (keys_of es).

(** C9, amended: on two non-empty reachable sets, [Equals], [IsDisjoint],
    [Union] and [Intersection] range over the operand whose backing array is
    not the longer one (the receiver when the lengths agree) and query the
    other, whatever the numbers of live entries; that array has at most
    [max 16 (4 * min |s| |t|)] slots.  [Difference] always ranges over the
    backing array of its argument. *)
Theorem C9_ranges_over_shorter_array (fuel : nat) (s t : HashSet K) :
  Set_reachable s -> Set_reachable t -> ssize s <> 0 -> ssize t <> 0 ->
  let a := fst (swap_if_longer s t) in
  let b := snd (swap_if_longer s t) in
  ((a = s /\ b = t /\ len (sentries s) <= len (sentries t)) \/
   (a = t /\ b = s /\ len (sentries t) < len (sentries s))) /\
  len (sentries a) = Z.min (len (sentries s)) (len (sentries t)) /\
  len (sentries a) <= Z.max 16 (4 * Z.min (ssize s) (ssize t)) /\
  (ssize s = ssize t -> Set_Hash s = Set_Hash t ->
     Set_Equals fuel s t = Set_all_in fuel (sentries a) b) /\
  Set_IsDisjoint fuel s t = Set_none_in fuel (sentries a) b /\
  Set_Union fuel s t = (r <- Set_Copy b ;; Set_add_all fuel (sentries a) r) /\
  Set_Intersection fuel s t = Set_add_common fuel (sentries a) b zero /\
  Set_Difference fuel s t =
    (r <- Set_Copy s ;; Set_remove_all fuel (sentries t) r).
Proof.
  intros [_ Hs]%Set_reachable_wf%Set_wf_len_bound
    [_ Ht]%Set_reachable_wf%Set_wf_len_bound Hs0 Ht0.
  unfold Set_Equals, Set_IsDisjoint, Set_Union, Set_Intersection, Set_Difference.
  apply Z.eqb_neq in Hs0 as Hs0', Ht0 as Ht0'. rewrite Hs0', Ht0'. cbn [orb].
  unfold swap_if_longer.
  destruct (Z.gtb_spec (len (sentries s)) (len (sentries t))) as [Hgt | Hle];
    cbn [fst snd].
  - split; [right; repeat split; lia |]. split; [lia |]. split; [lia |].
    split; [| done]. intros -> ->. by rewrite !Z.eqb_refl.
  - split; [left; repeat split; lia |]. split; [lia |]. split; [lia |].
    split; [| done]. intros -> ->. by rewrite !Z.eqb_refl.
Qed.

End ScannedOperand.

(** ** The claims on concrete runs *)

Section ClaimRuns.
#[local] Existing Instance example_runtime.
#[local] Existing Instance example_runtime_laws.

Fixpoint Map_Put_list (fuel : nat) (kvs : list (IdKey * Z)) (m : Map IdKey Z)
    : result (Map IdKey Z) :=
  match kvs with
  | [] => Ok m
  | (k, v) :: kvs' => m' <- Map_Put fuel m k v ;; Map_Put_list fuel kvs' m'
  end.

Fixpoint Map_Remove_list (fuel : nat) (ks : list IdKey) (m : Map IdKey Z)
    : result (Map IdKey Z) :=
  match ks with
  | [] => Ok m
  | k :: ks' => m' <- Map_Remove fuel m k ;; Map_Remove_list fuel ks' m'
  end.

(** The map with the keys of [set_8], built by the same calls: thirteen
    [Put]s, then five [Remove]s. *)
Definition map_8 : Map IdKey Z :=
  force zero
    (m <- Map_Put_list 80 ((fun k => (k, 100 + k)) <$>
            [0; 1; 2; 3; 4; 5; 6; 7; 8; 9; 10; 11; 12]) zero ;;
     Map_Remove_list 80 [12; 11; 10; 9; 8] m).

(** What a run of [Remove] did: whether it rebuilt the table, how many
    entries the repair loop re-inserted, and the capacity it left. *)
Definition removal_summary {T E : Type} (entries_of : T -> list E)
    (r : result (removal T)) : result (bool * nat * Z) :=
  rmap (fun x => (shrunk x, repaired x, len (entries_of (after x)))) r.

(** C4: removing key 0 from eight keys in 32 slots crosses the shrink
    threshold in both containers.  [Map.Remove] rebuilds the table at 16
    slots and returns: the repair loop re-inserts nothing.  [Set.Remove]
    rebuilds the table at 16 slots and then runs the repair loop on the new
    table, from the slot after the stale index: it takes out and re-inserts
    all seven remaining keys. *)
Theorem C4_Set_Remove_repairs_after_shrink :
  (len (entries map_8) = 32 /\ size map_8 = 8 /\
   removal_summary entries (Map_Remove_run 80 map_8 0) = Ok (true, 0%nat, 16)) /\
  (len (sentries set_8) = 32 /\ ssize set_8 = 8 /\
   removal_summary sentries (Set_Remove_run 80 set_8 0) = Ok (true, 7%nat, 16)).
Proof. vm_compute. done. Qed.

(** C3, as stated, fails on the set [{5}] and on the empty set: [Hash()] of
    [{5}] is not the exclusive-or of the tagged hashes of its live slots
    (it differs from it by [emptySetHash]), and [Hash()] of the empty set
    has no tag bit, so it is no tagged hash. *)
Lemma C3_counterexample :
  (Set_reachable set_5 /\ ssize set_5 = 1 /\
   xor_live (sentries set_5) = Z.lor (Hash (5 : IdKey)) fullBit /\
   Set_Hash set_5 = Z.lxor 12345 (Z.lor (Hash (5 : IdKey)) fullBit) /\
   Set_Hash set_5 <> xor_live (sentries set_5)) /\
  (Set_reachable (zero : HashSet IdKey) /\ ssize (zero : HashSet IdKey) = 0 /\
   Set_Hash (zero : HashSet IdKey) = 12345 /\
   Z.testbit (Set_Hash (zero : HashSet IdKey)) 63 = false /\
   forall x : Z, Set_Hash (zero : HashSet IdKey) <> Z.lor x fullBit).
Proof.
  split.
  - split; [apply set_5_reachable |]. vm_compute. repeat split; done.
  - split; [constructor |]. repeat split; try done.
    intros x Hx. assert (Hb : Z.testbit (Z.lor x fullBit) 63 = true).
    { rewrite Z.lor_spec. apply orb_true_r. }
    rewrite <- Hx in Hb. vm_compute in Hb. done.
Qed.

(** C9, as stated, fails on [{0..11}] and [{5}], both in 16 slots:
    [IsDisjoint], [Union] and [Intersection] called on [{0..11}] with the
    argument [{5}] range over the receiver, which has twelve live entries,
    not over the argument, which has one; and [Difference] called on [{5}]
    with the argument [{0..11}] ranges over the twelve entries of the
    argument. *)
Lemma C9_counterexample :
  Set_reachable set_12 /\ Set_reachable set_5 /\
  ssize set_12 = 12 /\ ssize set_5 = 1 /\
  swap_if_longer set_12 set_5 = (set_12, set_5) /\
  live_visits (sentries (fst (swap_if_longer set_12 set_5))) = 12%nat /\
  Set_IsDisjoint 40 set_12 set_5 = Set_none_in 40 (sentries set_12) set_5 /\
  Set_Difference 40 set_5 set_12 =
    (r <- Set_Copy set_5 ;; Set_remove_all 40 (sentries set_12) r) /\
  live_visits (sentries set_12) = 12%nat /\
  (12 > Z.to_nat (Z.min (ssize set_12) (ssize set_5)))%nat.
Proof.
  split; [apply set_12_reachable |]. split; [apply set_5_reachable |].
  vm_compute. repeat split; lia.
Qed.

End ClaimRuns.

(** ** The theorems at concrete states *)

Section Instances.
#[local] Existing Instance example_runtime.
#[local] Existing Instance example_runtime_laws.

Lemma Set_Add_list_built fuel ks : forall l (s s' : HashSet IdKey),
  Set_built l s -> Set_Add_list fuel ks s = Ok s' -> Set_built (l ++ ks) s'.
Proof.
  induction ks as [| k ks IH]; intros l s s' Hb; cbn [Set_Add_list].
  - intros [= <-]. by rewrite app_nil_r.
  - destruct (Set_Add fuel s k) as [s1 | |] eqn:Ha; cbn [bind]; try done.
    intros Hl. rewrite (assoc_L (++) l [k] ks : l ++ k :: ks = (l ++ [k]) ++ ks).
    apply (IH (l ++ [k]) s1); [| done]. by apply (Set_built_add l s fuel k).
Qed.

(** [{1, 2, 3}], added in this order, and in the opposite one. *)
Definition set_123 : HashSet IdKey := force zero (Set_Add_list 40 [1; 2; 3] zero).
Definition set_321 : HashSet IdKey := force zero (Set_Add_list 40 [3; 2; 1] zero).

Lemma set_123_built : Set_built [1; 2; 3] set_123.
Proof.
  apply (Set_Add_list_built 40 [1; 2; 3] [] zero); [constructor | vm_compute; reflexivity].
Qed.

Lemma set_321_built : Set_built [3; 2; 1] set_321.
Proof.
  apply (Set_Add_list_built 40 [3; 2; 1] [] zero); [constructor | vm_compute; reflexivity].
Qed.

(** A visitor that records the keys it is given and fails on key 3. *)
Definition stop_at_3 (k : IdKey) (seen : list IdKey) : list IdKey * option IdKey :=
  (seen ++ [k], if k =? 3 then Some k else None).

(** C1 on the map [{1: 10}]: [Put(1, 20)] leaves the value 10. *)
Lemma C1_Put_present_witness :
  Map_Get 40 map_1_10 1 = Ok (10, true) /\
  exists m', Map_Put 40 map_1_10 1 20 = Ok m' /\
    Map_Size m' = Map_Size map_1_10 /\ Map_Get 40 m' 1 = Ok (10, true).
Proof.
  split; [vm_compute; reflexivity |].
  apply (C1_Put_present_keeps_old_value map_1_10 1 10 20 40).
  vm_compute; reflexivity.
Defined.

(** C2 on the sequence [Put(1, 10); Put(1, 20)]: [Get(1)] returns 10, where
    the specification expects 20. *)
Lemma C2_sequences_witness :
  32 + 8 * Z.of_nat (length [@OpPut IdKey Z 1 10; OpPut 1 20]) <= maxAlloc /\
  32 + 8 * Z.of_nat (length [@OpPut IdKey Z 1 10; OpPut 1 20]) < Z.of_nat 100 /\
  exists m, Map_run 100 [@OpPut IdKey Z 1 10; OpPut 1 20] zero = Ok m /\
    Map_Get 100 m 1 = Ok (10, true) /\
    spec_last_value [@OpPut IdKey Z 1 10; OpPut 1 20] 1 None = Some 20.
Proof.
  assert (Hmax : 32 + 8 * Z.of_nat (length [@OpPut IdKey Z 1 10; OpPut 1 20])
                 <= maxAlloc) by (vm_compute; discriminate).
  assert (Hfuel : 32 + 8 * Z.of_nat (length [@OpPut IdKey Z 1 10; OpPut 1 20])
                  < Z.of_nat 100) by (vm_compute; reflexivity).
  split; [done |]. split; [done |].
  destruct (C2_sequences_Get_first_value (K := IdKey) (V := Z) 100) as (HM & _ & _).
  destruct (HM [OpPut 1 10; OpPut 1 20] Hmax Hfuel) as (m & Hrun & Hget).
  exists m. split; [done |]. split; [| vm_compute; reflexivity].
  destruct (Hget 1) as [Hg _]. rewrite Hg. vm_compute; reflexivity.
Defined.

(** C3 (amended) on the set [{5}]. *)
Lemma C3_Hash_witness :
  Set_reachable set_5 /\
  Set_Hash set_5 =
    (if ssize set_5 =? 0 then emptySetHash
     else Z.lxor emptySetHash (xor_live (sentries set_5))) /\
  (forall e, e ∈ sentries set_5 -> shash1 e <> 0 ->
     shash1 e = Z.lor (Hash (skey e)) fullBit).
Proof.
  split; [apply set_5_reachable |].
  apply (C3_Hash_is_emptySetHash_xor_live set_5). apply set_5_reachable.
Defined.

(** C5 on the first [Put] of a map, and on the [Add] that doubles the
    capacity of [{0..11}]. *)
Lemma C5_capacity_witness :
  (Map_reachable (zero : Map IdKey Z) /\
   Map_Put 40 zero 1 10 = Ok map_1_10 /\
   capacity_invariant (Map_Size map_1_10) (len (entries map_1_10))) /\
  (Set_reachable set_12 /\
   Set_Add 80 set_12 12 = Ok set_13 /\
   capacity_invariant (Set_Size set_13) (len (sentries set_13))).
Proof.
  destruct (C5_capacity_invariant (K := IdKey) (V := Z)) as [HM HS]. split.
  - split; [constructor |]. split; [vm_compute; reflexivity |].
    apply (HM zero map_1_10); [constructor |].
    left. exists 40%nat, 1, 10. vm_compute; reflexivity.
  - split; [apply set_12_reachable |]. split; [vm_compute; reflexivity |].
    apply (HS set_12 set_13); [apply set_12_reachable |].
    left. exists 80%nat, 12. vm_compute; reflexivity.
Defined.

(** C6 on [{1, 2, 3}] built in two orders, and against [{0..11}]. *)
Lemma C6_Equals_witness :
  Set_built [1; 2; 3] set_123 /\ Set_built [3; 2; 1] set_321 /\
  len (sentries set_123) <= Z.of_nat 40 /\ len (sentries set_321) <= Z.of_nat 40 /\
  Set_Equals 40 set_123 set_321 = Ok true /\
  Set_Equals 40 set_123 set_123 = Ok true /\
  exists b, Set_Equals 40 set_123 set_12 = Ok b /\ Set_Equals 40 set_12 set_123 = Ok b.
Proof.
  destruct (C6_Equals_order_reflexive_symmetric (K := IdKey) 40)
    as (_ & Hrefl & Hsym & Hex).
  assert (H123 : len (sentries set_123) <= Z.of_nat 40) by (vm_compute; discriminate).
  assert (H321 : len (sentries set_321) <= Z.of_nat 40) by (vm_compute; discriminate).
  assert (H12 : len (sentries set_12) <= Z.of_nat 40) by (vm_compute; discriminate).
  pose proof set_123_built as Hb1. pose proof set_321_built as Hb2.
  split; [done |]. split; [done |]. split; [done |]. split; [done |].
  split; [| split].
  - by apply (Hex 1 2 3).
  - apply Hrefl; [| done]. by apply (Set_built_reachable [1; 2; 3]).
  - apply Hsym; try done; [by apply (Set_built_reachable [1; 2; 3]) |].
    apply set_12_reachable.
Defined.

(** C7 on the zero [Map[IdKey, int]] and the zero [Set[IdKey]], with no fuel. *)
Lemma C7_zero_value_witness :
  Map_Size (zero : Map IdKey Z) = 0 /\
  Map_Get 0 (zero : Map IdKey Z) 7 = Ok (0, false) /\
  Map_Remove 0 (zero : Map IdKey Z) 7 = Ok zero /\
  Set_Size (zero : HashSet IdKey) = 0 /\
  Set_Contains 0 (zero : HashSet IdKey) 7 = Ok false /\
  Set_Remove 0 (zero : HashSet IdKey) 7 = Ok zero.
Proof.
  destruct (C7_zero_value_is_empty_container (K := IdKey) (V := Z))
    as [(_ & HMs & HMg & HMr & _) (_ & HSs & HSc & HSr & _)].
  split; [apply HMs |]. split; [apply HMg |]. split; [apply HMr |].
  split; [apply HSs |]. split; [apply HSc | apply HSr].
Defined.

(** C8 on [{0..11}] and a visitor that fails on key 3: keys 0 to 3 are
    visited, and the error of key 3 is returned. *)
Lemma C8_ForEach_witness :
  fail_fast stop_at_3 (keys_of (sentries set_12)) []
    (Set_ForEach stop_at_3 set_12 []) /\
  Set_ForEach stop_at_3 set_12 [] = ([0; 1; 2; 3], Some 3).
Proof.
  split; [| vm_compute; reflexivity].
  apply (proj2 (C8_ForEach_fail_fast (K := IdKey) (V := Z))).
Defined.

(** C9 (amended) on [{0..11}] and [{5}]. *)
Lemma C9_ranges_witness :
  Set_reachable set_12 /\ Set_reachable set_5 /\
  ssize set_12 <> 0 /\ ssize set_5 <> 0 /\
  len (sentries (fst (swap_if_longer set_12 set_5))) <=
    Z.max 16 (4 * Z.min (ssize set_12) (ssize set_5)) /\
  Set_IsDisjoint 40 set_12 set_5 =
    Set_none_in 40 (sentries (fst (swap_if_longer set_12 set_5)))
      (snd (swap_if_longer set_12 set_5)) /\
  Set_Difference 40 set_12 set_5 =
    (r <- Set_Copy set_12 ;; Set_remove_all 40 (sentries set_5) r).
Proof.
  assert (H12 : ssize set_12 <> 0) by (vm_compute; discriminate).
  assert (H5 : ssize set_5 <> 0) by (vm_compute; discriminate).
  destruct (C9_ranges_over_shorter_array 40 set_12 set_5
              set_12_reachable set_5_reachable H12 H5)
    as (_ & _ & Hlen & _ & Hdis & _ & _ & Hdiff).
  split; [apply set_12_reachable |]. split; [apply set_5_reachable |].
  split; [done |]. split; [done |]. split; [apply Hlen |].
  split; [apply Hdis | apply Hdiff].
Defined.

(** C10 on the map [{1: 10}] and the set [{0..11}]: looking up a key that
    collides with a present one returns. *)
Lemma C10_probing_witness :
  (Map_reachable map_1_10 /\ entries map_1_10 <> [] /\
   size map_1_10 < len (entries map_1_10) /\
   Map_Get 40 map_1_10 17 <> Timeout) /\
  (Set_reachable set_12 /\ sentries set_12 <> [] /\
   ssize set_12 < len (sentries set_12) /\
   (exists z, empty_at shash1 (sentries set_12) z) /\
   Set_Contains 40 set_12 16 <> Timeout).
Proof.
  destruct (C10_probing_terminates (K := IdKey) (V := Z)) as [HM HS].
  assert (Hm : entries map_1_10 <> []) by (vm_compute; discriminate).
  assert (Hs : sentries set_12 <> []) by (vm_compute; discriminate).
  split.
  - destruct (HM map_1_10 map_1_10_reachable Hm) as (Hlt & _ & _ & _ & Hfuel).
    split; [apply map_1_10_reachable |]. split; [done |]. split; [done |].
    apply (Hfuel 40%nat 17 0). vm_compute; reflexivity.
  - destruct (HS set_12 set_12_reachable Hs) as (Hlt & _ & He & _ & Hfuel).
    split; [apply set_12_reachable |]. split; [done |]. split; [done |].
    split; [done |]. apply (Hfuel 40%nat 16). vm_compute; reflexivity.
Defined.

End Instances.

(** * Further properties of the code *)

(** ** Lists of distinct keys *)

Section KeyLists.
Context {K : Type} {cmp : Comparable K} {laws : ComparableLaws K}.

(** [Equals] decides the equality of keys. *)
Definition key_eq_dec : EqDecision K :=
  fun a b =>
    match Equals a b as c return Equals a b = c -> {a = b} + {a <> b} with
    | true => fun He => left (proj1 (Equals_eq a b) He)
    | false => fun He => right (fun Hab =>
        eq_ind (Equals a b) (fun c => c = false -> False)
          (fun Hf => Bool.diff_true_false
             (eq_trans (eq_sym (proj2 (Equals_eq a b) Hab)) Hf))
          (Equals a b) eq_refl He)
    end eq_refl.

Lemma length_without (l l' : list K) k :
  NoDup l -> NoDup l' -> k ∈ l -> (forall x, x ∈ l' <-> x ∈ l /\ x <> k) ->
  length l = S (length l').
Proof.
  intros Hl Hl' Hk Hiff. change (S (length l')) with (length (k :: l')).
  apply Permutation_length, NoDup_Permutation; [done | |].
  - constructor; [| done]. intros Hin. by apply Hiff in Hin as [_ ?].
  - intros x. rewrite elem_of_cons, Hiff.
    destruct (key_eq_dec x k) as [-> | Hne]; [tauto |]. tauto.
Qed.

Lemma length_with (l l' : list K) k :
  NoDup l -> NoDup l' -> k ∉ l -> (forall x, x ∈ l' <-> x ∈ l \/ x = k) ->
  length l' = S (length l).
Proof.
  intros Hl Hl' Hk Hiff. change (S (length l)) with (length (k :: l)).
  apply Permutation_length, NoDup_Permutation; [done | by constructor |].
  intros x. rewrite elem_of_cons, Hiff. tauto.
Qed.

End KeyLists.

(** ** [Map]: what [Get] returns, and the associations [ForEach] ranges over *)

Section MapLookups.
Context {rt : Runtime} {rtl : RuntimeLaws}.
Context {K : Type} {cmp : Comparable K} {laws : ComparableLaws K} {zk : Zero K}.
Context {V : Type} {zv : Zero V}.
Implicit Types (m : Map K V) (es : list (mapEntry K V)) (x y : mapEntry K V).
Implicit Types (k : K) (v : V).

(** The slot of the association of [k] with [v]. *)
Definition assoc k v : mapEntry K V := {| hash1 := tag k; key := k; value := v |}.

Lemma holds_assoc es x : tagged es -> holds hash1 es x -> x = assoc (key x) (value x).
Proof.
  intros Ht Hx. unfold assoc. rewrite <- (Ht x Hx). by rewrite mapEntry_eta.
Qed.

Lemma holds_unique es x y :
  distinct hash1 key es -> tagged es ->
  holds hash1 es x -> holds hash1 es y -> key x = key y -> x = y.
Proof.
  intros Hd Ht Hx Hy Hk.
  pose proof (Ht x Hx) as Hhx. pose proof (Ht y Hy) as Hhy.
  destruct Hx as (p & Hp & Hgp & Hl). destruct Hy as (q & Hq & Hgq & _).
  assert (p = q) by (apply (Hd p q x y); congruence). congruence.
Qed.

Lemma Map_wf_unique m x y :
  Map_wf m -> holds hash1 (entries m) x -> holds hash1 (entries m) y ->
  key x = key y -> x = y.
Proof.
  intros [[Hnil _] | ((_ & _ & Hd & Ht) & _)] Hx Hy.
  - rewrite Hnil in Hx. by apply holds_nil in Hx.
  - by apply (holds_unique (entries m)).
Qed.

Lemma Map_wf_tagged m : Map_wf m -> tagged (entries m).
Proof.
  intros [[Hnil _] | ((_ & _ & _ & Ht) & _)]; [| done].
  intros x Hx. rewrite Hnil in Hx. by apply holds_nil in Hx.
Qed.

Lemma Map_wf_distinct m : Map_wf m -> distinct hash1 key (entries m).
Proof.
  intros [[Hnil _] | ((_ & _ & Hd & _) & _)]; [| done].
  intros p q e e' _ _ Hg. by rewrite Hnil in Hg.
Qed.

Lemma Map_wf_size m : Map_wf m -> size m = live_count hash1 (entries m).
Proof.
  intros [[Hnil Hs0] | (_ & _ & Hsz & _)]; [| done]. by rewrite Hnil, Hs0.
Qed.

Lemma has_key_assoc m k :
  Map_wf m ->
  (has_key hash1 key (entries m) (tag k) k <->
   exists v, holds hash1 (entries m) (assoc k v)).
Proof.
  intros Hwf. split.
  - intros (x & Hx & Hh & Hk). exists (value x).
    rewrite (holds_assoc _ x (Map_wf_tagged m Hwf) Hx) in Hx. by rewrite Hk in Hx.
  - intros (v & Hx). by exists (assoc k v).
Qed.

Lemma Get_total m k fuel :
  Map_wf m -> len (entries m) <= Z.of_nat fuel ->
  exists v b, Map_Get fuel m k = Ok (v, b) /\
    ((b = true /\ holds hash1 (entries m) (assoc k v)) \/
     (b = false /\ v = zero /\ ~ has_key hash1 key (entries m) (tag k) k)).
Proof.
  intros Hwf Hfuel. pose proof (Get_wf m k fuel Hwf) as Hg.
  destruct (Map_Get fuel m k) as [[v b] | |]; [| done | lia]. by exists v, b.
Qed.

Lemma Get_found_iff m k v fuel :
  Map_wf m -> len (entries m) <= Z.of_nat fuel ->
  (Map_Get fuel m k = Ok (v, true) <-> holds hash1 (entries m) (assoc k v)).
Proof.
  intros Hwf Hfuel.
  destruct (Get_total m k fuel Hwf Hfuel) as (v' & b & Hget & Hcase). rewrite Hget.
  destruct Hcase as [[-> Hx] | (-> & -> & Hno)].
  - split; [by intros [= <-] |]. intros Hy.
    by injection (Map_wf_unique m _ _ Hwf Hx Hy eq_refl) as ->.
  - split; [done |]. intros Hy. exfalso. apply Hno. by exists (assoc k v).
Qed.

Lemma Get_absent_iff m k v fuel :
  Map_wf m -> len (entries m) <= Z.of_nat fuel ->
  (Map_Get fuel m k = Ok (v, false) <->
   v = zero /\ ~ has_key hash1 key (entries m) (tag k) k).
Proof.
  intros Hwf Hfuel.
  destruct (Get_total m k fuel Hwf Hfuel) as (v' & b & Hget & Hcase). rewrite Hget.
  destruct Hcase as [[-> Hx] | (-> & -> & Hno)].
  - split; [done |]. intros [_ Hno]. exfalso. apply Hno. by exists (assoc k v').
  - split; [by intros [= <-] | by intros [-> _]].
Qed.

(** [Get] depends on the live entries of the key only. *)
Lemma Get_ext m m' k fuel :
  Map_wf m -> Map_wf m' ->
  len (entries m) <= Z.of_nat fuel -> len (entries m') <= Z.of_nat fuel ->
  (forall v, holds hash1 (entries m) (assoc k v) <->
             holds hash1 (entries m') (assoc k v)) ->
  Map_Get fuel m k = Map_Get fuel m' k.
Proof.
  intros Hwf Hwf' Hf Hf' Hsame.
  destruct (Get_total m k fuel Hwf Hf) as (v & b & Hget & Hcase). rewrite Hget.
  symmetry. destruct Hcase as [[-> Hx] | (-> & -> & Hno)].
  - apply Get_found_iff; try done. by apply Hsame.
  - apply Get_absent_iff; try done. split; [done |].
    rewrite has_key_assoc by done. intros (v & Hv). apply Hno.
    apply has_key_assoc; [done |]. exists v. by apply Hsame.
Qed.

(** A key that [Get] does not find: [Remove] returns the map as it is. *)
Lemma Remove_absent_unchanged m k v fuel :
  Map_Get fuel m k = Ok (v, false) -> Map_Remove fuel m k = Ok m.
Proof.
  unfold Map_Get, Map_Remove, Map_Remove_run, rmap.
  destruct (size m =? 0); [done |].
  destruct (probe hash1 key fuel (entries m) _ k _) as [[i e | i] | |];
    cbn [bind]; done.
Qed.

Lemma tagged_cons x es :
  tagged (x :: es) -> (hash1 x <> 0 -> hash1 x = tag (key x)) /\ tagged es.
Proof.
  intros Ht. split.
  - intros Hl. apply Ht, holds_cons. by left.
  - intros y Hy. apply Ht, holds_cons. by right.
Qed.

Lemma elem_Map_live es k v :
  (k, v) ∈ Map_live es <-> exists x, holds hash1 es x /\ key x = k /\ value x = v.
Proof.
  induction es as [| e es IH]; cbn [Map_live].
  - split; [by intros ?%elem_of_nil | intros (x & Hx & _); by apply holds_nil in Hx].
  - destruct (Z.eqb_spec (hash1 e) 0) as [Hz | Hnz].
    + rewrite IH. split; intros (x & Hx & Hkv); exists x; (split; [| done]).
      * apply holds_cons. by right.
      * apply holds_cons in Hx as [[-> ?] | ?]; done.
    + rewrite elem_of_cons, IH. split.
      * intros [[= -> ->] | (x & Hx & Hkv)].
        -- exists e. split; [apply holds_cons; by left | done].
        -- exists x. split; [apply holds_cons; by right | done].
      * intros (x & Hx & <- & <-). apply holds_cons in Hx as [[-> ?] | ?];
          [by left | right; eauto].
Qed.

Lemma length_Map_live es : Z.of_nat (length (Map_live es)) = live_count hash1 es.
Proof.
  induction es as [| e es IH]; cbn [Map_live live_count]; [done |].
  unfold weight. destruct (hash1 e =? 0); cbn [length]; lia.
Qed.

Lemma NoDup_Map_live es :
  distinct hash1 key es -> tagged es -> NoDup (Map_live es).*1.
Proof.
  induction es as [| e es IH]; intros Hd Ht; cbn [Map_live]; [constructor |].
  apply distinct_cons in Hd as [Hd He]. apply tagged_cons in Ht as [Hte Ht].
  destruct (Z.eqb_spec (hash1 e) 0) as [Hz | Hnz]; [by apply IH |].
  cbn [fmap list_fmap fst]. constructor; [| by apply IH].
  intros ((k & v) & Hk & (x & Hx & <- & <-)%elem_Map_live)%list_elem_of_fmap.
  cbn [fst] in Hk. apply (He Hnz). exists x. split; [done |]. split; [| done].
  rewrite (Ht x Hx), (Hte Hnz). by rewrite Hk.
Qed.

(** What the fields of a well-formed map say about its associations. *)
Lemma Map_wf_live m :
  Map_wf m ->
  NoDup (Map_live (entries m)).*1 /\
  Z.of_nat (length (Map_live (entries m))) = size m /\
  (forall k v, (k, v) ∈ Map_live (entries m) <->
               holds hash1 (entries m) (assoc k v)) /\
  (forall k, k ∈ (Map_live (entries m)).*1 <->
             has_key hash1 key (entries m) (tag k) k).
Proof.
  intros Hwf. pose proof (Map_wf_tagged m Hwf) as Ht.
  assert (Hin : forall k v, (k, v) ∈ Map_live (entries m) <->
                            holds hash1 (entries m) (assoc k v)).
  { intros k v. rewrite elem_Map_live. split.
    - intros (x & Hx & <- & <-). by rewrite <- (holds_assoc _ x Ht Hx).
    - intros Hx. by exists (assoc k v). }
  split; [apply NoDup_Map_live; [by apply Map_wf_distinct | done] |].
  split; [by rewrite length_Map_live, <- Map_wf_size |]. split; [done |].
  intros k. rewrite has_key_assoc by done. rewrite list_elem_of_fmap. split.
  - intros ((k' & v) & -> & Hkv). exists v. by apply Hin.
  - intros (v & Hx). exists (k, v). split; [done | by apply Hin].
Qed.

End MapLookups.

(** ** [Map]: insertion, removal, copy and iteration, as a caller sees them *)

Section MapUser.
Context {rt : Runtime} {rtl : RuntimeLaws}.
Context {K : Type} {cmp : Comparable K} {laws : ComparableLaws K} {zk : Zero K}.
Context {V : Type} {zv : Zero V}.
Implicit Types (m : Map K V) (k : K) (v : V).

Lemma Put_absent_spec m k v v0 fuel :
  Map_wf m -> Map_Get fuel m k = Ok (v0, false) ->
  4 * Z.max (len (entries m)) 16 < Z.of_nat fuel ->
  2 * len (entries m) <= maxAlloc ->
  exists m', Map_Put fuel m k v = Ok m' /\ Map_wf m' /\
    len (entries m') <= Z.of_nat fuel /\
    Map_Get fuel m' k = Ok (v, true) /\ size m' = size m + 1 /\
    (forall k', k' <> k -> Map_Get fuel m' k' = Map_Get fuel m k').
Proof.
  intros Hwf Hget Hfuel Hmax.
  apply Get_absent_iff in Hget as [_ Hno]; [| done | lia].
  pose proof (Put_wf m k v fuel Hwf) as Hput.
  destruct (Map_Put fuel m k v) as [m' | |]; [| exfalso; lia | exfalso; lia].
  destruct Hput as (Hwf' & Hh & _ & _ & Hnew & Hlen).
  assert (Hl' : len (entries m') <= Z.of_nat fuel) by lia.
  exists m'. split; [done |]. split; [by right |]. split; [done |].
  split; [| split; [by apply Hnew |]].
  - apply Get_found_iff; [by right | done |]. apply Hh. by right.
  - intros k' Hne. apply Get_ext; [by right | done | done | lia |].
    intros v'. rewrite Hh. split; [| by left].
    intros [Hx | [_ Hx]]; [done |]. by injection Hx as _ ? _.
Qed.

(** X1.  [Put] of a key that [Get] does not find (in a map reached by the
    operations of [Map], with room to grow): the call returns, [Get] of the
    key then returns the value put, the size is one more, and [Get] of every
    other key returns what it returned before. *)
Theorem X1_Put_absent_then_Get m k v v0 fuel :
  Map_reachable m -> Map_Get fuel m k = Ok (v0, false) ->
  4 * Z.max (len (entries m)) 16 < Z.of_nat fuel ->
  2 * len (entries m) <= maxAlloc ->
  exists m', Map_Put fuel m k v = Ok m' /\
    Map_Get fuel m' k = Ok (v, true) /\ Map_Size m' = Map_Size m + 1 /\
    (forall k', k' <> k -> Map_Get fuel m' k' = Map_Get fuel m k').
Proof.
  intros Hr%Map_reachable_wf Hget Hfuel Hmax.
  destruct (Put_absent_spec m k v v0 fuel Hr Hget Hfuel Hmax)
    as (m' & Hput & _ & _ & Hg & Hs & Hframe).
  by exists m'.
Qed.

Lemma Remove_spec m k fuel :
  Map_wf m -> 4 * Z.max (len (entries m)) 16 < Z.of_nat fuel ->
  exists m', Map_Remove fuel m k = Ok m' /\ Map_wf m' /\
    len (entries m') <= Z.of_nat fuel /\
    Map_Get fuel m' k = Ok (zero, false) /\
    (forall k', k' <> k -> Map_Get fuel m' k' = Map_Get fuel m k') /\
    (forall v, Map_Get fuel m k = Ok (v, true) -> size m' = size m - 1) /\
    (forall v, Map_Get fuel m k = Ok (v, false) -> m' = m).
Proof.
  intros Hwf Hfuel. pose proof (Remove_wf m k fuel Hwf) as Hrem.
  destruct (Map_Remove fuel m k) as [m' | |] eqn:Hrun; [| done | exfalso; lia].
  destruct Hrem as (Hwf' & Hh & Hle).
  destruct (Map_wf_len_bound m Hwf) as [Hs0 Hlen].
  destruct (Map_wf_len_bound m' Hwf') as [Hs0' Hlen'].
  assert (Hload : 4 * size m <= 3 * Z.max (len (entries m)) 16).
  { destruct Hwf as [[_ ->] | (_ & _ & _ & ? & _)]; lia. }
  assert (Hl' : len (entries m') <= Z.of_nat fuel) by lia.
  exists m'. split; [done |]. split; [done |]. split; [done |].
  split; [| split; [| split]].
  - apply Get_absent_iff; [done | done |]. split; [done |].
    intros (x & Hx & _ & Hk). apply Hh in Hx as [_ Hne]. done.
  - intros k' Hne. apply Get_ext; [done | done | done | lia |].
    intros v'. rewrite Hh. cbn [assoc key]. tauto.
  - intros v Hget. apply Get_found_iff in Hget; [| done | lia].
    destruct (Map_wf_live m Hwf) as (Hnd & Hlen1 & _ & Hkeys).
    destruct (Map_wf_live m' Hwf') as (Hnd' & Hlen2 & _ & Hkeys').
    assert (Hcount : length (Map_live (entries m)).*1 =
                     S (length (Map_live (entries m')).*1)).
    { apply (length_without _ _ k); [done | done | |].
      - apply Hkeys. by exists (assoc k v).
      - intros k'. rewrite Hkeys, Hkeys'. split.
        + intros (x & Hx & Hhx & Hkx). apply Hh in Hx as [Hx Hne].
          split; [by exists x | congruence].
        + intros [(x & Hx & Hhx & Hkx) Hne]. exists x. split; [| done].
          apply Hh. split; [done | congruence]. }
    rewrite !length_fmap in Hcount. lia.
  - intros v Hget. apply (Remove_absent_unchanged m k v fuel) in Hget. congruence.
Qed.

(** X2.  [Remove] on a map reached by the operations of [Map] returns and
    never panics; [Get] of the key then returns the zero value and false,
    [Get] of every other key returns what it returned before; the size is
    one less when the key was found, and the map is returned as it was when
    it was not. *)
Theorem X2_Remove_then_Get m k fuel :
  Map_reachable m -> 4 * Z.max (len (entries m)) 16 < Z.of_nat fuel ->
  exists m', Map_Remove fuel m k = Ok m' /\
    Map_Get fuel m' k = Ok (zero, false) /\
    (forall k', k' <> k -> Map_Get fuel m' k' = Map_Get fuel m k') /\
    (forall v, Map_Get fuel m k = Ok (v, true) -> Map_Size m' = Map_Size m - 1) /\
    (forall v, Map_Get fuel m k = Ok (v, false) -> m' = m).
Proof.
  intros Hr%Map_reachable_wf Hfuel.
  destruct (Remove_spec m k fuel Hr Hfuel) as (m' & Hrem & _ & _ & Hrest).
  by exists m'.
Qed.

Lemma Map_eta m : {| entries := entries m; size := size m |} = m.
Proof. by destruct m. Qed.

Lemma Map_Copy_exact m :
  Map_wf m -> Map_Copy m = Ok (if size m =? 0 then zero else m).
Proof.
  intros Hwf. unfold Map_Copy. destruct (Z.eqb_spec (size m) 0) as [Hs0 | Hs0]; [done |].
  destruct Hwf as [[_ ?] | (_ & Hcap & _)]; [done |].
  rewrite make_Ok by lia. cbn [bind].
  rewrite copy_same_length, Map_eta; [done |].
  rewrite length_replicate. unfold len. lia.
Qed.

Lemma Map_live_empty (es : list (mapEntry K V)) :
  live_count hash1 es = 0 -> Map_live es = [].
Proof.
  intros Hz. rewrite <- length_Map_live in Hz.
  destruct (Map_live es); [done | cbn [length] in Hz; lia].
Qed.

(** X3.  [Copy] of a map reached by the operations of [Map] returns, without
    panic, a map of the same size on which [Get] answers as on the original
    and which [ForEach] ranges over in the same order; the copy of a map of
    size 0 has no backing array, any other copy has the capacity of the
    original. *)
Theorem X3_Map_Copy_same_answers m :
  Map_reachable m ->
  exists c, Map_Copy m = Ok c /\ Map_Size c = Map_Size m /\
    (forall fuel k, Map_Get fuel c k = Map_Get fuel m k) /\
    Map_live (entries c) = Map_live (entries m) /\
    len (entries c) = (if Map_Size m =? 0 then 0 else len (entries m)).
Proof.
  intros Hwf%Map_reachable_wf. rewrite (Map_Copy_exact m Hwf). unfold Map_Size.
  destruct (Z.eqb_spec (size m) 0) as [Hs0 | Hs0]; [| by exists m].
  exists zero. split; [done |]. split; [done |]. split; [| split; [| done]].
  - intros fuel k. unfold Map_Get. by rewrite Hs0.
  - symmetry. apply Map_live_empty. by rewrite <- Map_wf_size.
Qed.

(** X4.  On a map reached by the operations of [Map], [ForEach] ranges over
    [Size()] pairs, no key twice, and the pairs are exactly the (key, value)
    that [Get] finds. *)
Theorem X4_Map_ForEach_pairs m :
  Map_reachable m ->
  (forall (S Err : Type) (f : K -> V -> S -> S * option Err) (st : S),
     Map_ForEach f m st =
     visit_until_error (fun x => f (fst x) (snd x)) (Map_live (entries m)) st) /\
  NoDup (Map_live (entries m)).*1 /\
  Z.of_nat (length (Map_live (entries m))) = Map_Size m /\
  (forall fuel k v, len (entries m) <= Z.of_nat fuel ->
     ((k, v) ∈ Map_live (entries m) <-> Map_Get fuel m k = Ok (v, true))).
Proof.
  intros Hwf%Map_reachable_wf.
  destruct (Map_wf_live m Hwf) as (Hnd & Hlen & Hin & _).
  split; [intros S Err f st; apply Map_ForEach_range_visit |].
  split; [done |]. split; [done |].
  intros fuel k v Hfuel. by rewrite Hin, Get_found_iff.
Qed.

(** The calls [Put(k1, v1)], ..., [Put(kn, vn)]. *)
Definition puts (kvs : list (K * V)) : list (@map_op K V) :=
  (fun kv => OpPut (fst kv) (snd kv)) <$> kvs.

Lemma kept_value_puts_Some kvs k v :
  kept_value (puts kvs) k (Some v) = Some v.
Proof.
  induction kvs as [| [k' v'] kvs IH]; cbn [puts fmap list_fmap kept_value fst snd];
    [done |].
  destruct (Equals k' k); apply IH.
Qed.

Lemma kept_value_puts kvs k :
  NoDup kvs.*1 ->
  (forall v, (k, v) ∈ kvs -> kept_value (puts kvs) k None = Some v) /\
  (k ∉ kvs.*1 -> kept_value (puts kvs) k None = None).
Proof.
  induction kvs as [| [k' v'] kvs IH]; cbn [puts fmap list_fmap kept_value fst snd].
  - intros _. split; [by intros v ?%elem_of_nil | done].
  - intros [Hnin Hnd]%NoDup_cons. destruct (IH Hnd) as [IH1 IH2].
    destruct (Equals k' k) eqn:Heq.
    + apply Equals_eq in Heq as ->. split.
      * intros v [[= ->] | Hin]%elem_of_cons; [apply kept_value_puts_Some |].
        exfalso. apply Hnin. apply list_elem_of_fmap. by exists (k, v).
      * intros Hno. exfalso. apply Hno. by left.
    + assert (Hne : k' <> k).
      { intros ->. assert (Equals k k = true) by by apply Equals_eq. congruence. }
      split.
      * intros v [[= ? ?] | Hin]%elem_of_cons; [done | by apply IH1].
      * intros Hno. apply IH2. intros Hin. apply Hno. by right.
Qed.

(** X5.  The loop of [TestMap], for any keys: after [Put] of pairs with
    pairwise distinct keys on the zero map, the size is the number of pairs,
    [Get] of each key returns its value, and [Get] of any other key returns
    the zero value and false. *)
Theorem X5_Put_distinct_keys (kvs : list (K * V)) (fuel : nat) :
  NoDup kvs.*1 ->
  32 + 8 * Z.of_nat (length kvs) <= maxAlloc ->
  32 + 8 * Z.of_nat (length kvs) < Z.of_nat fuel ->
  exists m, Map_run fuel (puts kvs) zero = Ok m /\
    Map_Size m = Z.of_nat (length kvs) /\
    (forall k v, (k, v) ∈ kvs -> Map_Get fuel m k = Ok (v, true)) /\
    (forall k, k ∉ kvs.*1 -> Map_Get fuel m k = Ok (zero, false)).
Proof.
  intros Hnd Hmax Hfuel.
  assert (Hlen : length (puts kvs) = length kvs) by apply length_fmap.
  destruct (Map_run_models fuel (puts kvs) 0 (zero : Map K V) (fun _ => None))
    as (m & Hrun & Hwf & Hsz & Hmod); try done; try (rewrite Hlen; lia).
  { by left. }
  { intros k v. split; [intros Hx; by apply holds_nil in Hx | done]. }
  cbn [Nat.add] in Hsz. rewrite Hlen in Hsz.
  destruct (Map_wf_len_bound m Hwf) as [Hs0 Hl].
  exists m. split; [done |]. split; [| split].
  - destruct (Map_wf_live m Hwf) as (Hndm & Hlenm & _ & Hkeys).
    unfold Map_Size. rewrite <- Hlenm. f_equal.
    rewrite <- (length_fmap fst (Map_live (entries m))), <- (length_fmap fst kvs).
    apply Permutation_length, NoDup_Permutation; [done | done |].
    intros k. rewrite Hkeys, has_key_assoc by done. split.
    + intros (v & Hx). apply Hmod in Hx.
      destruct (@list_elem_of_dec K key_eq_dec k kvs.*1) as [Hin | Hnin]; [done |].
      apply (kept_value_puts kvs k Hnd) in Hnin. congruence.
    + intros ((k' & v) & -> & Hin)%list_elem_of_fmap. exists v.
      apply Hmod. by apply (kept_value_puts kvs k' Hnd).
  - intros k v Hin. apply Get_found_iff; [done | lia |].
    apply Hmod. by apply (kept_value_puts kvs k Hnd).
  - intros k Hnin. apply Get_absent_iff; [done | lia |]. split; [done |].
    rewrite has_key_assoc by done. intros (v & Hx). apply Hmod in Hx.
    apply (kept_value_puts kvs k Hnd) in Hnin. congruence.
Qed.

End MapUser.

(** ** [Set]: what [Contains] and [Hash] return *)

Section SetLookups.
Context {rt : Runtime} {rtl : RuntimeLaws}.
Context {K : Type} {cmp : Comparable K} {laws : ComparableLaws K} {zk : Zero K}.
Implicit Types (s t r : HashSet K) (k : K).

Lemma Set_mem_dec s k : Set_mem s k \/ ~ Set_mem s k.
Proof.
  rewrite Set_mem_keys.
  destruct (@list_elem_of_dec K key_eq_dec k (keys_of (sentries s))); [by left | by right].
Qed.

Lemma Contains_total s k fuel :
  Set_wf s -> len (sentries s) <= Z.of_nat fuel ->
  exists b, Set_Contains fuel s k = Ok b /\ (b = true <-> Set_mem s k).
Proof.
  intros Hwf Hfuel. pose proof (Contains_wf s k fuel Hwf) as Hc.
  destruct (Set_Contains fuel s k) as [b | |]; [| done | lia]. by exists b.
Qed.

Lemma Contains_is s k fuel (b : bool) :
  Set_wf s -> len (sentries s) <= Z.of_nat fuel ->
  (b = true <-> Set_mem s k) -> Set_Contains fuel s k = Ok b.
Proof.
  intros Hwf Hfuel Hb.
  destruct (Contains_total s k fuel Hwf Hfuel) as (b' & -> & Hb'). f_equal.
  destruct b, b'; try done.
  - apply (proj2 Hb'), (proj1 Hb). done.
  - symmetry. apply (proj2 Hb), (proj1 Hb'). done.
Qed.

Lemma Contains_true_iff s k fuel :
  Set_wf s -> len (sentries s) <= Z.of_nat fuel ->
  (Set_Contains fuel s k = Ok true <-> Set_mem s k).
Proof.
  intros Hwf Hfuel.
  destruct (Contains_total s k fuel Hwf Hfuel) as (b & -> & Hb).
  rewrite <- Hb. split; [by intros [= ->] | by intros ->].
Qed.

Lemma Contains_false_iff s k fuel :
  Set_wf s -> len (sentries s) <= Z.of_nat fuel ->
  (Set_Contains fuel s k = Ok false <-> ~ Set_mem s k).
Proof.
  intros Hwf Hfuel.
  destruct (Contains_total s k fuel Hwf Hfuel) as (b & -> & Hb).
  rewrite <- Hb. by destruct b.
Qed.

Lemma Contains_ext s t k fuel :
  Set_wf s -> Set_wf t ->
  len (sentries s) <= Z.of_nat fuel -> len (sentries t) <= Z.of_nat fuel ->
  (Set_mem s k <-> Set_mem t k) ->
  Set_Contains fuel s k = Set_Contains fuel t k.
Proof.
  intros Hs Ht Hfs Hft Hsame.
  destruct (Contains_total s k fuel Hs Hfs) as (b & -> & Hb).
  symmetry. apply Contains_is; try done. by rewrite Hb.
Qed.

Lemma same_answers_iff s t fuel :
  Set_wf s -> Set_wf t ->
  len (sentries s) <= Z.of_nat fuel -> len (sentries t) <= Z.of_nat fuel ->
  ((forall k, Set_Contains fuel s k = Set_Contains fuel t k) <->
   (forall k, Set_mem s k <-> Set_mem t k)).
Proof.
  intros Hs Ht Hfs Hft. split.
  - intros Hsame k. rewrite <- (Contains_true_iff s k fuel), <- (Contains_true_iff t k fuel)
      by done. by rewrite Hsame.
  - intros Hsame k. by apply Contains_ext.
Qed.

(** A key that [Contains] finds: [Add] returns the set as it is. *)
Lemma Add_present_unchanged s k fuel :
  Set_Contains fuel s k = Ok true -> Set_Add fuel s k = Ok s.
Proof.
  unfold Set_Contains, Set_Add, Set_containsHash1Key.
  destruct (ssize s =? 0); [done |].
  destruct (probe shash1 skey fuel (sentries s) _ k _) as [[i e | i] | |] eqn:Hp;
    cbn [bind]; try done.
  intros _. destruct (probe_Ok_nonnil _ _ _ _ _ _ _ _ Hp) as (f & -> & Hnn).
  destruct (sentries s) as [| e0 t0] eqn:Hent; [done |].
  cbn [Set_addHash1Key]. rewrite Hent. cbn [bind]. rewrite <- Hent in Hp. by rewrite Hp.
Qed.

(** A key that [Contains] does not find: [Remove] returns the set as it
    is. *)
Lemma Set_Remove_absent_unchanged s k fuel :
  Set_Contains fuel s k = Ok false -> Set_Remove fuel s k = Ok s.
Proof.
  unfold Set_Contains, Set_Remove, Set_Remove_run, Set_removeHash1Key_run,
    Set_containsHash1Key, rmap.
  destruct (ssize s =? 0); [done |].
  destruct (probe shash1 skey fuel (sentries s) _ k _) as [[i e | i] | |];
    cbn [bind]; done.
Qed.

(** [Hash()] is a function of the keys of the set. *)
Lemma Set_Hash_keys s :
  Set_wf s -> Set_Hash s = Z.lxor emptySetHash (xor_tags (keys_of (sentries s))).
Proof.
  intros Hwf. destruct (Set_wf_keys s Hwf) as (_ & Hlen & Hh).
  unfold Set_Hash. destruct (Z.eqb_spec (ssize s) 0) as [Hs0 | Hs0].
  - destruct (keys_of (sentries s)); [| cbn [length] in Hlen; lia].
    cbn [xor_tags]. by rewrite Z.lxor_0_r.
  - apply Hh. intros Hnil. by apply Set_wf_nil in Hnil.
Qed.

Lemma Set_Hash_same_members s t :
  Set_wf s -> Set_wf t -> (forall k, Set_mem s k <-> Set_mem t k) ->
  Set_Hash s = Set_Hash t.
Proof.
  intros Hs Ht Hsame. rewrite !Set_Hash_keys by done. f_equal.
  apply xor_tags_perm. by apply same_keys_perm.
Qed.

Lemma Set_size_with s s' k :
  Set_wf s -> Set_wf s' -> ~ Set_mem s k ->
  (forall k', Set_mem s' k' <-> Set_mem s k' \/ k' = k) ->
  ssize s' = ssize s + 1 /\ Set_Hash s' = Z.lxor (Set_Hash s) (tag k).
Proof.
  intros Hs Hs' Hno Hiff.
  destruct (Set_wf_keys s Hs) as (Hnd & Hlen & _).
  destruct (Set_wf_keys s' Hs') as (Hnd' & Hlen' & _).
  assert (Hperm : keys_of (sentries s') ≡ₚ k :: keys_of (sentries s)).
  { apply NoDup_Permutation; [done | |].
    - constructor; [by rewrite <- Set_mem_keys | done].
    - intros x. rewrite elem_of_cons, <- !Set_mem_keys, Hiff. tauto. }
  split.
  - rewrite Hlen, Hlen'. apply Permutation_length in Hperm. cbn [length] in Hperm. lia.
  - rewrite !Set_Hash_keys by done. rewrite (xor_tags_perm _ _ Hperm). cbn [xor_tags].
    rewrite (Z.lxor_comm (tag k)). by rewrite Z.lxor_assoc.
Qed.

Lemma Set_size_without s s' k :
  Set_wf s -> Set_wf s' -> Set_mem s k ->
  (forall k', Set_mem s' k' <-> Set_mem s k' /\ k' <> k) ->
  ssize s' = ssize s - 1 /\ Set_Hash s' = Z.lxor (Set_Hash s) (tag k).
Proof.
  intros Hs Hs' Hin Hiff.
  destruct (Set_size_with s' s k) as [Hsz Hh]; try done.
  - intros Hk. by apply Hiff in Hk as [_ ?].
  - intros k'. rewrite Hiff. destruct (key_eq_dec k' k) as [-> | Hne]; tauto.
  - split; [lia |]. rewrite Hh, Z.lxor_assoc, Z.lxor_nilpotent. by rewrite Z.lxor_0_r.
Qed.

Lemma Add_spec s k fuel :
  Set_wf s -> 4 * Z.max (len (sentries s)) 16 < Z.of_nat fuel ->
  2 * len (sentries s) <= maxAlloc ->
  exists s', Set_Add fuel s k = Ok s' /\ Set_wf s' /\
    len (sentries s') <= Z.of_nat fuel /\
    (forall k', Set_mem s' k' <-> Set_mem s k' \/ k' = k) /\
    ssize s <= ssize s' <= ssize s + 1.
Proof.
  intros Hwf Hfuel Hmax. pose proof (Add_wf s k fuel Hwf) as Hadd.
  destruct (Set_Add fuel s k) as [s' | |]; [| exfalso; lia | exfalso; lia].
  destruct Hadd as (Hwf' & Hm & Hsame & Hnew & Hlen).
  exists s'. split; [done |]. split; [by right |]. split; [lia |]. split; [done |].
  destruct (Set_mem_dec s k) as [Hin | Hnin].
  - apply Hsame in Hin. apply (f_equal size) in Hin. cbn [size to_map] in Hin. lia.
  - rewrite (Hnew Hnin). lia.
Qed.

Lemma Set_Remove_spec s k fuel :
  Set_wf s -> 4 * Z.max (len (sentries s)) 16 < Z.of_nat fuel ->
  exists s', Set_Remove fuel s k = Ok s' /\ Set_wf s' /\
    len (sentries s') <= Z.of_nat fuel /\
    (forall k', Set_mem s' k' <-> Set_mem s k' /\ k' <> k) /\
    ssize s' <= ssize s.
Proof.
  intros Hwf Hfuel. pose proof (Remove_set_wf s k fuel Hwf) as Hrem.
  destruct (Set_Remove fuel s k) as [s' | |]; [| done | exfalso; lia].
  destruct Hrem as (Hwf' & Hm).
  assert (Hle : ssize s' <= ssize s).
  { apply Set_subset_size; try done. intros k' Hk'. by apply Hm in Hk' as [? _]. }
  destruct (Set_wf_len_bound s' Hwf') as [Hs0' Hlen'].
  assert (Hload : 4 * ssize s <= 3 * Z.max (len (sentries s)) 16).
  { destruct Hwf as [[_ ->] | [(_ & _ & _ & Hl & _) _]]; [lia |].
    cbn [entries size to_map] in Hl. rewrite len_conv in Hl. lia. }
  exists s'. split; [done |]. split; [done |]. split; [lia |]. done.
Qed.

End SetLookups.

(** ** [Set]: [Add], [Remove], [Equals], [Hash], [IsSubset] and [IsDisjoint],
    as a caller sees them *)

Section SetUser.
Context {rt : Runtime} {rtl : RuntimeLaws}.
Context {K : Type} {cmp : Comparable K} {laws : ComparableLaws K} {zk : Zero K}.
Implicit Types (s t r : HashSet K) (k : K).

(** X6.  [Add] on a set reached by the operations of [Set], with room to
    grow: the call returns, [Contains] of the key is then true and
    [Contains] of every other key is what it was.  When the key was already
    a member the set is returned as it was; when it was not, the size is one
    more and [Hash()] is the former [Hash()] combined by exclusive-or with
    the tagged hash of the key. *)
Theorem X6_Add_then_Contains s k fuel :
  Set_reachable s -> 4 * Z.max (len (sentries s)) 16 < Z.of_nat fuel ->
  2 * len (sentries s) <= maxAlloc ->
  exists s', Set_Add fuel s k = Ok s' /\
    Set_Contains fuel s' k = Ok true /\
    (forall k', k' <> k -> Set_Contains fuel s' k' = Set_Contains fuel s k') /\
    (Set_Contains fuel s k = Ok true -> s' = s) /\
    (Set_Contains fuel s k = Ok false ->
       Set_Size s' = Set_Size s + 1 /\
       Set_Hash s' = Z.lxor (Set_Hash s) (Z.lor (Hash k) fullBit)).
Proof.
  intros Hwf%Set_reachable_wf Hfuel Hmax.
  destruct (Add_spec s k fuel Hwf Hfuel Hmax) as (s' & Hadd & Hwf' & Hl' & Hm & _).
  exists s'. split; [done |]. split; [| split; [| split]].
  - apply Contains_true_iff; [done | done |]. apply Hm. by right.
  - intros k' Hne. apply Contains_ext; [done | done | done | lia |].
    rewrite Hm. tauto.
  - intros Hc. apply Add_present_unchanged in Hc. congruence.
  - intros Hc. apply Contains_false_iff in Hc; [| done | lia].
    by apply Set_size_with.
Qed.

(** X7.  [Remove] on a set reached by the operations of [Set] returns and
    never panics; [Contains] of the key is then false and [Contains] of every
    other key is what it was.  When the key was not a member the set is
    returned as it was; when it was, the size is one less and [Hash()] is the
    former [Hash()] combined by exclusive-or with the tagged hash of the
    key. *)
Theorem X7_Set_Remove_then_Contains s k fuel :
  Set_reachable s -> 4 * Z.max (len (sentries s)) 16 < Z.of_nat fuel ->
  exists s', Set_Remove fuel s k = Ok s' /\
    Set_Contains fuel s' k = Ok false /\
    (forall k', k' <> k -> Set_Contains fuel s' k' = Set_Contains fuel s k') /\
    (Set_Contains fuel s k = Ok false -> s' = s) /\
    (Set_Contains fuel s k = Ok true ->
       Set_Size s' = Set_Size s - 1 /\
       Set_Hash s' = Z.lxor (Set_Hash s) (Z.lor (Hash k) fullBit)).
Proof.
  intros Hwf%Set_reachable_wf Hfuel.
  destruct (Set_Remove_spec s k fuel Hwf Hfuel) as (s' & Hrem & Hwf' & Hl' & Hm & _).
  exists s'. split; [done |]. split; [| split; [| split]].
  - apply Contains_false_iff; [done | done |]. intros Hk. by apply Hm in Hk as [_ ?].
  - intros k' Hne. apply Contains_ext; [done | done | done | lia |].
    rewrite Hm. tauto.
  - intros Hc. apply Set_Remove_absent_unchanged in Hc. congruence.
  - intros Hc. apply Contains_true_iff in Hc; [| done | lia].
    by apply Set_size_without.
Qed.

(** X8.  On sets reached by the operations of [Set], [Equals] returns true
    exactly when [Contains] gives the same answer on both sets for every
    key; in particular it returns false on sets that differ in one key. *)
Theorem X8_Equals_iff_same_answers s t fuel :
  Set_reachable s -> Set_reachable t ->
  len (sentries s) <= Z.of_nat fuel -> len (sentries t) <= Z.of_nat fuel ->
  exists b, Set_Equals fuel s t = Ok b /\
    (b = true <-> forall k, Set_Contains fuel s k = Set_Contains fuel t k).
Proof.
  intros Hs%Set_reachable_wf Ht%Set_reachable_wf Hfs Hft.
  destruct (Equals_spec fuel s t Hs Ht Hfs Hft) as (b & Hrun & Hb).
  exists b. split; [done |]. by rewrite Hb, same_answers_iff.
Qed.

(** X9.  [Hash()] respects [Equals]: two sets reached by the operations of
    [Set] on which [Contains] gives the same answers (equivalently, which
    [Equals] finds equal) have the same [Hash()], whatever the order of the
    insertions, the removals in between and the capacities. *)
Theorem X9_Hash_respects_Equals s t fuel :
  Set_reachable s -> Set_reachable t ->
  len (sentries s) <= Z.of_nat fuel -> len (sentries t) <= Z.of_nat fuel ->
  ((forall k, Set_Contains fuel s k = Set_Contains fuel t k) ->
   Set_Hash s = Set_Hash t) /\
  (Set_Equals fuel s t = Ok true -> Set_Hash s = Set_Hash t).
Proof.
  intros Hs%Set_reachable_wf Ht%Set_reachable_wf Hfs Hft.
  assert (Hsame : (forall k, Set_Contains fuel s k = Set_Contains fuel t k) ->
                  Set_Hash s = Set_Hash t).
  { intros Hall. apply Set_Hash_same_members; [done | done |].
    by apply (same_answers_iff s t fuel). }
  split; [done |]. intros Heq. apply Hsame.
  destruct (Equals_spec fuel s t Hs Ht Hfs Hft) as (b & Hrun & Hb).
  apply (same_answers_iff s t fuel); try done. apply Hb. congruence.
Qed.

Lemma none_in_spec fuel es t :
  Set_table_wf t -> tagged_entries es -> len (sentries t) <= Z.of_nat fuel ->
  exists b, Set_none_in fuel es t = Ok b /\
    (b = true <-> forall e, holds shash1 es e -> ~ Set_mem t (skey e)).
Proof.
  intros Hwf Ht Hfuel. induction es as [| e es IH]; cbn [Set_none_in].
  - exists true. split; [done |]. split; [| done]. intros _ e He.
    by apply holds_nil in He.
  - apply tagged_entries_cons in Ht as [Hte Ht]. destruct (IH Ht) as (b & Hrun & Hb).
    destruct (Z.eqb_spec (shash1 e) 0) as [Hz | Hnz].
    + exists b. split; [done |]. rewrite Hb. split; intros Hall e' He'.
      * apply holds_cons in He' as [[-> ?] | ?]; [done | by apply Hall].
      * apply Hall. apply holds_cons. by right.
    + rewrite (Hte Hnz).
      pose proof (containsHash1Key_wf t (skey e) fuel Hwf) as Hc.
      destruct (Set_containsHash1Key fuel t (tag (skey e)) (skey e)) as [c | |];
        [| done | lia].
      cbn [bind]. destruct c.
      * exists false. split; [done |]. split; [done |]. intros Hall. exfalso.
        apply (Hall e); [apply holds_cons; by left | by apply Hc].
      * exists b. split; [done |]. rewrite Hb. split; intros Hall e' He'.
        -- apply holds_cons in He' as [[-> ?] | ?]; [| by apply Hall].
           intros Hm. apply Hc in Hm. done.
        -- apply Hall. apply holds_cons. by right.
Qed.

Lemma Set_wf_table s : Set_wf s -> ssize s <> 0 -> Set_table_wf s.
Proof. intros [[_ ?] | ?] Hs0; done. Qed.

Lemma IsSubset_spec fuel s t :
  Set_wf s -> Set_wf t -> len (sentries t) <= Z.of_nat fuel ->
  exists b, Set_IsSubset fuel s t = Ok b /\
    (b = true <-> forall k, Set_mem s k -> Set_mem t k).
Proof.
  intros Hs Ht Hft. unfold Set_IsSubset.
  destruct (Z.gtb_spec (ssize s) (ssize t)) as [Hgt | Hle].
  { exists false. split; [done |]. split; [done |]. intros Hsub. exfalso.
    pose proof (Set_subset_size s t Hs Ht Hsub). lia. }
  destruct (Z.eqb_spec (ssize s) 0) as [Hs0 | Hs0].
  { exists true. split; [done |]. split; [| done]. intros _ k Hm.
    exfalso. by apply (Set_wf_size0 s k). }
  destruct (Set_wf_len_bound s Hs) as [Hpos _].
  destruct (all_in_spec fuel (sentries s) t) as (b & Hrun & Hb);
    [apply Set_wf_table; [done | lia] | by apply Set_wf_tagged | done |].
  exists b. split; [done |]. rewrite Hb. split.
  - intros Hall k (e & He & <-). by apply Hall.
  - intros Hsub e He. apply Hsub. by exists e.
Qed.

Lemma IsDisjoint_spec fuel s t :
  Set_wf s -> Set_wf t ->
  len (sentries s) <= Z.of_nat fuel -> len (sentries t) <= Z.of_nat fuel ->
  exists b, Set_IsDisjoint fuel s t = Ok b /\
    (b = true <-> forall k, ~ (Set_mem s k /\ Set_mem t k)).
Proof.
  intros Hs Ht Hfs Hft. unfold Set_IsDisjoint.
  destruct (Z.eqb_spec (ssize s) 0) as [Hs0 | Hs0]; cbn [orb].
  { exists true. split; [done |]. split; [| done]. intros _ k [Hm _].
    by apply (Set_wf_size0 s k). }
  destruct (Z.eqb_spec (ssize t) 0) as [Ht0 | Ht0].
  { exists true. split; [done |]. split; [| done]. intros _ k [_ Hm].
    by apply (Set_wf_size0 t k). }
  unfold swap_if_longer. destruct (_ >? _).
  - destruct (none_in_spec fuel (sentries t) s) as (b & Hrun & Hb);
      [by apply Set_wf_table | by apply Set_wf_tagged | done |].
    exists b. split; [done |]. rewrite Hb. split.
    + intros Hall k [Hks (e & He & <-)]. by apply (Hall e).
    + intros Hdis e He Hm. apply (Hdis (skey e)). split; [done | by exists e].
  - destruct (none_in_spec fuel (sentries s) t) as (b & Hrun & Hb);
      [by apply Set_wf_table | by apply Set_wf_tagged | done |].
    exists b. split; [done |]. rewrite Hb. split.
    + intros Hall k [(e & He & <-) Hkt]. by apply (Hall e).
    + intros Hdis e He Hm. apply (Hdis (skey e)). split; [by exists e | done].
Qed.

(** X10.  On sets reached by the operations of [Set], [IsSubset] returns
    true exactly when every key that [Contains] finds in the receiver it
    finds in the argument (so the early [false] on a larger receiver is
    right). *)
Theorem X10_IsSubset_iff s t fuel :
  Set_reachable s -> Set_reachable t ->
  len (sentries s) <= Z.of_nat fuel -> len (sentries t) <= Z.of_nat fuel ->
  exists b, Set_IsSubset fuel s t = Ok b /\
    (b = true <->
     forall k, Set_Contains fuel s k = Ok true -> Set_Contains fuel t k = Ok true).
Proof.
  intros Hs%Set_reachable_wf Ht%Set_reachable_wf Hfs Hft.
  destruct (IsSubset_spec fuel s t Hs Ht Hft) as (b & Hrun & Hb).
  exists b. split; [done |]. rewrite Hb. split; intros Hsub k.
  - rewrite !Contains_true_iff by done. apply Hsub.
  - rewrite <- !(Contains_true_iff _ k fuel) by done. apply Hsub.
Qed.

(** X11.  On sets reached by the operations of [Set], [IsDisjoint] returns
    true exactly when no key is found by [Contains] in both sets. *)
Theorem X11_IsDisjoint_iff s t fuel :
  Set_reachable s -> Set_reachable t ->
  len (sentries s) <= Z.of_nat fuel -> len (sentries t) <= Z.of_nat fuel ->
  exists b, Set_IsDisjoint fuel s t = Ok b /\
    (b = true <->
     forall k, ~ (Set_Contains fuel s k = Ok true /\ Set_Contains fuel t k = Ok true)).
Proof.
  intros Hs%Set_reachable_wf Ht%Set_reachable_wf Hfs Hft.
  destruct (IsDisjoint_spec fuel s t Hs Ht Hfs Hft) as (b & Hrun & Hb).
  exists b. split; [done |]. rewrite Hb. split; intros Hdis k.
  - rewrite !Contains_true_iff by done. apply Hdis.
  - rewrite <- !(Contains_true_iff _ k fuel) by done. apply Hdis.
Qed.

End SetUser.

(** ** [Set]: the loops of [Union], [Intersection] and [Difference] *)

Section SetLoops.
Context {rt : Runtime} {rtl : RuntimeLaws}.
Context {K : Type} {cmp : Comparable K} {laws : ComparableLaws K} {zk : Zero K}.
Implicit Types (s t r : HashSet K) (k : K) (es : list (setEntry K)).

(** The key [k] is the key of a live entry of [es]. *)
Definition key_in es k : Prop := exists e, holds shash1 es e /\ skey e = k.

Lemma key_in_cons e es k :
  key_in (e :: es) k <-> (shash1 e <> 0 /\ skey e = k) \/ key_in es k.
Proof.
  unfold key_in. split.
  - intros (e' & [[-> Hl] | He']%holds_cons & Hk); [by left | right; eauto].
  - intros [[Hl Hk] | (e' & He' & Hk)].
    + exists e. split; [apply holds_cons; by left | done].
    + exists e'. split; [apply holds_cons; by right | done].
Qed.

Lemma key_in_nil k : ~ key_in [] k.
Proof. intros (e & He & _). by apply holds_nil in He. Qed.

Lemma Set_wf_live_count s : Set_wf s -> ssize s = live_count shash1 (sentries s).
Proof.
  intros [[Hnil Hs0] | [(_ & _ & Hsz & _) _]]; [by rewrite Hnil, Hs0 |].
  cbn [entries size to_map] in Hsz. by rewrite <- live_count_conv.
Qed.

Lemma addHash1Key_step r k fuel n :
  Set_wf r -> ssize r <= n ->
  32 + 8 * n <= maxAlloc -> 32 + 8 * n < Z.of_nat fuel ->
  exists r', Set_addHash1Key fuel r (tag k) k = Ok r' /\ Set_wf r' /\
    (forall k', Set_mem r' k' <-> Set_mem r k' \/ k' = k) /\
    ssize r <= ssize r' <= ssize r + 1.
Proof.
  intros Hwf Hn Hmax Hfuel. destruct (Set_wf_len_bound r Hwf) as [Hs0 Hlen].
  pose proof (addHash1Key_wf r k fuel Hwf) as Hadd.
  destruct (Set_addHash1Key fuel r (tag k) k) as [r' | |];
    [| exfalso; lia | exfalso; lia].
  destruct Hadd as (Hwf' & Hm & Hsame & Hnew & _).
  exists r'. split; [done |]. split; [by right |]. split; [done |].
  destruct (Set_mem_dec r k) as [Hin | Hnin].
  - apply Hsame in Hin. apply (f_equal size) in Hin. cbn [size to_map] in Hin. lia.
  - rewrite (Hnew Hnin). lia.
Qed.

Lemma add_all_total fuel es : forall r n,
  Set_wf r -> tagged_entries es -> ssize r + live_count shash1 es <= n ->
  32 + 8 * n <= maxAlloc -> 32 + 8 * n < Z.of_nat fuel ->
  exists r', Set_add_all fuel es r = Ok r' /\ Set_wf r' /\
    (forall k, Set_mem r' k <-> Set_mem r k \/ key_in es k) /\
    ssize r <= ssize r' <= ssize r + live_count shash1 es.
Proof.
  induction es as [| e es IH]; intros r n Hwf Ht Hn Hmax Hfuel;
    cbn [Set_add_all live_count] in *.
  - exists r. split; [done |]. split; [done |]. split; [| lia].
    intros k. split; [by left |]. intros [? | Hk]; [done |]. by apply key_in_nil in Hk.
  - apply tagged_entries_cons in Ht as [Hte Ht].
    pose proof (live_count_range shash1 es) as Hlc.
    unfold weight in *. destruct (Z.eqb_spec (shash1 e) 0) as [Hz | Hnz].
    + destruct (IH r n Hwf Ht) as (r' & Hrun & Hwf' & Hm & Hsz); [lia | done | done |].
      exists r'. split; [done |]. split; [done |]. split; [| lia].
      intros k. rewrite Hm, key_in_cons. tauto.
    + rewrite (Hte Hnz).
      destruct (addHash1Key_step r (skey e) fuel n Hwf) as (r1 & -> & Hwf1 & Hm1 & Hsz1);
        [lia | done | done |]. cbn [bind].
      destruct (IH r1 n Hwf1 Ht) as (r' & Hrun & Hwf' & Hm & Hsz); [lia | done | done |].
      exists r'. split; [done |]. split; [done |]. split; [| lia].
      intros k. rewrite Hm, Hm1, key_in_cons. split.
      * intros [[? | ->] | ?]; tauto.
      * intros [? | [[_ <-] | ?]]; tauto.
Qed.

Lemma add_common_total fuel es t : forall r n,
  Set_wf r -> Set_table_wf t -> len (sentries t) <= Z.of_nat fuel ->
  tagged_entries es -> ssize r + live_count shash1 es <= n ->
  32 + 8 * n <= maxAlloc -> 32 + 8 * n < Z.of_nat fuel ->
  exists r', Set_add_common fuel es t r = Ok r' /\ Set_wf r' /\
    (forall k, Set_mem r' k <-> Set_mem r k \/ (key_in es k /\ Set_mem t k)).
Proof.
  intros r n Hwf Hwt Hft. revert r Hwf.
  induction es as [| e es IH]; intros r Hwf Ht Hn Hmax Hfuel;
    cbn [Set_add_common live_count] in *.
  - exists r. split; [done |]. split; [done |].
    intros k. split; [by left |]. intros [? | [Hk _]]; [done |]. by apply key_in_nil in Hk.
  - apply tagged_entries_cons in Ht as [Hte Ht].
    pose proof (live_count_range shash1 es) as Hlc.
    unfold weight in *. destruct (Z.eqb_spec (shash1 e) 0) as [Hz | Hnz].
    + destruct (IH r Hwf Ht) as (r' & Hrun & Hwf' & Hm); [lia | done | done |].
      exists r'. split; [done |]. split; [done |].
      intros k. rewrite Hm, key_in_cons. tauto.
    + rewrite (Hte Hnz).
      pose proof (containsHash1Key_wf t (skey e) fuel Hwt) as Hc.
      destruct (Set_containsHash1Key fuel t (tag (skey e)) (skey e)) as [c | |];
        [| done | lia].
      cbn [bind]. destruct c.
      * destruct (addHash1Key_step r (skey e) fuel n Hwf)
          as (r1 & -> & Hwf1 & Hm1 & Hsz1); [lia | done | done |]. cbn [bind].
        destruct (IH r1 Hwf1 Ht) as (r' & Hrun & Hwf' & Hm); [lia | done | done |].
        exists r'. split; [done |]. split; [done |].
        intros k. rewrite Hm, Hm1, key_in_cons. split.
        -- intros [[? | ->] | ?]; [tauto | | tauto].
           right. split; [by left | by apply Hc].
        -- intros [? | [[[_ <-] | ?] ?]]; tauto.
      * destruct (IH r Hwf Ht) as (r' & Hrun & Hwf' & Hm); [lia | done | done |].
        exists r'. split; [done |]. split; [done |].
        intros k. rewrite Hm, key_in_cons. split; [tauto |].
        intros [? | [[[_ <-] | ?] Hkt]]; [tauto | | tauto].
        apply Hc in Hkt. done.
Qed.

Lemma remove_all_total fuel es : forall r n,
  Set_table_wf r -> tagged_entries es -> ssize r <= n ->
  32 + 8 * n < Z.of_nat fuel ->
  exists r', Set_remove_all fuel es r = Ok r' /\ Set_table_wf r' /\
    (forall k, Set_mem r' k <-> Set_mem r k /\ ~ key_in es k).
Proof.
  induction es as [| e es IH]; intros r n Hwf Ht Hn Hfuel; cbn [Set_remove_all].
  - exists r. split; [done |]. split; [done |].
    intros k. split; [| tauto]. intros Hm. split; [done | apply key_in_nil].
  - apply tagged_entries_cons in Ht as [Hte Ht].
    destruct (Z.eqb_spec (shash1 e) 0) as [Hz | Hnz].
    + destruct (IH r n Hwf Ht Hn Hfuel) as (r' & Hrun & Hwf' & Hm).
      exists r'. split; [done |]. split; [done |].
      intros k. rewrite Hm, key_in_cons. tauto.
    + rewrite (Hte Hnz).
      destruct (Set_wf_len_bound r) as [Hs0 Hlen]; [by right |].
      pose proof (removeHash1Key_wf r (skey e) fuel Hwf) as Hrem.
      destruct (Set_removeHash1Key fuel r (tag (skey e)) (skey e)) as [r1 | |];
        [| done | exfalso; lia].
      destruct Hrem as [Hwf1 Hm1]. cbn [bind].
      assert (Hle : ssize r1 <= ssize r).
      { apply Set_subset_size; [by right | by right |].
        intros k Hk. by apply Hm1 in Hk as [? _]. }
      destruct (IH r1 n Hwf1 Ht) as (r' & Hrun & Hwf' & Hm); [lia | done |].
      exists r'. split; [done |]. split; [done |].
      intros k. rewrite Hm, Hm1, key_in_cons. split.
      * intros [[? ?] ?]. split; [done |]. intros [[_ ?] | ?]; [congruence | done].
      * intros [? Hno]. split; [split; [done |] |].
        -- intros ->. apply Hno. by left.
        -- intros ?. apply Hno. by right.
Qed.

Lemma key_in_sentries s k : key_in (sentries s) k <-> Set_mem s k.
Proof. done. Qed.

Lemma Union_spec fuel s t :
  Set_wf s -> Set_wf t ->
  32 + 8 * (ssize s + ssize t) <= maxAlloc ->
  32 + 8 * (ssize s + ssize t) < Z.of_nat fuel ->
  exists r, Set_Union fuel s t = Ok r /\ Set_wf r /\
    (forall k, Set_mem r k <-> Set_mem s k \/ Set_mem t k) /\
    ssize r <= ssize s + ssize t.
Proof.
  intros Hs Ht Hmax Hfuel. unfold Set_Union.
  destruct (Set_wf_len_bound s Hs) as [Hps _].
  destruct (Set_wf_len_bound t Ht) as [Hpt _].
  destruct (Copy_set_wf s Hs) as (cs & Hcs & Hwcs & Hmcs & Heqs).
  destruct (Copy_set_wf t Ht) as (ct & Hct & Hwct & Hmct & Heqt).
  destruct (Z.eqb_spec (ssize s) 0) as [Hs0 | Hs0].
  { exists ct. split; [done |]. split; [done |]. split.
    - intros k. rewrite Hmct. split; [by right |].
      intros [Hm | ?]; [| done]. by apply (Set_wf_size0 s k) in Hm.
    - assert (ssize ct <= ssize t); [| lia].
      apply Set_subset_size; try done. intros k. by rewrite Hmct. }
  destruct (Z.eqb_spec (ssize t) 0) as [Ht0 | Ht0].
  { exists cs. split; [done |]. split; [done |]. split.
    - intros k. rewrite Hmcs. split; [by left |].
      intros [? | Hm]; [done |]. by apply (Set_wf_size0 t k) in Hm.
    - assert (ssize cs <= ssize s); [| lia].
      apply Set_subset_size; try done. intros k. by rewrite Hmcs. }
  rewrite (Heqs Hs0) in Hcs. rewrite (Heqt Ht0) in Hct.
  unfold swap_if_longer. destruct (_ >? _).
  - rewrite Hcs. cbn [bind].
    destruct (add_all_total fuel (sentries t) s (ssize s + ssize t))
      as (r & Hrun & Hwr & Hm & Hsz); try done.
    { by apply Set_wf_tagged. }
    { rewrite <- Set_wf_live_count by done. lia. }
    rewrite <- Set_wf_live_count in Hsz by done.
    exists r. split; [done |]. split; [done |]. split; [| lia].
    intros k. by rewrite Hm.
  - rewrite Hct. cbn [bind].
    destruct (add_all_total fuel (sentries s) t (ssize s + ssize t))
      as (r & Hrun & Hwr & Hm & Hsz); try done.
    { by apply Set_wf_tagged. }
    { rewrite <- Set_wf_live_count by done. lia. }
    rewrite <- Set_wf_live_count in Hsz by done.
    exists r. split; [done |]. split; [done |]. split; [| lia].
    intros k. rewrite Hm. rewrite key_in_sentries. tauto.
Qed.

Lemma Intersection_spec fuel s t :
  Set_wf s -> Set_wf t ->
  32 + 8 * (ssize s + ssize t) <= maxAlloc ->
  32 + 8 * (ssize s + ssize t) < Z.of_nat fuel ->
  exists r, Set_Intersection fuel s t = Ok r /\ Set_wf r /\
    (forall k, Set_mem r k <-> Set_mem s k /\ Set_mem t k).
Proof.
  intros Hs Ht Hmax Hfuel. unfold Set_Intersection.
  destruct (Set_wf_len_bound s Hs) as [Hps Hls].
  destruct (Set_wf_len_bound t Ht) as [Hpt Hlt].
  assert (Hz : Set_wf (zero : HashSet K)) by by left.
  destruct (Z.eqb_spec (ssize s) 0) as [Hs0 | Hs0]; cbn [orb].
  { exists zero. split; [done |]. split; [done |]. intros k. split.
    - intros Hm. by apply Set_mem_nil in Hm.
    - intros [Hm _]. by apply (Set_wf_size0 s k) in Hm. }
  destruct (Z.eqb_spec (ssize t) 0) as [Ht0 | Ht0].
  { exists zero. split; [done |]. split; [done |]. intros k. split.
    - intros Hm. by apply Set_mem_nil in Hm.
    - intros [_ Hm]. by apply (Set_wf_size0 t k) in Hm. }
  unfold swap_if_longer. destruct (_ >? _).
  - destruct (add_common_total fuel (sentries t) s zero (ssize s + ssize t))
      as (r & Hrun & Hwr & Hm); try done.
    { by apply Set_wf_table. }
    { lia. }
    { by apply Set_wf_tagged. }
    { rewrite <- Set_wf_live_count by done. cbn [ssize zero HashSet_zero]. lia. }
    exists r. split; [done |]. split; [done |]. intros k. rewrite Hm, key_in_sentries.
    split; [intros [Hz0 | ?]; [by apply Set_mem_nil in Hz0 | tauto] | tauto].
  - destruct (add_common_total fuel (sentries s) t zero (ssize s + ssize t))
      as (r & Hrun & Hwr & Hm); try done.
    { by apply Set_wf_table. }
    { lia. }
    { by apply Set_wf_tagged. }
    { rewrite <- Set_wf_live_count by done. cbn [ssize zero HashSet_zero]. lia. }
    exists r. split; [done |]. split; [done |]. intros k. rewrite Hm, key_in_sentries.
    split; [intros [Hz0 | ?]; [by apply Set_mem_nil in Hz0 | tauto] | tauto].
Qed.

Lemma Difference_spec fuel s t :
  Set_wf s -> Set_wf t ->
  32 + 8 * (ssize s + ssize t) < Z.of_nat fuel ->
  exists r, Set_Difference fuel s t = Ok r /\ Set_wf r /\
    (forall k, Set_mem r k <-> Set_mem s k /\ ~ Set_mem t k).
Proof.
  intros Hs Ht Hfuel. unfold Set_Difference.
  destruct (Set_wf_len_bound t Ht) as [Hpt Hlt].
  destruct (Copy_set_wf s Hs) as (cs & Hcs & Hwcs & Hmcs & Heqs).
  rewrite Hcs. cbn [bind].
  destruct (Z.eqb_spec (ssize s) 0) as [Hs0 | Hs0]; cbn [orb].
  { exists cs. split; [done |]. split; [done |]. intros k. rewrite Hmcs.
    split; [| tauto]. intros Hm. by apply (Set_wf_size0 s k) in Hm. }
  destruct (Z.eqb_spec (ssize t) 0) as [Ht0 | Ht0].
  { exists cs. split; [done |]. split; [done |]. intros k. rewrite Hmcs.
    split; [| tauto]. intros Hm. split; [done |]. by apply Set_wf_size0. }
  rewrite (Heqs Hs0).
  destruct (remove_all_total fuel (sentries t) s (ssize s + ssize t))
    as (r & Hrun & Hwr & Hm); try done.
  { by apply Set_wf_table. }
  { by apply Set_wf_tagged. }
  { lia. }
  exists r. split; [done |]. split; [by right |]. intros k. by rewrite Hm.
Qed.

End SetLoops.

(** ** [Set]: [Union], [Intersection], [Difference], [Copy] and [ForEach], as
    a caller sees them *)

Section SetAlgebra.
Context {rt : Runtime} {rtl : RuntimeLaws}.
Context {K : Type} {cmp : Comparable K} {laws : ComparableLaws K} {zk : Zero K}.
Implicit Types (s t r : HashSet K) (k : K).

Lemma fuel_covers r n fuel :
  Set_wf r -> ssize r <= n -> 32 + 8 * n < Z.of_nat fuel ->
  len (sentries r) <= Z.of_nat fuel.
Proof. intros Hwf Hn Hfuel. destruct (Set_wf_len_bound r Hwf). lia. Qed.

(** The answers of [Contains] on a set whose members are a boolean
    combination of those of two sets. *)
Lemma answers_combine (f : bool -> bool -> bool) s t r fuel :
  Set_wf s -> Set_wf t -> Set_wf r ->
  len (sentries s) <= Z.of_nat fuel -> len (sentries t) <= Z.of_nat fuel ->
  len (sentries r) <= Z.of_nat fuel ->
  (forall k a b, (a = true <-> Set_mem s k) -> (b = true <-> Set_mem t k) ->
     (f a b = true <-> Set_mem r k)) ->
  forall k, exists a b,
    Set_Contains fuel s k = Ok a /\ Set_Contains fuel t k = Ok b /\
    Set_Contains fuel r k = Ok (f a b).
Proof.
  intros Hs Ht Hr Hfs Hft Hfr Hcomb k.
  destruct (Contains_total s k fuel Hs Hfs) as (a & Ha & Hma).
  destruct (Contains_total t k fuel Ht Hft) as (b & Hb & Hmb).
  exists a, b. split; [done |]. split; [done |].
  apply Contains_is; [done | done |]. by apply Hcomb.
Qed.

(** X12.  [Union] of two sets reached by the operations of [Set] returns a
    set on which [Contains] answers the disjunction of its answers on the
    operands; its size is at most the sum of their sizes. *)
Theorem X12_Union_Contains s t fuel :
  Set_reachable s -> Set_reachable t ->
  32 + 8 * (Set_Size s + Set_Size t) <= maxAlloc ->
  32 + 8 * (Set_Size s + Set_Size t) < Z.of_nat fuel ->
  exists r, Set_Union fuel s t = Ok r /\
    Set_Size r <= Set_Size s + Set_Size t /\
    forall k, exists a b,
      Set_Contains fuel s k = Ok a /\ Set_Contains fuel t k = Ok b /\
      Set_Contains fuel r k = Ok (a || b).
Proof.
  unfold Set_Size. intros Hs%Set_reachable_wf Ht%Set_reachable_wf Hmax Hfuel.
  destruct (Set_wf_len_bound s Hs) as [Hps _].
  destruct (Set_wf_len_bound t Ht) as [Hpt _].
  destruct (Union_spec fuel s t Hs Ht Hmax Hfuel) as (r & Hrun & Hr & Hm & Hsz).
  exists r. split; [done |]. split; [done |].
  apply answers_combine; try done;
    try (apply (fuel_covers _ (ssize s + ssize t)); [done | lia | done]).
  intros k a b Ha Hb. rewrite orb_true_iff, Ha, Hb. by rewrite Hm.
Qed.

(** X13.  [Intersection] of two sets reached by the operations of [Set]
    returns a set on which [Contains] answers the conjunction of its answers
    on the operands; its size is at most the size of each. *)
Theorem X13_Intersection_Contains s t fuel :
  Set_reachable s -> Set_reachable t ->
  32 + 8 * (Set_Size s + Set_Size t) <= maxAlloc ->
  32 + 8 * (Set_Size s + Set_Size t) < Z.of_nat fuel ->
  exists r, Set_Intersection fuel s t = Ok r /\
    Set_Size r <= Set_Size s /\ Set_Size r <= Set_Size t /\
    forall k, exists a b,
      Set_Contains fuel s k = Ok a /\ Set_Contains fuel t k = Ok b /\
      Set_Contains fuel r k = Ok (a && b).
Proof.
  unfold Set_Size. intros Hs%Set_reachable_wf Ht%Set_reachable_wf Hmax Hfuel.
  destruct (Set_wf_len_bound s Hs) as [Hps _].
  destruct (Set_wf_len_bound t Ht) as [Hpt _].
  destruct (Intersection_spec fuel s t Hs Ht Hmax Hfuel) as (r & Hrun & Hr & Hm).
  assert (Hrs : ssize r <= ssize s).
  { apply Set_subset_size; try done. intros k Hk. by apply Hm in Hk as [? _]. }
  assert (Hrt : ssize r <= ssize t).
  { apply Set_subset_size; try done. intros k Hk. by apply Hm in Hk as [_ ?]. }
  exists r. split; [done |]. split; [done |]. split; [done |].
  apply answers_combine; try done;
    try (apply (fuel_covers _ (ssize s + ssize t)); [done | lia | done]).
  intros k a b Ha Hb. rewrite andb_true_iff, Ha, Hb. by rewrite Hm.
Qed.

(** X14.  [Difference] of two sets reached by the operations of [Set]
    returns, without panic, a set on which [Contains] is true exactly for the
    keys it finds in the receiver and not in the argument; its size is at
    most the size of the receiver. *)
Theorem X14_Difference_Contains s t fuel :
  Set_reachable s -> Set_reachable t ->
  32 + 8 * (Set_Size s + Set_Size t) < Z.of_nat fuel ->
  exists r, Set_Difference fuel s t = Ok r /\
    Set_Size r <= Set_Size s /\
    forall k, exists a b,
      Set_Contains fuel s k = Ok a /\ Set_Contains fuel t k = Ok b /\
      Set_Contains fuel r k = Ok (a && negb b).
Proof.
  unfold Set_Size. intros Hs%Set_reachable_wf Ht%Set_reachable_wf Hfuel.
  destruct (Set_wf_len_bound s Hs) as [Hps _].
  destruct (Set_wf_len_bound t Ht) as [Hpt _].
  destruct (Difference_spec fuel s t Hs Ht Hfuel) as (r & Hrun & Hr & Hm).
  assert (Hrs : ssize r <= ssize s).
  { apply Set_subset_size; try done. intros k Hk. by apply Hm in Hk as [? _]. }
  exists r. split; [done |]. split; [done |].
  apply answers_combine; try done;
    try (apply (fuel_covers _ (ssize s + ssize t)); [done | lia | done]).
  intros k a b Ha Hb. rewrite andb_true_iff, negb_true_iff, Ha, Hm.
  split; intros [? Hn]; (split; [done |]).
  - intros Hk. apply Hb in Hk. congruence.
  - destruct b; [| done]. exfalso. by apply Hn, Hb.
Qed.

(** X15.  [Union] and [Intersection] commute: on sets reached by the
    operations of [Set], the results for the operands in either order are
    found equal by [Equals] and have the same [Hash()]. *)
Theorem X15_Union_Intersection_commute s t fuel :
  Set_reachable s -> Set_reachable t ->
  32 + 8 * (Set_Size s + Set_Size t) <= maxAlloc ->
  32 + 8 * (Set_Size s + Set_Size t) < Z.of_nat fuel ->
  (exists u1 u2, Set_Union fuel s t = Ok u1 /\ Set_Union fuel t s = Ok u2 /\
     Set_Equals fuel u1 u2 = Ok true /\ Set_Hash u1 = Set_Hash u2) /\
  (exists i1 i2, Set_Intersection fuel s t = Ok i1 /\
     Set_Intersection fuel t s = Ok i2 /\
     Set_Equals fuel i1 i2 = Ok true /\ Set_Hash i1 = Set_Hash i2).
Proof.
  unfold Set_Size. intros Hs%Set_reachable_wf Ht%Set_reachable_wf Hmax Hfuel.
  destruct (Set_wf_len_bound s Hs) as [Hps _].
  destruct (Set_wf_len_bound t Ht) as [Hpt _].
  assert (Hmax' : 32 + 8 * (ssize t + ssize s) <= maxAlloc) by lia.
  assert (Hfuel' : 32 + 8 * (ssize t + ssize s) < Z.of_nat fuel) by lia.
  split.
  - destruct (Union_spec fuel s t Hs Ht Hmax Hfuel) as (u1 & Hr1 & Hw1 & Hm1 & Hz1).
    destruct (Union_spec fuel t s Ht Hs Hmax' Hfuel') as (u2 & Hr2 & Hw2 & Hm2 & Hz2).
    assert (Hsame : forall k, Set_mem u1 k <-> Set_mem u2 k).
    { intros k. rewrite Hm1, Hm2. tauto. }
    exists u1, u2. split; [done |]. split; [done |]. split.
    + destruct (Equals_spec fuel u1 u2 Hw1 Hw2) as (b & -> & Hb);
        try (apply (fuel_covers _ (ssize s + ssize t)); [done | lia | done]).
      f_equal. by apply Hb.
    + by apply Set_Hash_same_members.
  - destruct (Intersection_spec fuel s t Hs Ht Hmax Hfuel) as (i1 & Hr1 & Hw1 & Hm1).
    destruct (Intersection_spec fuel t s Ht Hs Hmax' Hfuel') as (i2 & Hr2 & Hw2 & Hm2).
    assert (Hsame : forall k, Set_mem i1 k <-> Set_mem i2 k).
    { intros k. rewrite Hm1, Hm2. tauto. }
    assert (Hz1 : ssize i1 <= ssize s).
    { apply Set_subset_size; try done. intros k Hk. by apply Hm1 in Hk as [? _]. }
    assert (Hz2 : ssize i2 <= ssize s).
    { apply Set_subset_size; try done. intros k Hk. by apply Hm2 in Hk as [_ ?]. }
    exists i1, i2. split; [done |]. split; [done |]. split.
    + destruct (Equals_spec fuel i1 i2 Hw1 Hw2) as (b & -> & Hb);
        try (apply (fuel_covers _ (ssize s + ssize t)); [done | lia | done]).
      f_equal. by apply Hb.
    + by apply Set_Hash_same_members.
Qed.

(** X16.  How the results relate to the operands, for sets reached by the
    operations of [Set]: the intersection and the difference are subsets of
    the receiver, the receiver is a subset of the union, and the difference
    is disjoint from the argument, as [IsSubset] and [IsDisjoint] report
    them. *)
Theorem X16_results_subset_disjoint s t fuel :
  Set_reachable s -> Set_reachable t ->
  32 + 8 * (Set_Size s + Set_Size t) <= maxAlloc ->
  32 + 8 * (Set_Size s + Set_Size t) < Z.of_nat fuel ->
  exists u i d,
    Set_Union fuel s t = Ok u /\ Set_Intersection fuel s t = Ok i /\
    Set_Difference fuel s t = Ok d /\
    Set_IsSubset fuel i s = Ok true /\ Set_IsSubset fuel d s = Ok true /\
    Set_IsSubset fuel s u = Ok true /\ Set_IsSubset fuel t u = Ok true /\
    Set_IsDisjoint fuel d t = Ok true /\ Set_IsDisjoint fuel d i = Ok true.
Proof.
  unfold Set_Size. intros Hs%Set_reachable_wf Ht%Set_reachable_wf Hmax Hfuel.
  destruct (Set_wf_len_bound s Hs) as [Hps _].
  destruct (Set_wf_len_bound t Ht) as [Hpt _].
  destruct (Union_spec fuel s t Hs Ht Hmax Hfuel) as (u & Hru & Hwu & Hmu & Hzu).
  destruct (Intersection_spec fuel s t Hs Ht Hmax Hfuel) as (i & Hri & Hwi & Hmi).
  destruct (Difference_spec fuel s t Hs Ht Hfuel) as (d & Hrd & Hwd & Hmd).
  assert (Hzi : ssize i <= ssize s).
  { apply Set_subset_size; try done. intros k Hk. by apply Hmi in Hk as [? _]. }
  assert (Hzd : ssize d <= ssize s).
  { apply Set_subset_size; try done. intros k Hk. by apply Hmd in Hk as [? _]. }
  assert (Hcov : forall r, Set_wf r -> ssize r <= ssize s + ssize t ->
                   len (sentries r) <= Z.of_nat fuel).
  { intros r Hr Hz. by apply (fuel_covers r (ssize s + ssize t)). }
  assert (Hsub : forall a b, Set_wf a -> Set_wf b -> ssize b <= ssize s + ssize t ->
            (forall k, Set_mem a k -> Set_mem b k) -> Set_IsSubset fuel a b = Ok true).
  { intros a b Ha Hb Hz Hall.
    destruct (IsSubset_spec fuel a b Ha Hb) as (c & -> & Hc); [by apply Hcov |].
    f_equal. by apply Hc. }
  assert (Hdis : forall a b, Set_wf a -> Set_wf b ->
            ssize a <= ssize s + ssize t -> ssize b <= ssize s + ssize t ->
            (forall k, ~ (Set_mem a k /\ Set_mem b k)) ->
            Set_IsDisjoint fuel a b = Ok true).
  { intros a b Ha Hb Hza Hzb Hall.
    destruct (IsDisjoint_spec fuel a b Ha Hb) as (c & -> & Hc);
      [by apply Hcov | by apply Hcov |].
    f_equal. by apply Hc. }
  exists u, i, d. split; [done |]. split; [done |]. split; [done |].
  split; [| split; [| split; [| split; [| split]]]].
  - apply Hsub; [done | done | lia |]. intros k Hk. by apply Hmi in Hk as [? _].
  - apply Hsub; [done | done | lia |]. intros k Hk. by apply Hmd in Hk as [? _].
  - apply Hsub; [done | done | lia |]. intros k Hk. apply Hmu. by left.
  - apply Hsub; [done | done | lia |]. intros k Hk. apply Hmu. by right.
  - apply Hdis; [done | done | lia | lia |].
    intros k [Hkd Hkt]. by apply Hmd in Hkd as [_ ?].
  - apply Hdis; [done | done | lia | lia |].
    intros k [Hkd Hki]. apply Hmd in Hkd as [_ Hno]. by apply Hmi in Hki as [_ ?].
Qed.

Lemma length_split (la lb li ld : list K) :
  NoDup la -> NoDup li -> NoDup ld ->
  (forall x, x ∈ li <-> x ∈ la /\ x ∈ lb) ->
  (forall x, x ∈ ld <-> x ∈ la /\ x ∉ lb) ->
  length la = (length li + length ld)%nat.
Proof.
  intros Ha Hi Hd Hmi Hmd. rewrite <- length_app.
  apply Permutation_length, NoDup_Permutation; [done | |].
  - apply NoDup_app. split; [done |]. split; [| done].
    intros x Hxi Hxd. apply Hmi in Hxi as [_ ?]. by apply Hmd in Hxd as [_ ?].
  - intros x. rewrite elem_of_app, Hmi, Hmd.
    destruct (@list_elem_of_dec K key_eq_dec x lb); tauto.
Qed.

Lemma length_join (lb ld lu : list K) :
  NoDup lb -> NoDup ld -> NoDup lu ->
  (forall x, x ∈ ld -> x ∉ lb) ->
  (forall x, x ∈ lu <-> x ∈ lb \/ x ∈ ld) ->
  length lu = (length lb + length ld)%nat.
Proof.
  intros Hb Hd Hu Hdis Hmu. rewrite <- length_app.
  apply Permutation_length, NoDup_Permutation; [done | |].
  - apply NoDup_app. split; [done |]. split; [| done].
    intros x Hxb Hxd. by apply (Hdis x).
  - intros x. by rewrite elem_of_app, Hmu.
Qed.

(** X17.  The sizes of the results, for sets reached by the operations of
    [Set]: the sizes of the union and of the intersection add up to the sizes
    of the operands, and the sizes of the difference and of the intersection
    to the size of the receiver. *)
Theorem X17_sizes_of_results s t fuel :
  Set_reachable s -> Set_reachable t ->
  32 + 8 * (Set_Size s + Set_Size t) <= maxAlloc ->
  32 + 8 * (Set_Size s + Set_Size t) < Z.of_nat fuel ->
  exists u i d,
    Set_Union fuel s t = Ok u /\ Set_Intersection fuel s t = Ok i /\
    Set_Difference fuel s t = Ok d /\
    Set_Size u + Set_Size i = Set_Size s + Set_Size t /\
    Set_Size d + Set_Size i = Set_Size s.
Proof.
  unfold Set_Size. intros Hs%Set_reachable_wf Ht%Set_reachable_wf Hmax Hfuel.
  destruct (Union_spec fuel s t Hs Ht Hmax Hfuel) as (u & Hru & Hwu & Hmu & _).
  destruct (Intersection_spec fuel s t Hs Ht Hmax Hfuel) as (i & Hri & Hwi & Hmi).
  destruct (Difference_spec fuel s t Hs Ht Hfuel) as (d & Hrd & Hwd & Hmd).
  exists u, i, d. split; [done |]. split; [done |]. split; [done |].
  destruct (Set_wf_keys s Hs) as (Hns & -> & _).
  destruct (Set_wf_keys t Ht) as (Hnt & -> & _).
  destruct (Set_wf_keys u Hwu) as (Hnu & -> & _).
  destruct (Set_wf_keys i Hwi) as (Hni & -> & _).
  destruct (Set_wf_keys d Hwd) as (Hnd & -> & _).
  assert (H1 : length (keys_of (sentries s)) =
               (length (keys_of (sentries i)) + length (keys_of (sentries d)))%nat).
  { apply (length_split _ (keys_of (sentries t))); try done.
    - intros x. rewrite <- !Set_mem_keys. apply Hmi.
    - intros x. rewrite <- !Set_mem_keys. apply Hmd. }
  assert (H2 : length (keys_of (sentries u)) =
               (length (keys_of (sentries t)) + length (keys_of (sentries d)))%nat).
  { apply length_join; try done.
    - intros x. rewrite <- !Set_mem_keys. intros Hx. by apply Hmd in Hx as [_ ?].
    - intros x. rewrite <- !Set_mem_keys, Hmu, Hmd.
      destruct (Set_mem_dec t x); tauto. }
  lia.
Qed.

(** X18.  A set reached by the operations of [Set], combined with itself:
    its union and its intersection with itself are found equal to it by
    [Equals], and its difference with itself has size 0 and the [Hash()] of
    the empty set. *)
Theorem X18_operations_with_itself s fuel :
  Set_reachable s ->
  32 + 16 * Set_Size s <= maxAlloc -> 32 + 16 * Set_Size s < Z.of_nat fuel ->
  exists u i d,
    Set_Union fuel s s = Ok u /\ Set_Equals fuel u s = Ok true /\
    Set_Intersection fuel s s = Ok i /\ Set_Equals fuel i s = Ok true /\
    Set_Difference fuel s s = Ok d /\ Set_Size d = 0 /\
    Set_Hash d = emptySetHash.
Proof.
  unfold Set_Size. intros Hs%Set_reachable_wf Hmax Hfuel.
  destruct (Set_wf_len_bound s Hs) as [Hps _].
  assert (Hmax' : 32 + 8 * (ssize s + ssize s) <= maxAlloc) by lia.
  assert (Hfuel' : 32 + 8 * (ssize s + ssize s) < Z.of_nat fuel) by lia.
  destruct (Union_spec fuel s s Hs Hs Hmax' Hfuel') as (u & Hru & Hwu & Hmu & Hzu).
  destruct (Intersection_spec fuel s s Hs Hs Hmax' Hfuel') as (i & Hri & Hwi & Hmi).
  destruct (Difference_spec fuel s s Hs Hs Hfuel') as (d & Hrd & Hwd & Hmd).
  assert (Hzi : ssize i <= ssize s).
  { apply Set_subset_size; try done. intros k Hk. by apply Hmi in Hk as [? _]. }
  assert (Heq : forall r, Set_wf r -> ssize r <= ssize s + ssize s ->
            (forall k, Set_mem r k <-> Set_mem s k) -> Set_Equals fuel r s = Ok true).
  { intros r Hr Hz Hsame.
    destruct (Equals_spec fuel r s Hr Hs) as (b & -> & Hb);
      try (apply (fuel_covers _ (ssize s + ssize s)); [done | lia | done]).
    f_equal. by apply Hb. }
  assert (Hd0 : ssize d = 0).
  { destruct (Set_wf_keys d Hwd) as (_ & -> & _).
    destruct (keys_of (sentries d)) as [| x l] eqn:Hk; [done |].
    assert (Hx : Set_mem d x) by (apply Set_mem_keys; rewrite Hk; by left).
    apply Hmd in Hx as [? ?]. done. }
  exists u, i, d. split; [done |]. split; [| split; [done |]; split; [| split; [done |]]].
  - apply Heq; [done | lia |]. intros k. rewrite Hmu. tauto.
  - apply Heq; [done | lia |]. intros k. rewrite Hmi. tauto.
  - split; [done |]. unfold Set_Hash. by rewrite Hd0.
Qed.

Lemma Set_Copy_exact s :
  Set_wf s -> Set_Copy s = Ok (if ssize s =? 0 then zero else s).
Proof.
  intros Hwf. destruct (Copy_set_wf s Hwf) as (c & Hc & _ & _ & Heq). rewrite Hc.
  destruct (Z.eqb_spec (ssize s) 0) as [Hs0 | Hs0]; [| by rewrite (Heq Hs0)].
  unfold Set_Copy in Hc. by rewrite Hs0 in Hc.
Qed.

Lemma keys_of_empty (es : list (setEntry K)) :
  live_count shash1 es = 0 -> keys_of es = [].
Proof.
  intros Hz. rewrite <- length_keys_of in Hz.
  destruct (keys_of es); [done | cbn [length] in Hz; lia].
Qed.

(** X19.  [Copy] of a set reached by the operations of [Set] returns,
    without panic, a set of the same size and the same [Hash()], on which
    [Contains] answers as on the original, which [ForEach] ranges over in the
    same order and which [Equals] finds equal to the original; the copy of a
    set of size 0 has no backing array, any other copy has the capacity of
    the original. *)
Theorem X19_Set_Copy_same_answers s :
  Set_reachable s ->
  exists c, Set_Copy s = Ok c /\ Set_Size c = Set_Size s /\
    Set_Hash c = Set_Hash s /\
    (forall fuel k, Set_Contains fuel c k = Set_Contains fuel s k) /\
    keys_of (sentries c) = keys_of (sentries s) /\
    (forall fuel, len (sentries s) <= Z.of_nat fuel ->
       Set_Equals fuel s c = Ok true) /\
    len (sentries c) = (if Set_Size s =? 0 then 0 else len (sentries s)).
Proof.
  intros Hwf%Set_reachable_wf. rewrite (Set_Copy_exact s Hwf). unfold Set_Size.
  destruct (Z.eqb_spec (ssize s) 0) as [Hs0 | Hs0].
  - exists zero. split; [done |]. split; [done |].
    split; [unfold Set_Hash; by rewrite Hs0 |].
    split; [intros fuel k; unfold Set_Contains; by rewrite Hs0 |].
    split; [symmetry; apply keys_of_empty; by rewrite <- Set_wf_live_count |].
    split; [| done]. intros fuel _. unfold Set_Equals. by rewrite Hs0.
  - exists s. split; [done |]. split; [done |]. split; [done |]. split; [done |].
    split; [done |]. split; [| done]. intros fuel Hfuel.
    destruct (Equals_spec fuel s s Hwf Hwf Hfuel Hfuel) as (b & -> & Hb).
    f_equal. by apply Hb.
Qed.

(** X20.  On a set reached by the operations of [Set], [ForEach] ranges over
    [Size()] keys, none twice, and they are exactly the keys for which
    [Contains] is true. *)
Theorem X20_Set_ForEach_keys s :
  Set_reachable s ->
  (forall (S Err : Type) (f : K -> S -> S * option Err) (st : S),
     Set_ForEach f s st = visit_until_error f (keys_of (sentries s)) st) /\
  NoDup (keys_of (sentries s)) /\
  Z.of_nat (length (keys_of (sentries s))) = Set_Size s /\
  (forall fuel k, len (sentries s) <= Z.of_nat fuel ->
     (k ∈ keys_of (sentries s) <-> Set_Contains fuel s k = Ok true)).
Proof.
  intros Hwf%Set_reachable_wf.
  destruct (Set_wf_keys s Hwf) as (Hnd & Hlen & _).
  split; [intros S Err f st; apply Set_ForEach_range_visit |].
  split; [done |]. split; [done |].
  intros fuel k Hfuel. by rewrite <- Set_mem_keys, Contains_true_iff.
Qed.

(** The calls [Add(k1)], ..., [Add(kn)]. *)
Definition adds (l : list K) : list (@set_op K) := OpAdd <$> l.

Lemma member_adds l k : forall now,
  member (adds l) k now = true <-> now = true \/ k ∈ l.
Proof.
  induction l as [| k' l IH]; intros now; cbn [adds fmap list_fmap member].
  - split; [by left |]. intros [? | ?%elem_of_nil]; done.
  - change (OpAdd <$> l) with (adds l). rewrite IH, orb_true_iff, Equals_eq, elem_of_cons.
    split; [intros [[-> | ?] | ?] | intros [? | [-> | ?]]]; tauto.
Qed.

(** X21.  The helper [intSet] of the tests, for any keys: [Add] of the keys
    of a list to the zero set returns a set on which [Contains] is true
    exactly for the keys of the list, and whose size is the number of
    distinct keys of the list. *)
Theorem X21_Add_list (l : list K) (fuel : nat) :
  32 + 8 * Z.of_nat (length l) <= maxAlloc ->
  32 + 8 * Z.of_nat (length l) < Z.of_nat fuel ->
  exists s, Set_run fuel (adds l) zero = Ok s /\
    (forall k, Set_Contains fuel s k = Ok true <-> k ∈ l) /\
    (forall l', NoDup l' -> (forall k, k ∈ l' <-> k ∈ l) ->
       Set_Size s = Z.of_nat (length l')).
Proof.
  intros Hmax Hfuel.
  assert (Hlen : length (adds l) = length l) by apply length_fmap.
  destruct (Set_run_members fuel (adds l) 0 (zero : HashSet K) (fun _ => false))
    as (s & Hrun & Hwf & Hsz & Hmem); try done; try (rewrite Hlen; lia).
  { by left. }
  { intros k. split; [intros Hm; by apply Set_mem_nil in Hm | done]. }
  cbn [Nat.add] in Hsz. rewrite Hlen in Hsz.
  assert (Hin : forall k, Set_mem s k <-> k ∈ l).
  { intros k. rewrite (Hmem k). cbn beta. rewrite member_adds.
    split; [by intros [? | ?] | by right]. }
  exists s. split; [done |]. split.
  - intros k. rewrite Contains_true_iff; [done | done |].
    by apply (fuel_covers s (Z.of_nat (length l))).
  - intros l' Hnd Hsame. destruct (Set_wf_keys s Hwf) as (Hnds & Hls & _).
    unfold Set_Size. rewrite Hls. f_equal.
    apply Permutation_length, NoDup_Permutation; [done | done |].
    intros k. by rewrite <- Set_mem_keys, Hin, Hsame.
Qed.

End SetAlgebra.

(** ** [comparable.go]: the hash functions and the [Equals] of slices

    A [maphash.Hash] with the seed drawn at start-up is modelled by the
    bytes written to it; [Sum64] is then a function of these bytes, which
    the section takes as a variable. *)

(** [byte(x)], [uint32(x)], [uint16(x)] *)
Definition byte (x : Z) : Z := x mod 2 ^ 8.
Definition uint32 (x : Z) : Z := x mod 2 ^ 32.
Definition uint16 (x : Z) : Z := x mod 2 ^ 16.

(** The bytes [hash64bits(u)] writes: [byte(u)], [byte(u << 8)], ...,
    [byte(u << 56)], the shifts on [uint64]. *)
Definition write64 (u : Z) : list Z :=
  [byte u; byte (uint64 (Z.shiftl u 8)); byte (uint64 (Z.shiftl u 16));
   byte (uint64 (Z.shiftl u 24)); byte (uint64 (Z.shiftl u 32));
   byte (uint64 (Z.shiftl u 40)); byte (uint64 (Z.shiftl u 48));
   byte (uint64 (Z.shiftl u 56))].

(** The bytes [hash32bits(u)] writes, the shifts on [uint32]. *)
Definition write32 (u : Z) : list Z :=
  [byte u; byte (uint32 (Z.shiftl u 8)); byte (uint32 (Z.shiftl u 16));
   byte (uint32 (Z.shiftl u 24))].

(** The bytes [hash16bits(u)] writes, the shift on [uint16]. *)
Definition write16 (u : Z) : list Z :=
  [byte u; byte (uint16 (Z.shiftl u 8))].

Section Hashing.
Variable Sum64 : list Z -> Z.

Definition hash64bits (u : Z) : Z := Sum64 (write64 u).
Definition hash32bits (u : Z) : Z := Sum64 (write32 u).
Definition hash16bits (u : Z) : Z := Sum64 (write16 u).
Definition hash8bits (u : Z) : Z := Sum64 [byte u].

(** [Int.Hash], [Int.Equals]; an [Int] is an integer of [Z]. *)
Definition Int_Hash (i : Z) : Z := hash64bits (uint64 i).
Definition Int_Equals (i other : Z) : bool := i =? other.

(** [Int32.Hash], [Int16.Hash] *)
Definition Int32_Hash (i : Z) : Z := hash32bits (uint32 i).
Definition Int16_Hash (i : Z) : Z := hash16bits (uint16 i).

(** [Bool.Hash]: [true] hashes as the byte 0 and [false] as the byte 1. *)
Definition Bool_Hash (b : bool) : Z := if b then hash8bits 0 else hash8bits 1.

(** [Bytes.Hash] and [String.Hash] write the bytes themselves. *)
Definition Bytes_Hash (b : list Z) : Z := Sum64 b.

Section SliceOf.
Context {T : Type} {cmpT : Comparable T}.

(** The bytes [Slice.Hash] writes: for each element, those of the hash of
    the element. *)
Fixpoint Slice_Hash_bytes (s : list T) : list Z :=
  match s with
  | [] => []
  | v :: s' => write64 (Hash v) ++ Slice_Hash_bytes s'
  end.

Definition Slice_Hash (s : list T) : Z := Sum64 (Slice_Hash_bytes s).

(** The loop of [Slice.Equals]: [for i, v := range s], from index [i] on. *)
Fixpoint Slice_Equals_range (i : Z) (s other : list T) : result bool :=
  match s with
  | [] => Ok true
  | v :: s' =>
      o <- at_index other i ;;
      if negb (Equals v o) then Ok false
      else Slice_Equals_range (i + 1) s' other
  end.

Definition Slice_Equals (s other : list T) : result bool :=
  if negb (len s =? len other) then Ok false
  else Slice_Equals_range 0 s other.

End SliceOf.

(** The loop of [Bytes.Equals]. *)
Fixpoint Bytes_Equals_range (i : Z) (b other : list Z) : result bool :=
  match b with
  | [] => Ok true
  | v :: b' =>
      o <- at_index other i ;;
      if negb (v =? o) then Ok false
      else Bytes_Equals_range (i + 1) b' other
  end.

Definition Bytes_Equals (b other : list Z) : result bool :=
  if negb (len b =? len other) then Ok false
  else Bytes_Equals_range 0 b other.

End Hashing.

Section HashingFacts.
Variable Sum64 : list Z -> Z.

Lemma byte_shifted (u n w : Z) :
  8 <= n -> 8 <= w -> byte ((Z.shiftl u n) mod 2 ^ w) = 0.
Proof.
  intros Hn Hw. unfold byte. rewrite Z.shiftl_mul_pow2 by lia.
  rewrite Z.mod_mod_divide.
  - replace n with ((n - 8) + 8) by lia. rewrite Z.pow_add_r by lia.
    rewrite Z.mul_assoc. apply Z_mod_mult.
  - exists (2 ^ (w - 8)). rewrite <- Z.pow_add_r by lia. f_equal. lia.
Qed.

Lemma write64_low u : write64 u = [u mod 256; 0; 0; 0; 0; 0; 0; 0].
Proof.
  unfold write64, uint64. by rewrite !byte_shifted by lia.
Qed.

Lemma write32_low u : write32 u = [u mod 256; 0; 0; 0].
Proof.
  unfold write32, uint32. by rewrite !byte_shifted by lia.
Qed.

Lemma write16_low u : write16 u = [u mod 256; 0].
Proof.
  unfold write16, uint16. by rewrite !byte_shifted by lia.
Qed.

Lemma uint64_low i : uint64 i mod 256 = i mod 256.
Proof.
  unfold uint64. apply Z.mod_mod_divide. exists (2 ^ 56). reflexivity.
Qed.

(** X22.  The hash functions of [comparable.go] see one byte of their
    argument: every byte written after the first is [byte(u << 8k)], which
    is 0.  So [hash64bits], [hash32bits] and [hash16bits] return the same
    value on arguments that agree modulo 256, and so do [Int.Hash] and the
    tagged hash that [Map] and [Set] compute from it: [Int] keys that agree
    modulo 256 always collide. *)
Theorem X22_hash_sees_low_byte_only (u v : Z) :
  u mod 256 = v mod 256 ->
  write64 u = [u mod 256; 0; 0; 0; 0; 0; 0; 0] /\
  hash64bits Sum64 u = hash64bits Sum64 v /\
  hash32bits Sum64 u = hash32bits Sum64 v /\
  hash16bits Sum64 u = hash16bits Sum64 v /\
  Int_Hash Sum64 u = Int_Hash Sum64 v /\
  Z.lor (Int_Hash Sum64 u) fullBit = Z.lor (Int_Hash Sum64 v) fullBit.
Proof.
  intros Huv. split; [apply write64_low |].
  assert (Hint : Int_Hash Sum64 u = Int_Hash Sum64 v).
  { unfold Int_Hash, hash64bits. by rewrite !write64_low, !uint64_low, Huv. }
  unfold hash64bits, hash32bits, hash16bits.
  rewrite !write64_low, !write32_low, !write16_low, Huv, Hint. done.
Qed.

Lemma at_index_middle {E : Type} (pre rest : list E) (o : E) :
  at_index (pre ++ o :: rest) (len pre) = Ok o.
Proof.
  unfold at_index, len. by rewrite Nat2Z.id, list_lookup_middle.
Qed.

Lemma len_snoc {E : Type} (pre : list E) (o : E) : len (pre ++ [o]) = len pre + 1.
Proof. unfold len. rewrite length_app. cbn [length]. lia. Qed.

Lemma Bytes_Equals_range_spec (b : list Z) : forall (pre rest : list Z),
  length rest = length b ->
  exists r, Bytes_Equals_range (len pre) b (pre ++ rest) = Ok r /\
    (r = true <-> b = rest).
Proof.
  induction b as [| v b IH]; intros pre rest Hlen; cbn [Bytes_Equals_range].
  - exists true. split; [done |]. split; [| done]. intros _. by destruct rest.
  - destruct rest as [| o rest]; [done |].
    rewrite at_index_middle. cbn [bind].
    destruct (Z.eqb_spec v o) as [-> | Hne]; cbn [negb].
    + destruct (IH (pre ++ [o]) rest) as (r & Hrun & Hr);
        [cbn [length] in Hlen; lia |].
      rewrite len_snoc, <- app_assoc in Hrun. cbn [app] in Hrun.
      exists r. split; [done |]. rewrite Hr.
      split; [by intros -> | by intros [= ->]].
    + exists false. split; [done |]. split; [done |]. by intros [= ? ?].
Qed.

(** X23.  [Bytes.Equals] never indexes outside [other], and returns true
    exactly on two slices of the same bytes. *)
Theorem X23_Bytes_Equals_decides_equality (b other : list Z) :
  exists r, Bytes_Equals b other = Ok r /\ (r = true <-> b = other).
Proof.
  unfold Bytes_Equals, len. destruct (Z.eqb_spec (Z.of_nat (length b)) (Z.of_nat (length other)))
    as [Hl | Hl]; cbn [negb].
  - destruct (Bytes_Equals_range_spec b [] other) as (r & Hrun & Hr); [lia |].
    exists r. split; [done |]. by rewrite Hr.
  - exists false. split; [done |]. split; [done |]. intros ->. done.
Qed.

Section SliceFacts2.
Context {T : Type} {cmpT : Comparable T}.

Lemma Slice_Equals_range_spec (s : list T) : forall (pre rest : list T),
  length rest = length s ->
  exists r, Slice_Equals_range (len pre) s (pre ++ rest) = Ok r /\
    (r = true <-> Forall2 (fun a b => Equals a b = true) s rest).
Proof.
  induction s as [| v s IH]; intros pre rest Hlen; cbn [Slice_Equals_range].
  - exists true. split; [done |]. split; [| done]. intros _.
    destruct rest; [constructor | done].
  - destruct rest as [| o rest]; [done |].
    rewrite at_index_middle. cbn [bind].
    destruct (Equals v o) eqn:Heq; cbn [negb].
    + destruct (IH (pre ++ [o]) rest) as (r & Hrun & Hr);
        [cbn [length] in Hlen; lia |].
      rewrite len_snoc, <- app_assoc in Hrun. cbn [app] in Hrun.
      exists r. split; [done |]. rewrite Hr.
      split; [by constructor | by intros [_ ?]%Forall2_cons].
    + exists false. split; [done |]. split; [done |].
      intros [? _]%Forall2_cons. congruence.
Qed.

Lemma Slice_Equals_spec (s other : list T) :
  exists r, Slice_Equals s other = Ok r /\
    (r = true <-> Forall2 (fun a b => Equals a b = true) s other).
Proof.
  unfold Slice_Equals, len.
  destruct (Z.eqb_spec (Z.of_nat (length s)) (Z.of_nat (length other)))
    as [Hl | Hl]; cbn [negb].
  - destruct (Slice_Equals_range_spec s [] other) as (r & Hrun & Hr); [lia |].
    exists r. split; [done |]. by rewrite Hr.
  - exists false. split; [done |]. split; [done |].
    intros Hf%Forall2_length. lia.
Qed.

Lemma Slice_Hash_bytes_low (s : list T) :
  Slice_Hash_bytes s = s ≫= (fun v => [Hash v mod 256; 0; 0; 0; 0; 0; 0; 0]).
Proof.
  induction s as [| v s IH]; cbn [Slice_Hash_bytes]; [done |].
  by rewrite write64_low, IH.
Qed.

(** X24.  [Slice.Equals] never indexes outside [other], and returns true
    exactly on two slices of the same length whose elements are pairwise
    [Equals]: on slices of a key type whose [Equals] decides equality, exactly
    on equal slices.  [Slice.Hash] then returns the same value on both, and
    more: it depends only on the low bytes of the hashes of the elements. *)
Theorem X24_Slice_Equals_and_Hash (laws : ComparableLaws T) (s other : list T) :
  (exists r, Slice_Equals s other = Ok r /\
     (r = true <-> s = other) /\
     (r = true -> Slice_Hash Sum64 s = Slice_Hash Sum64 other)) /\
  (Forall2 (fun a b => Hash a mod 256 = Hash b mod 256) s other ->
   Slice_Hash Sum64 s = Slice_Hash Sum64 other).
Proof.
  split.
  - destruct (Slice_Equals_spec s other) as (r & Hrun & Hr).
    assert (Heq : r = true <-> s = other).
    { rewrite Hr. split.
      - intros Hf. apply list_eq_Forall2.
        eapply Forall2_impl; [apply Hf |]. intros a b. apply Equals_eq.
      - intros ->. apply Forall_Forall2_diag, Forall_forall. intros a _.
        by apply Equals_eq. }
    exists r. split; [done |]. split; [done |]. intros Ht. by rewrite (proj1 Heq Ht).
  - intros Hf. unfold Slice_Hash. rewrite !Slice_Hash_bytes_low. f_equal.
    induction Hf as [| a b s' o' Hab _ IH]; [done |].
    cbn. by rewrite Hab, IH.
Qed.

End SliceFacts2.

End HashingFacts.

(** ** The capacity after an insertion and after a removal *)

Section CapacityPolicy.
Context {rt : Runtime} {rtl : RuntimeLaws}.
Context {K : Type} {cmp : Comparable K} {laws : ComparableLaws K} {zk : Zero K}.
Context {V : Type} {zv : Zero V}.

(** The capacity [putHash1] and [addHash1Key] leave after writing a new
    entry, the [size]-th, in [cap] slots. *)
Definition grown (cap size : Z) : Z :=
  if size >? 3 * cap / 4 then cap * 2 else cap.

(** The capacity [Remove] leaves after clearing an entry, [size] being
    left, in [cap] slots. *)
Definition shrunken (cap size : Z) : Z :=
  if (cap >? initialCapacity) && (size <? cap / 4) then cap / 2 else cap.

Lemma grown_spec (len0 size0 len1 : Z) :
  (len0 = 0 /\ size0 = 0) \/ (16 <= len0 /\ exists c, len0 = 16 * c) ->
  16 <= len1 -> 4 * (size0 + 1) <= 3 * len1 ->
  (len1 = Z.max len0 16 \/ (len1 = 2 * len0 /\ 3 * len0 < 4 * (size0 + 1))) ->
  len1 = grown (Z.max len0 16) (size0 + 1).
Proof.
  intros Hshape Hl1 Hload Hcase. unfold grown.
  destruct Hshape as [[-> ->] | [Hl0 (c & ->)]].
  - change (Z.max 0 16) with 16. change (3 * 16 / 4) with 12.
    destruct (Z.gtb_spec (0 + 1) 12); lia.
  - rewrite Z.max_l by lia.
    replace (3 * (16 * c) / 4) with (12 * c) by dlia.
    destruct (Z.gtb_spec (size0 + 1) (12 * c)); lia.
Qed.

Lemma Map_wf_shape {W : Type} {zw : Zero W} (m : Map K W) :
  Map_wf m ->
  (len (entries m) = 0 /\ size m = 0) \/
  (16 <= len (entries m) /\ exists c, len (entries m) = 16 * c).
Proof.
  intros [[Hnil Hs0] | ((Hc & _) & Hcap & _)].
  - left. by rewrite Hnil.
  - right. split; [lia |]. destruct (cap_ok_div16 _ Hc) as (c & Hc16 & _); [lia |].
    by exists c.
Qed.

(** X25.  The growth rule.  [Put] of a key that [Get] does not find, in a
    map reached by the operations of [Map], leaves the capacity
    [grown cap (Size() + 1)], where [cap] is the former capacity, or 16 when
    there was no array: twice [cap] exactly when the new size exceeds
    [3*cap/4], and [cap] otherwise.  [Add] of a key that [Contains] does not
    find does the same in a set. *)
Theorem X25_capacity_after_insertion (fuel : nat) :
  (forall (m : Map K V) k v v0,
     Map_reachable m -> Map_Get fuel m k = Ok (v0, false) ->
     4 * Z.max (len (entries m)) 16 < Z.of_nat fuel ->
     2 * len (entries m) <= maxAlloc ->
     exists m', Map_Put fuel m k v = Ok m' /\
       len (entries m') = grown (Z.max (len (entries m)) 16) (Map_Size m + 1))
  /\
  (forall (s : HashSet K) k,
     Set_reachable s -> Set_Contains fuel s k = Ok false ->
     4 * Z.max (len (sentries s)) 16 < Z.of_nat fuel ->
     2 * len (sentries s) <= maxAlloc ->
     exists s', Set_Add fuel s k = Ok s' /\
       len (sentries s') = grown (Z.max (len (sentries s)) 16) (Set_Size s + 1)).
Proof.
  split.
  - intros m k v v0 Hwf%Map_reachable_wf Hget Hfuel Hmax.
    apply Get_absent_iff in Hget as [_ Hno]; [| done | lia].
    pose proof (Put_wf m k v fuel Hwf) as Hput.
    destruct (Map_Put fuel m k v) as [m' | |]; [| exfalso; lia | exfalso; lia].
    destruct Hput as ((_ & Hcap' & _ & Hload' & _) & _ & _ & _ & Hnew & Hlen).
    exists m'. split; [done |]. unfold Map_Size.
    apply grown_spec; [by apply Map_wf_shape | lia | | done].
    rewrite <- (Hnew Hno). done.
  - intros s k Hwf%Set_reachable_wf Hc Hfuel Hmax.
    apply Contains_false_iff in Hc; [| done | lia].
    pose proof (Add_wf s k fuel Hwf) as Hadd.
    destruct (Set_Add fuel s k) as [s' | |]; [| exfalso; lia | exfalso; lia].
    destruct Hadd as ([(_ & Hcap' & _ & Hload' & _) _] & _ & _ & Hnew & Hlen).
    cbn [entries size to_map] in Hcap', Hload'. rewrite len_conv in Hcap', Hload'.
    exists s'. split; [done |]. unfold Set_Size.
    apply grown_spec; [| lia | | done].
    + assert (Hm : Map_wf (to_map s)).
      { destruct Hwf as [[Hnil Hs0] | [Hm _]]; [left | by right].
        cbn [entries size to_map]. by rewrite Hnil. }
      apply Map_wf_shape in Hm. cbn [entries size to_map] in Hm.
      by rewrite len_conv in Hm.
    + rewrite <- (Hnew Hc). done.
Qed.

(** X26.  The shrink rule.  [Remove] of a key that is found, in a map or a
    set reached by the operations of its type, leaves the capacity
    [shrunken cap (Size() - 1)]: half of [cap] exactly when [cap] is above 16
    and the new size is below [cap/4], and [cap] otherwise; [Remove] of a key
    that is not found leaves the capacity as it is. *)
Theorem X26_capacity_after_removal (fuel : nat) :
  (forall (m : Map K V) k,
     Map_reachable m -> 4 * Z.max (len (entries m)) 16 < Z.of_nat fuel ->
     exists m', Map_Remove fuel m k = Ok m' /\
       (forall v, Map_Get fuel m k = Ok (v, true) ->
          len (entries m') = shrunken (len (entries m)) (Map_Size m - 1)) /\
       (forall v, Map_Get fuel m k = Ok (v, false) ->
          len (entries m') = len (entries m)))
  /\
  (forall (s : HashSet K) k,
     Set_reachable s -> 4 * Z.max (len (sentries s)) 16 < Z.of_nat fuel ->
     exists s', Set_Remove fuel s k = Ok s' /\
       (Set_Contains fuel s k = Ok true ->
          len (sentries s') = shrunken (len (sentries s)) (Set_Size s - 1)) /\
       (Set_Contains fuel s k = Ok false ->
          len (sentries s') = len (sentries s))).
Proof.
  unfold shrunken, initialCapacity. split.
  - intros m k Hwf%Map_reachable_wf Hfuel.
    pose proof (Remove_run_wf m k fuel Hwf) as Hrun.
    unfold Map_Remove, rmap.
    destruct (Map_Remove_run fuel m k) as [r | |]; cbn [bind]; [| done | exfalso; lia].
    destruct Hrun as (_ & _ & _ & _ & _ & Hlen & Hshr).
    exists (after r). split; [done |]. split.
    + intros v Hget. apply Get_found_iff in Hget; [| done | lia].
      assert (Hhas : has_key hash1 key (entries m) (tag k) k)
        by by exists (assoc k v).
      unfold Map_Size. rewrite Hlen.
      destruct (Z.gtb_spec (len (entries m)) 16) as [Hbig | Hsmall];
        [destruct (Z.ltb_spec (size m - 1) (len (entries m) / 4)) as [Hfew | Hmany] |];
        cbn [andb].
      * by rewrite (proj2 Hshr).
      * destruct (shrunk r); [| done]. destruct (proj1 Hshr eq_refl) as (_ & _ & ?). lia.
      * destruct (shrunk r); [| done]. destruct (proj1 Hshr eq_refl) as (_ & ? & _). lia.
    + intros v Hget. apply Get_absent_iff in Hget as [_ Hno]; [| done | lia].
      rewrite Hlen. destruct (shrunk r); [| done].
      by destruct (proj1 Hshr eq_refl) as (? & _).
  - intros s k Hwf%Set_reachable_wf Hfuel.
    pose proof (Remove_run_set_wf s k fuel Hwf) as Hrun.
    unfold Set_Remove, rmap.
    destruct (Set_Remove_run fuel s k) as [r | |]; cbn [bind]; [| done | exfalso; lia].
    destruct Hrun as (_ & _ & Hlen & Hshr).
    exists (after r). split; [done |]. split.
    + intros Hc. apply Contains_true_iff in Hc; [| done | lia].
      unfold Set_Size. rewrite Hlen.
      destruct (Z.gtb_spec (len (sentries s)) 16) as [Hbig | Hsmall];
        [destruct (Z.ltb_spec (ssize s - 1) (len (sentries s) / 4)) as [Hfew | Hmany] |];
        cbn [andb].
      * by rewrite (proj2 Hshr).
      * destruct (shrunk r); [| done]. destruct (proj1 Hshr eq_refl) as (_ & _ & ?). lia.
      * destruct (shrunk r); [| done]. destruct (proj1 Hshr eq_refl) as (_ & ? & _). lia.
    + intros Hc. apply Contains_false_iff in Hc; [| done | lia].
      rewrite Hlen. destruct (shrunk r); [| done].
      by destruct (proj1 Hshr eq_refl) as (? & _).
Qed.

End CapacityPolicy.

(** ** [Set]: how the predicates relate *)

Section SetPredicates.
Context {rt : Runtime} {rtl : RuntimeLaws}.
Context {K : Type} {cmp : Comparable K} {laws : ComparableLaws K} {zk : Zero K}.
Implicit Types (s t r : HashSet K) (k : K).

(** X27.  On sets reached by the operations of [Set]: [Equals] is inclusion
    both ways, as [IsSubset] reports it; [IsDisjoint] gives the same answer
    with its operands exchanged, and it is true exactly when [Intersection]
    returns a set of size 0. *)
Theorem X27_predicates_agree s t fuel :
  Set_reachable s -> Set_reachable t ->
  32 + 8 * (Set_Size s + Set_Size t) <= maxAlloc ->
  32 + 8 * (Set_Size s + Set_Size t) < Z.of_nat fuel ->
  exists e a b d i,
    Set_Equals fuel s t = Ok e /\ Set_IsSubset fuel s t = Ok a /\
    Set_IsSubset fuel t s = Ok b /\ e = a && b /\
    Set_IsDisjoint fuel s t = Ok d /\ Set_IsDisjoint fuel t s = Ok d /\
    Set_Intersection fuel s t = Ok i /\ d = (Set_Size i =? 0).
Proof.
  unfold Set_Size. intros Hs%Set_reachable_wf Ht%Set_reachable_wf Hmax Hfuel.
  destruct (Set_wf_len_bound s Hs) as [Hps _].
  destruct (Set_wf_len_bound t Ht) as [Hpt _].
  assert (Hfs : len (sentries s) <= Z.of_nat fuel)
    by (apply (fuel_covers s (ssize s + ssize t)); [done | lia | done]).
  assert (Hft : len (sentries t) <= Z.of_nat fuel)
    by (apply (fuel_covers t (ssize s + ssize t)); [done | lia | done]).
  destruct (Equals_spec fuel s t Hs Ht Hfs Hft) as (e & He & Hbe).
  destruct (IsSubset_spec fuel s t Hs Ht Hft) as (a & Ha & Hba).
  destruct (IsSubset_spec fuel t s Ht Hs Hfs) as (b & Hb & Hbb).
  destruct (IsDisjoint_spec fuel s t Hs Ht Hfs Hft) as (d & Hd & Hbd).
  destruct (IsDisjoint_spec fuel t s Ht Hs Hft Hfs) as (d' & Hd' & Hbd').
  destruct (Intersection_spec fuel s t Hs Ht Hmax Hfuel) as (i & Hi & Hwi & Hmi).
  assert (Hdd : d' = d).
  { destruct d, d'; try done.
    - apply (proj2 Hbd'). intros k [? ?]. by apply (proj1 Hbd eq_refl k).
    - symmetry. apply (proj2 Hbd). intros k [? ?]. by apply (proj1 Hbd' eq_refl k). }
  subst d'. exists e, a, b, d, i.
  split; [done |]. split; [done |]. split; [done |]. split; [| split; [done |]].
  - destruct e.
    + symmetry. apply andb_true_iff. split.
      * apply (proj2 Hba). intros k. by apply (proj1 Hbe eq_refl k).
      * apply (proj2 Hbb). intros k. by apply (proj1 Hbe eq_refl k).
    + destruct a, b; try done. apply (proj2 Hbe). intros k. split.
      * apply (proj1 Hba eq_refl).
      * apply (proj1 Hbb eq_refl).
  - split; [done |]. split; [done |].
    destruct (Set_wf_keys i Hwi) as (_ & Hlen & _).
    destruct (Z.eqb_spec (ssize i) 0) as [Hi0 | Hi0].
    + apply (proj2 Hbd). intros k Hk. apply Hmi in Hk.
      by apply (Set_wf_size0 i k) in Hk.
    + destruct d; [| done]. exfalso.
      destruct (keys_of (sentries i)) as [| x l] eqn:Hk; [cbn [length] in Hlen; lia |].
      assert (Hx : Set_mem i x) by (apply Set_mem_keys; rewrite Hk; by left).
      apply Hmi in Hx. by apply (proj1 Hbd eq_refl x).
Qed.

End SetPredicates.

(** ** The further properties at concrete states *)

Section FurtherInstances.
#[local] Existing Instance example_runtime.
#[local] Existing Instance example_runtime_laws.

Lemma set_123_reachable : Set_reachable set_123.
Proof. apply (Set_built_reachable [1; 2; 3]), set_123_built. Qed.

Lemma set_321_reachable : Set_reachable set_321.
Proof. apply (Set_built_reachable [3; 2; 1]), set_321_built. Qed.

(** A stand-in for [Sum64]: the sum of the bytes written. *)
Definition sum_of_bytes (l : list Z) : Z := foldr Z.add 0 l.

(** X1 on the map [{1: 10}] and the key 2. *)
Lemma X1_Put_absent_witness :
  Map_reachable map_1_10 /\ Map_Get 80 map_1_10 2 = Ok (0, false) /\
  exists m', Map_Put 80 map_1_10 2 20 = Ok m' /\
    Map_Get 80 m' 2 = Ok (20, true) /\ Map_Size m' = Map_Size map_1_10 + 1 /\
    (forall k', k' <> 2 -> Map_Get 80 m' k' = Map_Get 80 map_1_10 k').
Proof.
  split; [apply map_1_10_reachable |]. split; [vm_compute; reflexivity |].
  apply (X1_Put_absent_then_Get map_1_10 2 20 0 80);
    [apply map_1_10_reachable | vm_compute; reflexivity
    | vm_compute; reflexivity | vm_compute; discriminate].
Defined.

(** X2 on the map [{1: 10}] and the key 1. *)
Lemma X2_Remove_witness :
  Map_reachable map_1_10 /\
  exists m', Map_Remove 80 map_1_10 1 = Ok m' /\
    Map_Get 80 m' 1 = Ok (zero, false) /\
    (forall k', k' <> 1 -> Map_Get 80 m' k' = Map_Get 80 map_1_10 k') /\
    (forall v, Map_Get 80 map_1_10 1 = Ok (v, true) ->
       Map_Size m' = Map_Size map_1_10 - 1) /\
    (forall v, Map_Get 80 map_1_10 1 = Ok (v, false) -> m' = map_1_10).
Proof.
  split; [apply map_1_10_reachable |].
  apply (X2_Remove_then_Get map_1_10 1 80);
    [apply map_1_10_reachable | vm_compute; reflexivity].
Defined.

(** X3 on the map [{1: 10}]. *)
Lemma X3_Map_Copy_witness :
  Map_reachable map_1_10 /\
  exists c, Map_Copy map_1_10 = Ok c /\ Map_Size c = Map_Size map_1_10 /\
    (forall fuel k, Map_Get fuel c k = Map_Get fuel map_1_10 k) /\
    Map_live (entries c) = Map_live (entries map_1_10) /\
    len (entries c) =
      (if Map_Size map_1_10 =? 0 then 0 else len (entries map_1_10)).
Proof.
  split; [apply map_1_10_reachable |].
  apply (X3_Map_Copy_same_answers map_1_10), map_1_10_reachable.
Defined.

(** X4 on the map [{1: 10}]. *)
Lemma X4_Map_ForEach_witness :
  Map_reachable map_1_10 /\
  NoDup (Map_live (entries map_1_10)).*1 /\
  Z.of_nat (length (Map_live (entries map_1_10))) = Map_Size map_1_10 /\
  Map_live (entries map_1_10) = [(1, 10)].
Proof.
  destruct (X4_Map_ForEach_pairs map_1_10 map_1_10_reachable) as (_ & Hnd & Hlen & _).
  split; [apply map_1_10_reachable |]. split; [done |]. split; [done |].
  vm_compute; reflexivity.
Defined.

(** X5 on the pairs (1, 10), (2, 20). *)
Lemma X5_Put_distinct_witness :
  NoDup [(1, 10); (2, 20)].*1 /\
  exists m : Map IdKey Z,
    Map_run 80 (puts [(1, 10); (2, 20)]) zero = Ok m /\
    Map_Size m = Z.of_nat (length [(1, 10); (2, 20)]) /\
    (forall k v, (k, v) ∈ [(1, 10); (2, 20)] -> Map_Get 80 m k = Ok (v, true)) /\
    (forall k, k ∉ [(1, 10); (2, 20)].*1 -> Map_Get 80 m k = Ok (zero, false)).
Proof.
  assert (Hnd : NoDup [(1, 10); (2, 20)].*1).
  { cbn [fmap list_fmap fst]. apply NoDup_cons. split; [| apply NoDup_singleton].
    intros Hin%list_elem_of_singleton. discriminate Hin. }
  split; [done |].
  apply (X5_Put_distinct_keys (K := IdKey) (V := Z) [(1, 10); (2, 20)] 80 Hnd);
    [vm_compute; discriminate | vm_compute; reflexivity].
Defined.

(** X6 on the set [{5}] and the key 6. *)
Lemma X6_Add_witness :
  Set_reachable set_5 /\
  exists s', Set_Add 80 set_5 6 = Ok s' /\
    Set_Contains 80 s' 6 = Ok true /\
    (forall k', k' <> 6 -> Set_Contains 80 s' k' = Set_Contains 80 set_5 k') /\
    (Set_Contains 80 set_5 6 = Ok true -> s' = set_5) /\
    (Set_Contains 80 set_5 6 = Ok false ->
       Set_Size s' = Set_Size set_5 + 1 /\
       Set_Hash s' = Z.lxor (Set_Hash set_5) (Z.lor (Hash (6 : IdKey)) fullBit)).
Proof.
  split; [apply set_5_reachable |].
  apply (X6_Add_then_Contains set_5 6 80);
    [apply set_5_reachable | vm_compute; reflexivity | vm_compute; discriminate].
Defined.

(** X7 on the set [{5}] and the key 5. *)
Lemma X7_Set_Remove_witness :
  Set_reachable set_5 /\
  exists s', Set_Remove 80 set_5 5 = Ok s' /\
    Set_Contains 80 s' 5 = Ok false /\
    (forall k', k' <> 5 -> Set_Contains 80 s' k' = Set_Contains 80 set_5 k') /\
    (Set_Contains 80 set_5 5 = Ok false -> s' = set_5) /\
    (Set_Contains 80 set_5 5 = Ok true ->
       Set_Size s' = Set_Size set_5 - 1 /\
       Set_Hash s' = Z.lxor (Set_Hash set_5) (Z.lor (Hash (5 : IdKey)) fullBit)).
Proof.
  split; [apply set_5_reachable |].
  apply (X7_Set_Remove_then_Contains set_5 5 80);
    [apply set_5_reachable | vm_compute; reflexivity].
Defined.

(** X8 on [{1, 2, 3}] and [{5}]: [Equals] returns false. *)
Lemma X8_Equals_witness :
  Set_reachable set_123 /\ Set_reachable set_5 /\
  Set_Equals 80 set_123 set_5 = Ok false /\
  exists b, Set_Equals 80 set_123 set_5 = Ok b /\
    (b = true <-> forall k, Set_Contains 80 set_123 k = Set_Contains 80 set_5 k).
Proof.
  split; [apply set_123_reachable |]. split; [apply set_5_reachable |].
  split; [vm_compute; reflexivity |].
  apply (X8_Equals_iff_same_answers set_123 set_5 80);
    [apply set_123_reachable | apply set_5_reachable
    | vm_compute; discriminate | vm_compute; discriminate].
Defined.

(** X9 on [{1, 2, 3}] built in two orders. *)
Lemma X9_Hash_witness :
  Set_reachable set_123 /\ Set_reachable set_321 /\
  Set_Equals 80 set_123 set_321 = Ok true /\ Set_Hash set_123 = Set_Hash set_321.
Proof.
  assert (Heq : Set_Equals 80 set_123 set_321 = Ok true) by (vm_compute; reflexivity).
  split; [apply set_123_reachable |]. split; [apply set_321_reachable |].
  split; [done |].
  apply (X9_Hash_respects_Equals set_123 set_321 80);
    [apply set_123_reachable | apply set_321_reachable
    | vm_compute; discriminate | vm_compute; discriminate | done].
Defined.

(** X10 on [{5}] and [{0..11}]. *)
Lemma X10_IsSubset_witness :
  Set_reachable set_5 /\ Set_reachable set_12 /\
  Set_IsSubset 80 set_5 set_12 = Ok true /\
  exists b, Set_IsSubset 80 set_5 set_12 = Ok b /\
    (b = true <->
     forall k, Set_Contains 80 set_5 k = Ok true -> Set_Contains 80 set_12 k = Ok true).
Proof.
  split; [apply set_5_reachable |]. split; [apply set_12_reachable |].
  split; [vm_compute; reflexivity |].
  apply (X10_IsSubset_iff set_5 set_12 80);
    [apply set_5_reachable | apply set_12_reachable
    | vm_compute; discriminate | vm_compute; discriminate].
Defined.

(** X11 on [{5}] and [{1, 2, 3}]. *)
Lemma X11_IsDisjoint_witness :
  Set_reachable set_5 /\ Set_reachable set_123 /\
  Set_IsDisjoint 80 set_5 set_123 = Ok true /\
  exists b, Set_IsDisjoint 80 set_5 set_123 = Ok b /\
    (b = true <->
     forall k, ~ (Set_Contains 80 set_5 k = Ok true /\
                  Set_Contains 80 set_123 k = Ok true)).
Proof.
  split; [apply set_5_reachable |]. split; [apply set_123_reachable |].
  split; [vm_compute; reflexivity |].
  apply (X11_IsDisjoint_iff set_5 set_123 80);
    [apply set_5_reachable | apply set_123_reachable
    | vm_compute; discriminate | vm_compute; discriminate].
Defined.

(** X12 on [{1, 2, 3}] and [{5}]. *)
Lemma X12_Union_witness :
  Set_reachable set_123 /\ Set_reachable set_5 /\
  exists r, Set_Union 80 set_123 set_5 = Ok r /\
    Set_Size r <= Set_Size set_123 + Set_Size set_5 /\
    forall k, exists a b,
      Set_Contains 80 set_123 k = Ok a /\ Set_Contains 80 set_5 k = Ok b /\
      Set_Contains 80 r k = Ok (a || b).
Proof.
  split; [apply set_123_reachable |]. split; [apply set_5_reachable |].
  apply (X12_Union_Contains set_123 set_5 80);
    [apply set_123_reachable | apply set_5_reachable
    | vm_compute; discriminate | vm_compute; reflexivity].
Defined.

(** X13 on [{0..11}] and [{1, 2, 3}]. *)
Lemma X13_Intersection_witness :
  Set_reachable set_12 /\ Set_reachable set_123 /\
  exists r, Set_Intersection 200 set_12 set_123 = Ok r /\
    Set_Size r <= Set_Size set_12 /\ Set_Size r <= Set_Size set_123 /\
    forall k, exists a b,
      Set_Contains 200 set_12 k = Ok a /\ Set_Contains 200 set_123 k = Ok b /\
      Set_Contains 200 r k = Ok (a && b).
Proof.
  split; [apply set_12_reachable |]. split; [apply set_123_reachable |].
  apply (X13_Intersection_Contains set_12 set_123 200);
    [apply set_12_reachable | apply set_123_reachable
    | vm_compute; discriminate | vm_compute; reflexivity].
Defined.

(** X14 on [{0..11}] and [{1, 2, 3}]. *)
Lemma X14_Difference_witness :
  Set_reachable set_12 /\ Set_reachable set_123 /\
  exists r, Set_Difference 200 set_12 set_123 = Ok r /\
    Set_Size r <= Set_Size set_12 /\
    forall k, exists a b,
      Set_Contains 200 set_12 k = Ok a /\ Set_Contains 200 set_123 k = Ok b /\
      Set_Contains 200 r k = Ok (a && negb b).
Proof.
  split; [apply set_12_reachable |]. split; [apply set_123_reachable |].
  apply (X14_Difference_Contains set_12 set_123 200);
    [apply set_12_reachable | apply set_123_reachable | vm_compute; reflexivity].
Defined.

(** X15 on [{0..11}] and [{1, 2, 3}]. *)
Lemma X15_commute_witness :
  Set_reachable set_12 /\ Set_reachable set_123 /\
  (exists u1 u2, Set_Union 200 set_12 set_123 = Ok u1 /\
     Set_Union 200 set_123 set_12 = Ok u2 /\
     Set_Equals 200 u1 u2 = Ok true /\ Set_Hash u1 = Set_Hash u2) /\
  (exists i1 i2, Set_Intersection 200 set_12 set_123 = Ok i1 /\
     Set_Intersection 200 set_123 set_12 = Ok i2 /\
     Set_Equals 200 i1 i2 = Ok true /\ Set_Hash i1 = Set_Hash i2).
Proof.
  split; [apply set_12_reachable |]. split; [apply set_123_reachable |].
  apply (X15_Union_Intersection_commute set_12 set_123 200);
    [apply set_12_reachable | apply set_123_reachable
    | vm_compute; discriminate | vm_compute; reflexivity].
Defined.

(** X16 on [{0..11}] and [{1, 2, 3}]. *)
Lemma X16_results_witness :
  Set_reachable set_12 /\ Set_reachable set_123 /\
  exists u i d,
    Set_Union 200 set_12 set_123 = Ok u /\
    Set_Intersection 200 set_12 set_123 = Ok i /\
    Set_Difference 200 set_12 set_123 = Ok d /\
    Set_IsSubset 200 i set_12 = Ok true /\ Set_IsSubset 200 d set_12 = Ok true /\
    Set_IsSubset 200 set_12 u = Ok true /\ Set_IsSubset 200 set_123 u = Ok true /\
    Set_IsDisjoint 200 d set_123 = Ok true /\ Set_IsDisjoint 200 d i = Ok true.
Proof.
  split; [apply set_12_reachable |]. split; [apply set_123_reachable |].
  apply (X16_results_subset_disjoint set_12 set_123 200);
    [apply set_12_reachable | apply set_123_reachable
    | vm_compute; discriminate | vm_compute; reflexivity].
Defined.

(** X17 on [{0..11}] and [{1, 2, 3}]. *)
Lemma X17_sizes_witness :
  Set_reachable set_12 /\ Set_reachable set_123 /\
  exists u i d,
    Set_Union 200 set_12 set_123 = Ok u /\
    Set_Intersection 200 set_12 set_123 = Ok i /\
    Set_Difference 200 set_12 set_123 = Ok d /\
    Set_Size u + Set_Size i = Set_Size set_12 + Set_Size set_123 /\
    Set_Size d + Set_Size i = Set_Size set_12.
Proof.
  split; [apply set_12_reachable |]. split; [apply set_123_reachable |].
  apply (X17_sizes_of_results set_12 set_123 200);
    [apply set_12_reachable | apply set_123_reachable
    | vm_compute; discriminate | vm_compute; reflexivity].
Defined.

(** X18 on [{1, 2, 3}]. *)
Lemma X18_itself_witness :
  Set_reachable set_123 /\
  exists u i d,
    Set_Union 100 set_123 set_123 = Ok u /\ Set_Equals 100 u set_123 = Ok true /\
    Set_Intersection 100 set_123 set_123 = Ok i /\
    Set_Equals 100 i set_123 = Ok true /\
    Set_Difference 100 set_123 set_123 = Ok d /\ Set_Size d = 0 /\
    Set_Hash d = emptySetHash.
Proof.
  split; [apply set_123_reachable |].
  apply (X18_operations_with_itself set_123 100);
    [apply set_123_reachable | vm_compute; discriminate | vm_compute; reflexivity].
Defined.

(** X19 on [{1, 2, 3}]. *)
Lemma X19_Set_Copy_witness :
  Set_reachable set_123 /\
  exists c, Set_Copy set_123 = Ok c /\ Set_Size c = Set_Size set_123 /\
    Set_Hash c = Set_Hash set_123 /\
    (forall fuel k, Set_Contains fuel c k = Set_Contains fuel set_123 k) /\
    keys_of (sentries c) = keys_of (sentries set_123) /\
    (forall fuel, len (sentries set_123) <= Z.of_nat fuel ->
       Set_Equals fuel set_123 c = Ok true) /\
    len (sentries c) = (if Set_Size set_123 =? 0 then 0 else len (sentries set_123)).
Proof.
  split; [apply set_123_reachable |].
  apply (X19_Set_Copy_same_answers set_123), set_123_reachable.
Defined.

(** X20 on [{1, 2, 3}]. *)
Lemma X20_Set_ForEach_witness :
  Set_reachable set_123 /\
  NoDup (keys_of (sentries set_123)) /\
  Z.of_nat (length (keys_of (sentries set_123))) = Set_Size set_123 /\
  keys_of (sentries set_123) = [1; 2; 3].
Proof.
  destruct (X20_Set_ForEach_keys set_123 set_123_reachable) as (_ & Hnd & Hlen & _).
  split; [apply set_123_reachable |]. split; [done |]. split; [done |].
  vm_compute; reflexivity.
Defined.

(** X21 on the keys 1, 2, 1. *)
Lemma X21_Add_list_witness :
  exists s : HashSet IdKey, Set_run 80 (adds [1; 2; 1]) zero = Ok s /\
    (forall k, Set_Contains 80 s k = Ok true <-> k ∈ [1; 2; 1]) /\
    (forall l', NoDup l' -> (forall k, k ∈ l' <-> k ∈ [1; 2; 1]) ->
       Set_Size s = Z.of_nat (length l')).
Proof.
  apply (X21_Add_list (K := IdKey) [1; 2; 1] 80);
    [vm_compute; discriminate | vm_compute; reflexivity].
Defined.

(** X22 on 1 and 257. *)
Lemma X22_low_byte_witness :
  1 mod 256 = 257 mod 256 /\
  Int_Hash sum_of_bytes 1 = Int_Hash sum_of_bytes 257.
Proof.
  split; [reflexivity |].
  apply (X22_hash_sees_low_byte_only sum_of_bytes 1 257). reflexivity.
Defined.

(** X24 on slices of [IdKey]. *)
Lemma X24_Slice_witness :
  exists r, Slice_Equals [1; 2 : IdKey] [1; 2] = Ok r /\
    (r = true <-> [1; 2 : IdKey] = [1; 2]) /\
    (r = true -> Slice_Hash sum_of_bytes [1; 2 : IdKey] = Slice_Hash sum_of_bytes [1; 2]).
Proof.
  apply (X24_Slice_Equals_and_Hash sum_of_bytes IdKey_laws [1; 2] [1; 2]).
Defined.

(** X25 on the map [{1: 10}] and the set [{0..11}], which grows. *)
Lemma X25_growth_witness :
  (Map_reachable map_1_10 /\ Map_Get 80 map_1_10 2 = Ok (0, false) /\
   exists m', Map_Put 80 map_1_10 2 20 = Ok m' /\
     len (entries m') = grown (Z.max (len (entries map_1_10)) 16) (Map_Size map_1_10 + 1)) /\
  (Set_reachable set_12 /\ Set_Contains 80 set_12 12 = Ok false /\
   grown (Z.max (len (sentries set_12)) 16) (Set_Size set_12 + 1) = 32 /\
   exists s', Set_Add 80 set_12 12 = Ok s' /\
     len (sentries s') = grown (Z.max (len (sentries set_12)) 16) (Set_Size set_12 + 1)).
Proof.
  destruct (X25_capacity_after_insertion (K := IdKey) (V := Z) 80) as [HM HS].
  split.
  - split; [apply map_1_10_reachable |]. split; [vm_compute; reflexivity |].
    apply (HM map_1_10 2 20 0);
      [apply map_1_10_reachable | vm_compute; reflexivity
      | vm_compute; reflexivity | vm_compute; discriminate].
  - split; [apply set_12_reachable |]. split; [vm_compute; reflexivity |].
    split; [vm_compute; reflexivity |].
    apply (HS set_12 12);
      [apply set_12_reachable | vm_compute; reflexivity
      | vm_compute; reflexivity | vm_compute; discriminate].
Defined.

(** X26 on the map [{1: 10}] and on the set [{0..7}] in 32 slots, which
    shrinks. *)
Lemma X26_shrink_witness :
  (Map_reachable map_1_10 /\
   exists m', Map_Remove 80 map_1_10 1 = Ok m' /\
     (forall v, Map_Get 80 map_1_10 1 = Ok (v, true) ->
        len (entries m') = shrunken (len (entries map_1_10)) (Map_Size map_1_10 - 1)) /\
     (forall v, Map_Get 80 map_1_10 1 = Ok (v, false) ->
        len (entries m') = len (entries map_1_10))) /\
  (Set_reachable set_8 /\ Set_Contains 200 set_8 0 = Ok true /\
   shrunken (len (sentries set_8)) (Set_Size set_8 - 1) = 16 /\
   exists s', Set_Remove 200 set_8 0 = Ok s' /\
     (Set_Contains 200 set_8 0 = Ok true ->
        len (sentries s') = shrunken (len (sentries set_8)) (Set_Size set_8 - 1)) /\
     (Set_Contains 200 set_8 0 = Ok false ->
        len (sentries s') = len (sentries set_8))).
Proof.
  split.
  - split; [apply map_1_10_reachable |].
    apply (proj1 (X26_capacity_after_removal (K := IdKey) (V := Z) 80) map_1_10 1);
      [apply map_1_10_reachable | vm_compute; reflexivity].
  - split; [apply set_8_reachable |]. split; [vm_compute; reflexivity |].
    split; [vm_compute; reflexivity |].
    apply (proj2 (X26_capacity_after_removal (K := IdKey) (V := Z) 200) set_8 0);
      [apply set_8_reachable | vm_compute; reflexivity].
Defined.

(** X27 on [{0..11}] and [{1, 2, 3}]. *)
Lemma X27_predicates_witness :
  Set_reachable set_12 /\ Set_reachable set_123 /\
  exists e a b d i,
    Set_Equals 200 set_12 set_123 = Ok e /\ Set_IsSubset 200 set_12 set_123 = Ok a /\
    Set_IsSubset 200 set_123 set_12 = Ok b /\ e = a && b /\
    Set_IsDisjoint 200 set_12 set_123 = Ok d /\
    Set_IsDisjoint 200 set_123 set_12 = Ok d /\
    Set_Intersection 200 set_12 set_123 = Ok i /\ d = (Set_Size i =? 0).
Proof.
  split; [apply set_12_reachable |]. split; [apply set_123_reachable |].
  apply (X27_predicates_agree set_12 set_123 200);
    [apply set_12_reachable | apply set_123_reachable
    | vm_compute; discriminate | vm_compute; reflexivity].
Defined.

End FurtherInstances.
